(** * Maze runner: wall grid, runner transitions, left-hand exploration
      and shortest-path search (breadth-first and A-star)

    A shallow embedding of [basic/maze.py], [extension/maze.py],
    [extension/runner.py] and the maze reader of
    [extension/maze_runner.py].  Python integers are unbounded, hence [Z];
    the wall sets are [gset]s of pairs, the [parent] and [g_cost]
    dictionaries are [gmap]s; exceptions are an explicit [Raise]
    outcome and every [while] loop is unrolled under a fuel bound. *)

From stdpp Require Import gmap strings list fin_maps.
From Stdlib Require Import Ascii.

Open Scope Z_scope.

(** ** Exceptions and outcomes *)

Inductive exn : Type :=
  | ValueError (msg : string)
  | KeyError
  | IndexError.

(** The outcome of running a piece of Python: a value, a raised
    exception, or [OutOfFuel] when a loop was cut by the fuel bound
    (only [while] produces it). *)
Inductive result (A : Type) : Type :=
  | Ok (a : A)
  | Raise (e : exn)
  | OutOfFuel.

Arguments Ok {A} a.
Arguments Raise {A} e.
Arguments OutOfFuel {A}.

(** Sequencing: an exception or a fuel cut in the first computation
    ends the whole one. *)
#[global] Instance result_bind : MBind result := λ A B k r,
  match r with
  | Ok a => k a
  | Raise e => Raise e
  | OutOfFuel => OutOfFuel
  end.

(** How one iteration of a loop body ends: fall through to the next
    test of the condition, or [break]. *)
Inductive ctl (St : Type) : Type :=
  | Continue (s : St)
  | Break (s : St).

Arguments Continue {St} s.
Arguments Break {St} s.

(** [while cond: body], at most [fuel] executions of the body. *)
Fixpoint while {St : Type} (fuel : nat) (cond : St → bool)
    (body : St → result (ctl St)) (s : St) : result St :=
  if cond s then
    match fuel with
    | O => OutOfFuel
    | S fuel' =>
        match body s with
        | Ok (Continue s') => while fuel' cond body s'
        | Ok (Break s') => Ok s'
        | Raise e => Raise e
        | OutOfFuel => OutOfFuel
        end
    end
  else Ok s.

(** [l[i]] on a Python list: negative indices count from the end,
    anything else out of range raises [IndexError]. *)
Definition list_get {A : Type} (l : list A) (i : Z) : result A :=
  let n := Z.of_nat (length l) in
  let j := if bool_decide (i < 0) then i + n else i in
  if bool_decide (0 ≤ j) then
    match l !! Z.to_nat j with
    | Some a => Ok a
    | None => Raise IndexError
    end
  else Raise IndexError.

(** [l.index(a)]: position of the first occurrence. *)
Fixpoint list_index {A : Type} `{EqDecision A} (a : A) (l : list A) : option Z :=
  match l with
  | [] => None
  | b :: l' => if decide (b = a) then Some 0 else Z.succ <$> list_index a l'
  end.

(** [for a in l: body], threading the loop state. *)
Fixpoint for_in {A St : Type} (l : list A) (body : St → A → result St) (s : St)
    : result St :=
  match l with
  | [] => Ok s
  | a :: l' => s' ← body s a; for_in l' body s'
  end.

(** ** Data model *)

Abbreviation Cell := (Z * Z)%type.

(** The orientation strings "N", "E", "S", "W". *)
Inductive Orientation : Type := North | East | South | West.

#[global] Instance Orientation_eq_dec : EqDecision Orientation.
Proof. solve_decision. Defined.

(** The runner dictionary of [runner.py], keys "x", "y", "orientation". *)
Record Runner : Type := create_runner {
  get_x : Z;
  get_y : Z;
  get_orientation : Orientation;
}.

(** The fields of class [Maze], the same in both modules. *)
Record Maze : Type := mkMaze {
  width : Z;
  height : Z;
  _horizontal_walls : gset (Z * Z);
  _vertical_walls : gset (Z * Z);
}.

(** [Maze(width, height)] *)
Definition new_maze (w h : Z) : Maze := mkMaze w h ∅ ∅.

Definition add_horizontal_wall (m : Maze) (x_cordinates horizontal_line : Z) : Maze :=
  mkMaze (width m) (height m)
    ({[ (x_cordinates, horizontal_line) ]} ∪ _horizontal_walls m)
    (_vertical_walls m).

Definition add_vertical_wall (m : Maze) (y_cordiates vertical_line : Z) : Maze :=
  mkMaze (width m) (height m)
    (_horizontal_walls m)
    ({[ (y_cordiates, vertical_line) ]} ∪ _vertical_walls m).

(** The list [["N", "E", "S", "W"]] used by both turn functions. *)
Definition orientations : list Orientation := [North; East; South; West].

(** ** runner.py *)

Definition turn (runner : Runner) (direction : string) : result Runner :=
  let current := get_orientation runner in
  match list_index current orientations with
  | None => Raise (ValueError "not in list")
  | Some idx =>
      new_orientation ←
        (if bool_decide (direction = "Left"%string) then
           list_get orientations ((idx - 1) `mod` 4)
         else if bool_decide (direction = "Right"%string) then
           list_get orientations ((idx + 1) `mod` 4)
         else Ok current);
      Ok (create_runner (get_x runner) (get_y runner) new_orientation)
  end.

Definition deltas (o : Orientation) : Z * Z :=
  match o with
  | North => (0, 1)
  | East => (1, 0)
  | South => (0, -1)
  | West => (-1, 0)
  end.

Definition forward (runner : Runner) : Runner :=
  let x := get_x runner in
  let y := get_y runner in
  let orientation := get_orientation runner in
  let '(dx, dy) := deltas orientation in
  create_runner (x + dx) (y + dy) orientation.

(** ** Code shared verbatim by the two [Maze] classes

    [side_map] and indexing of the four-tuple returned by [get_walls]. *)

Definition side_map (o : Orientation) : Z * Z * Z :=
  match o with
  | North => (3, 0, 1)
  | East => (0, 1, 2)
  | South => (1, 2, 3)
  | West => (2, 3, 0)
  end.

Definition walls_get (walls : bool * bool * bool * bool) (i : Z) : bool :=
  let '(north, east, south, west) := walls in
  if bool_decide (i = 0) then north
  else if bool_decide (i = 1) then east
  else if bool_decide (i = 2) then south
  else west.

Definition opposite (o : Orientation) : Orientation :=
  match o with
  | North => South
  | South => North
  | East => West
  | West => East
  end.

(** One entry of the exploration log. *)
Abbreviation LogEntry := (Z * Z * string)%type.

(** Path reconstruction, the same in both [shortest_path] methods:
    [while node != start: path.append(node); node = parent[node]],
    then [path.append(start)] and [path.reverse()].  The loop state is
    the pair of [path] and [node]. *)
Definition reconstruct_cond (start : Cell) (st : list Cell * Cell) : bool :=
  negb (bool_decide (st.2 = start)).

Definition reconstruct_body (parent : gmap Cell Cell) (st : list Cell * Cell)
    : result (ctl (list Cell * Cell)) :=
  let '(path, node) := st in
  let path := path ++ [node] in
  match parent !! node with
  | None => Raise KeyError
  | Some node' => Ok (Continue (path, node'))
  end.

Definition reconstruct (fuel : nat) (parent : gmap Cell Cell) (start target : Cell)
    : result (list Cell) :=
  st ← while fuel (reconstruct_cond start) (reconstruct_body parent) ([], target);
  let path := st.1 ++ [start] in
  Ok (reverse path).

(** ** heapq on (f_cost, node) tuples

    [heapq] keeps a binary heap inside the list; all the program can
    observe is that [heappop] removes and returns a least item.  Tuples
    are compared lexicographically, the order is total and two items
    that compare equal are the same value, so the popped item is fully
    determined by the multiset of items: the heap is kept here as that
    multiset, sorted. *)
Definition item_le (a b : Z * Cell) : bool :=
  bool_decide (a.1 < b.1) ||
  (bool_decide (a.1 = b.1) &&
   (bool_decide (a.2.1 < b.2.1) ||
    (bool_decide (a.2.1 = b.2.1) && bool_decide (a.2.2 ≤ b.2.2)))).

Fixpoint heappush (heap : list (Z * Cell)) (item : Z * Cell) : list (Z * Cell) :=
  match heap with
  | [] => [item]
  | b :: heap' => if item_le item b then item :: heap else b :: heappush heap' item
  end.

Definition heappop (heap : list (Z * Cell)) : result ((Z * Cell) * list (Z * Cell)) :=
  match heap with
  | [] => Raise IndexError
  | b :: heap' => Ok (b, heap')
  end.

(** ** extension/maze.py *)

Module Extension.

Definition get_walls (m : Maze) (x_cordinate y_cordinate : Z)
    : bool * bool * bool * bool :=
  let x := x_cordinate in
  let y := y_cordinate in
  let north := bool_decide (y = height m - 1) in
  let south := bool_decide (y = 0) in
  let west := bool_decide (x = 0) in
  let east := bool_decide (x = width m - 1) in
  let north := if bool_decide ((x, y + 1) ∈ _horizontal_walls m) then true else north in
  let south := if bool_decide ((x, y) ∈ _horizontal_walls m) then true else south in
  let east := if bool_decide ((y, x + 1) ∈ _vertical_walls m) then true else east in
  let west := if bool_decide ((y, x) ∈ _vertical_walls m) then true else west in
  (north, east, south, west).

Definition sense_walls (m : Maze) (runner : Runner) : bool * bool * bool :=
  let x := get_x runner in
  let y := get_y runner in
  let orient := get_orientation runner in
  let walls := get_walls m x y in
  let '(left_i, front_i, right_i) := side_map orient in
  (walls_get walls left_i, walls_get walls front_i, walls_get walls right_i).

Definition go_straight (m : Maze) (runner : Runner) : result Runner :=
  let '(_, front, _) := sense_walls m runner in
  if front then Raise (ValueError "Cannot go straight, wall in front of runne")
  else
    let x := get_x runner in
    let y := get_y runner in
    let orient := get_orientation runner in
    let '(x, y) :=
      match orient with
      | North => (x, y + 1)
      | South => (x, y - 1)
      | East => (x + 1, y)
      | West => (x - 1, y)
      end in
    Ok (create_runner x y orient).

Definition _turn (runner : Runner) (direction : string) : result Runner :=
  match list_index (get_orientation runner) orientations with
  | None => Raise (ValueError "not in list")
  | Some idx =>
      new_orientation ←
        (if bool_decide (direction = "Left"%string) then
           list_get orientations ((idx - 1) `mod` 4)
         else if bool_decide (direction = "Right"%string) then
           list_get orientations ((idx + 1) `mod` 4)
         else Raise (ValueError "Direction must be left or right"));
      Ok (create_runner (get_x runner) (get_y runner) new_orientation)
  end.

Definition move (m : Maze) (runner : Runner) : result (Runner * string) :=
  let '(left_wall, front_wall, right_wall) := sense_walls m runner in
  if negb left_wall then
    turned ← _turn runner "Left";
    new_runner ← go_straight m turned;
    Ok (new_runner, "LF"%string)
  else if negb front_wall then
    new_runner ← go_straight m runner;
    Ok (new_runner, "F"%string)
  else if negb right_wall then
    turned ← _turn runner "Right";
    new_runner ← go_straight m turned;
    Ok (new_runner, "RF"%string)
  else
    let x := get_x runner in
    let y := get_y runner in
    let orient := get_orientation runner in
    let '(x, y) :=
      match orient with
      | North => (x, y - 1)
      | South => (x, y + 1)
      | East => (x - 1, y)
      | West => (x + 1, y)
      end in
    Ok (create_runner x y (opposite orient), "B"%string).

(** The loop state of [explore] is the pair of [runner] and [log]. *)
Definition explore_cond (goal : Cell) (st : Runner * list LogEntry) : bool :=
  negb (bool_decide ((get_x st.1, get_y st.1) = goal)).

Definition explore_body (m : Maze) (st : Runner * list LogEntry)
    : result (ctl (Runner * list LogEntry)) :=
  let '(runner, log) := st in
  '(new_runner, actions) ← move m runner;
  Ok (Continue (new_runner, log ++ [(get_x runner, get_y runner, actions)])).

Definition explore (fuel : nat) (m : Maze) (runner : Runner) (goal : option Cell)
    : result (list LogEntry) :=
  let goal := match goal with
              | None => (width m - 1, height m - 1)
              | Some g => g
              end in
  st ← while fuel (explore_cond goal) (explore_body m) (runner, []);
  Ok st.2.

Definition _get_neighbours (m : Maze) (x y : Z) : list Cell :=
  let neighbours : list Cell := [] in
  let '(north, east, south, west) := get_walls m x y in
  let neighbours := if negb north then neighbours ++ [(x, y + 1)] else neighbours in
  let neighbours := if negb east then neighbours ++ [(x + 1, y)] else neighbours in
  let neighbours := if negb south then neighbours ++ [(x, y - 1)] else neighbours in
  let neighbours := if negb west then neighbours ++ [(x - 1, y)] else neighbours in
  neighbours.


(** Manhattan distance heuristic *)
Definition h (a b : Cell) : Z := Z.abs (a.1 - b.1) + Z.abs (a.2 - b.2).

(** The loop state of the A-star search. *)
Record astar_state : Type := mkAstar {
  open_set : list (Z * Cell);
  g_cost : gmap Cell Z;
  parent : gmap Cell Cell;
}.

(** Body of [for nx, ny in self._get_neighbours(cx, cy)]. *)
Definition relax (target current : Cell) (st : astar_state) (neighbour : Cell)
    : result astar_state :=
  match g_cost st !! current with
  | None => Raise KeyError
  | Some g_current =>
      let tentative_g := g_current + 1 in
      if match g_cost st !! neighbour with
         | None => true
         | Some g_neighbour => bool_decide (tentative_g < g_neighbour)
         end
      then
        let f_cost := tentative_g + h neighbour target in
        Ok (mkAstar (heappush (open_set st) (f_cost, neighbour))
                    (<[neighbour := tentative_g]> (g_cost st))
                    (<[neighbour := current]> (parent st)))
      else Ok st
  end.

Definition astar_cond (st : astar_state) : bool :=
  match open_set st with [] => false | _ => true end.

Definition astar_body (m : Maze) (target : Cell) (st : astar_state)
    : result (ctl astar_state) :=
  '(_, current, open_set') ← heappop (open_set st);
  let st := mkAstar open_set' (g_cost st) (parent st) in
  if bool_decide (current = target) then Ok (Break st)
  else
    let '(cx, cy) := current in
    st' ← for_in (_get_neighbours m cx cy) (relax target current) st;
    Ok (Continue st').

Definition shortest_path (fuel : nat) (m : Maze) (starting goal : option Cell)
    : result (list Cell) :=
  let start := match starting with Some c => c | None => (0, 0) end in
  let target := match goal with Some c => c | None => (width m - 1, height m - 1) end in
  st ← while fuel astar_cond (astar_body m target)
         (mkAstar (heappush [] (0, start)) {[ start := 0 ]} ∅);
  if negb (bool_decide (target ∈ dom (g_cost st))) then Ok []
  else reconstruct fuel (parent st) start target.

End Extension.

(** ** basic/maze.py *)

Module Basic.

Definition get_walls (m : Maze) (x_cordinate y_cordinate : Z)
    : bool * bool * bool * bool :=
  let x := x_cordinate in
  let y := y_cordinate in
  let north := bool_decide (y = height m - 1) in
  let south := bool_decide (y = 0) in
  let west := bool_decide (x = 0) in
  let east := bool_decide (x = width m - 1) in
  let north := if bool_decide ((x, y + 1) ∈ _horizontal_walls m) then true else north in
  let south := if bool_decide ((x, y) ∈ _horizontal_walls m) then true else south in
  let east := if bool_decide ((y, x + 1) ∈ _vertical_walls m) then true else east in
  let west := if bool_decide ((y, x) ∈ _vertical_walls m) then true else west in
  (north, east, south, west).

Definition sense_walls (m : Maze) (runner : Runner) : bool * bool * bool :=
  let x := get_x runner in
  let y := get_y runner in
  let orient := get_orientation runner in
  let walls := get_walls m x y in
  let '(left_i, front_i, right_i) := side_map orient in
  (walls_get walls left_i, walls_get walls front_i, walls_get walls right_i).

Definition go_straight (m : Maze) (runner : Runner) : result Runner :=
  let '(_left, front, _right) := sense_walls m runner in
  if front then Raise (ValueError "Cannot go straight, wall in front of runne")
  else
    let x := get_x runner in
    let y := get_y runner in
    let orient := get_orientation runner in
    let '(x, y) :=
      match orient with
      | North => (x, y + 1)
      | South => (x, y - 1)
      | East => (x + 1, y)
      | West => (x - 1, y)
      end in
    Ok (create_runner x y orient).

Definition _turn (runner : Runner) (direction : string) : result Runner :=
  match list_index (get_orientation runner) orientations with
  | None => Raise (ValueError "not in list")
  | Some idx =>
      new_orientation ←
        (if bool_decide (direction = "Left"%string) then
           list_get orientations ((idx - 1) `mod` 4)
         else if bool_decide (direction = "Right"%string) then
           list_get orientations ((idx + 1) `mod` 4)
         else Raise (ValueError "Direction must be left or right"));
      Ok (create_runner (get_x runner) (get_y runner) new_orientation)
  end.

Definition move (m : Maze) (runner : Runner) : result (Runner * string) :=
  let '(left_wall, front_wall, right_wall) := sense_walls m runner in
  if negb left_wall then
    turned ← _turn runner "Left";
    new_runner ← go_straight m turned;
    Ok (new_runner, "LF"%string)
  else if negb front_wall then
    new_runner ← go_straight m runner;
    Ok (new_runner, "F"%string)
  else if negb right_wall then
    turned ← _turn runner "Right";
    new_runner ← go_straight m turned;
    Ok (new_runner, "RF"%string)
  else
    let x := get_x runner in
    let y := get_y runner in
    let orient := get_orientation runner in
    let '(x, y) :=
      match orient with
      | North => (x, y - 1)
      | South => (x, y + 1)
      | East => (x - 1, y)
      | West => (x + 1, y)
      end in
    Ok (create_runner x y (opposite orient), "B"%string).

(** The loop state of [explore] is the pair of [runner] and [log]. *)
Definition explore_cond (goal : Cell) (st : Runner * list LogEntry) : bool :=
  negb (bool_decide ((get_x st.1, get_y st.1) = goal)).

Definition explore_body (m : Maze) (st : Runner * list LogEntry)
    : result (ctl (Runner * list LogEntry)) :=
  let '(runner, log) := st in
  '(new_runner, actions) ← move m runner;
  Ok (Continue (new_runner, log ++ [(get_x runner, get_y runner, actions)])).

Definition explore (fuel : nat) (m : Maze) (runner : Runner) (goal : option Cell)
    : result (list LogEntry) :=
  let goal := match goal with
              | None => (width m - 1, height m - 1)
              | Some g => g
              end in
  st ← while fuel (explore_cond goal) (explore_body m) (runner, []);
  Ok st.2.

Definition _get_neighbours (m : Maze) (x y : Z) : list Cell :=
  let neighbours : list Cell := [] in
  let '(north, east, south, west) := get_walls m x y in
  let neighbours :=
    if negb north && bool_decide (y + 1 < height m)
    then neighbours ++ [(x, y + 1)] else neighbours in
  let neighbours :=
    if negb east && bool_decide (x + 1 < width m)
    then neighbours ++ [(x + 1, y)] else neighbours in
  let neighbours :=
    if negb south && bool_decide (y - 1 >= 0)
    then neighbours ++ [(x, y - 1)] else neighbours in
  let neighbours :=
    if negb west && bool_decide (x - 1 >= 0)
    then neighbours ++ [(x - 1, y)] else neighbours in
  neighbours.


(** The loop state of the breadth-first search. *)
Record bfs_state : Type := mkBfs {
  queue : list Cell;
  visited : gset Cell;
  parent : gmap Cell Cell;
  found : bool;
}.

(** Body of [for nx, ny in self._get_neighbours(cx, cy)]. *)
Definition visit (current : Cell) (st : bfs_state) (neighbour : Cell)
    : result bfs_state :=
  if negb (bool_decide (neighbour ∈ visited st)) then
    Ok (mkBfs (queue st ++ [neighbour])
              ({[ neighbour ]} ∪ visited st)
              (<[neighbour := current]> (parent st))
              (found st))
  else Ok st.

Definition bfs_cond (st : bfs_state) : bool :=
  match queue st with [] => false | _ => true end.

Definition bfs_body (m : Maze) (target : Cell) (st : bfs_state)
    : result (ctl bfs_state) :=
  match queue st with
  | [] => Raise IndexError
  | current :: queue' =>
      let st := mkBfs queue' (visited st) (parent st) (found st) in
      if bool_decide (current = target) then
        Ok (Break (mkBfs (queue st) (visited st) (parent st) true))
      else
        let '(cx, cy) := current in
        st' ← for_in (_get_neighbours m cx cy) (visit current) st;
        Ok (Continue st')
  end.

Definition shortest_path (fuel : nat) (m : Maze) (starting goal : option Cell)
    : result (list Cell) :=
  let start := match starting with Some c => c | None => (0, 0) end in
  let target := match goal with Some c => c | None => (width m - 1, height m - 1) end in
  st ← while fuel bfs_cond (bfs_body m target)
         (mkBfs [start] {[ start ]} ∅ false);
  if negb (found st) then Ok []
  else reconstruct fuel (parent st) start target.

End Basic.

(** ** extension/maze_runner.py: the ASCII maze reader *)

(** [s.rstrip(c)] for a single character [c]. *)
Fixpoint rstrip (c : ascii) (s : list ascii) : list ascii :=
  match s with
  | [] => []
  | a :: s' =>
      match rstrip c s' with
      | [] => if bool_decide (a = c) then [] else [a]
      | t => a :: t
      end
  end.

(** [all(c == "#" for c in row)] *)
Definition all_hash (row : list ascii) : bool :=
  forallb (λ c, bool_decide (c = "#"%char)) row.

(** Body of the innermost loop of [maze_reader], for the cell [(x, y)]. *)
Definition read_cell (rows : list (list ascii)) (maze_width maze_height : Z)
    (y : Z) (maze : Maze) (x : Z) : result Maze :=
  let ascii_x := 2 * x + 1 in
  let ascii_y := 2 * (maze_height - 1 - y) + 1 in
  maze ←
    (if bool_decide (x < maze_width - 1) then
       row ← list_get rows ascii_y;
       ch ← list_get row (ascii_x + 1);
       Ok (if bool_decide (ch = "#"%char)
           then add_vertical_wall maze y (x + 1) else maze)
     else Ok maze);
  if bool_decide (y < maze_height - 1) then
    row ← list_get rows (ascii_y - 1);
    ch ← list_get row ascii_x;
    Ok (if bool_decide (ch = "#"%char)
        then add_horizontal_wall maze x (y + 1) else maze)
  else Ok maze.

(** Body of [for line in rows], the width check. *)
Definition check_width (ascii_width : Z) (_ : unit) (line : list ascii)
    : result unit :=
  if negb (bool_decide (Z.of_nat (length line) = ascii_width))
  then Raise (ValueError "Maze rows have inconsistent widths")
  else Ok tt.

(** Body of [for r in rows], the side border check. *)
Definition check_sides (_ : unit) (r : list ascii) : result unit :=
  first ← list_get r 0;
  if negb (bool_decide (first = "#"%char))
  then Raise (ValueError "Side borders must be '#'")
  else
    final ← list_get r (-1);
    if negb (bool_decide (final = "#"%char))
    then Raise (ValueError "Side borders must be '#'")
    else Ok tt.

(** [maze_reader], from the lines of the file on (opening and reading
    the file, and the IOError it can end in, are not modelled). *)
Definition maze_reader (lines : list string) : result Maze :=
  let rows := map (λ line, rstrip "010"%char (String.list_ascii_of_string line)) lines in
  match rows with
  | [] => Raise (ValueError "Maze file is empty")
  | row0 :: _ =>
      let ascii_height := Z.of_nat (length rows) in
      let ascii_width := Z.of_nat (length row0) in
      _ ← for_in rows (check_width ascii_width) tt;
      if negb (bool_decide ((ascii_height - 1) `mod` 2 = 0))
         || negb (bool_decide ((ascii_width - 1) `mod` 2 = 0))
      then Raise (ValueError "Maze dimensions must be odd sized ASCII layout")
      else
        let maze_height := (ascii_height - 1) `div` 2 in
        let maze_width := (ascii_width - 1) `div` 2 in
        if negb (all_hash row0)
        then Raise (ValueError "Top border must be all '#'")
        else
          last_row ← list_get rows (-1);
          if negb (all_hash last_row)
          then Raise (ValueError "Bottom border must be all '#'")
          else
            _ ← for_in rows check_sides tt;
            for_in (seqZ 0 maze_height)
              (λ maze y, for_in (seqZ 0 maze_width)
                           (read_cell rows maze_width maze_height y) maze)
              (new_maze maze_width maze_height)
  end.

(** The character at row [i], column [j] of the text (NUL outside). *)
Definition char_at (rows : list (list ascii)) (i j : Z) : ascii :=
  match rows !! Z.to_nat i with
  | Some row => default "000"%char (row !! Z.to_nat j)
  | None => "000"%char
  end.

(** The rows [maze_reader] works on. *)
Definition rows_of (lines : list string) : list (list ascii) :=
  map (λ line, rstrip "010"%char (String.list_ascii_of_string line)) lines.

Definition example_maze : list string :=
  ["#####"; "#   #"; "### #"; "#   #"; "#####"]%string.

(** ** Error conditions and reading aids for the statements *)

(** The two error conditions of the runner transitions, as raised. *)
Definition InvalidArgument : exn := ValueError "Direction must be left or right".
Definition BlockedMove : exn := ValueError "Cannot go straight, wall in front of runne".

(** Positions in the tuple returned by [get_walls]. *)
Definition north_wall (walls : bool * bool * bool * bool) : bool := walls_get walls 0.
Definition east_wall (walls : bool * bool * bool * bool) : bool := walls_get walls 1.
Definition south_wall (walls : bool * bool * bool * bool) : bool := walls_get walls 2.
Definition west_wall (walls : bool * bool * bool * bool) : bool := walls_get walls 3.

(** Positions in the triple returned by [sense_walls]. *)
Definition left_of (s : bool * bool * bool) : bool := s.1.1.
Definition front_of (s : bool * bool * bool) : bool := s.1.2.
Definition right_of (s : bool * bool * bool) : bool := s.2.

(** One step backward / forward in the cycle N, E, S, W. *)
Definition rotate_left (o : Orientation) : Orientation :=
  match o with
  | North => West
  | East => North
  | South => East
  | West => South
  end.

Definition rotate_right (o : Orientation) : Orientation :=
  match o with
  | North => East
  | East => South
  | South => West
  | West => North
  end.

(** The runner one cell behind, facing the other way. *)
Definition backward (runner : Runner) : Runner :=
  let '(dx, dy) := deltas (get_orientation runner) in
  create_runner (get_x runner - dx) (get_y runner - dy)
    (opposite (get_orientation runner)).

Definition in_range (m : Maze) (c : Cell) : Prop :=
  0 ≤ c.1 < width m ∧ 0 ≤ c.2 < height m.

#[global] Instance in_range_dec m c : Decision (in_range m c).
Proof. unfold in_range. apply _. Defined.

(** Wall-free adjacency: [c'] is the cell next to [c] on a side where
    [get_walls] reports no wall. *)
Definition open_step (m : Maze) (c c' : Cell) : bool :=
  let walls := Extension.get_walls m c.1 c.2 in
  (negb (north_wall walls) && bool_decide (c' = (c.1, c.2 + 1))) ||
  (negb (east_wall walls) && bool_decide (c' = (c.1 + 1, c.2))) ||
  (negb (south_wall walls) && bool_decide (c' = (c.1, c.2 - 1))) ||
  (negb (west_wall walls) && bool_decide (c' = (c.1 - 1, c.2))).

(** Every consecutive pair of the sequence is wall-free adjacent. *)
Fixpoint is_walk (m : Maze) (p : list Cell) : bool :=
  match p with
  | [] => true
  | c :: p' =>
      match p' with
      | [] => true
      | c' :: _ => open_step m c c' && is_walk m p'
      end
  end.

(** A path from [start] to [goal], both ends included. *)
Definition is_path (m : Maze) (start goal : Cell) (p : list Cell) : Prop :=
  head p = Some start ∧ last p = Some goal ∧ is_walk m p = true.

#[global] Instance is_path_dec m start goal p : Decision (is_path m start goal p).
Proof. unfold is_path. apply _. Defined.

(** What a shortest-path search owes its caller: a path of least
    length when there is one, the empty sequence when there is none. *)
Definition shortest_path_spec (m : Maze) (start goal : Cell) (p : list Cell) : Prop :=
  (is_path m start goal p ∧
   ∀ q, is_path m start goal q → (length p ≤ length q)%nat)
  ∨ (p = [] ∧ (∀ q, ¬ is_path m start goal q)).

(** The cells of the grid, and a number of loop iterations that is
    enough for either search on it. *)
Definition cells (m : Maze) : list Cell :=
  x ← seqZ 0 (width m); y ← seqZ 0 (height m); [(x, y)].

Definition search_fuel (m : Maze) : nat :=
  S (S (length (cells m) * length (cells m))).

(** The runner [k] cells ahead, same orientation. *)
Definition ahead (r : Runner) (k : Z) : Runner :=
  let '(dx, dy) := deltas (get_orientation r) in
  create_runner (get_x r + k * dx) (get_y r + k * dy) (get_orientation r).

Definition manhattan (a b : Cell) : Z := Z.abs (b.1 - a.1) + Z.abs (b.2 - a.2).

Definition position (r : Runner) : Cell := (get_x r, get_y r).

(** ** The two [Maze] classes agree on everything but the search *)

Lemma basic_get_walls m x y : Basic.get_walls m x y = Extension.get_walls m x y.
Proof. reflexivity. Qed.

Lemma basic_sense_walls m r : Basic.sense_walls m r = Extension.sense_walls m r.
Proof. reflexivity. Qed.

Lemma basic_go_straight m r : Basic.go_straight m r = Extension.go_straight m r.
Proof. reflexivity. Qed.

Lemma basic_turn r d : Basic._turn r d = Extension._turn r d.
Proof. reflexivity. Qed.

Lemma basic_move m r : Basic.move m r = Extension.move m r.
Proof. reflexivity. Qed.

(** ** WallGrid *)

Section WallGrid.

Implicit Types (m : Maze) (x y : Z).

Lemma get_walls_north m x y :
  north_wall (Extension.get_walls m x y)
  = bool_decide ((x, y + 1) ∈ _horizontal_walls m) || bool_decide (y = height m - 1).
Proof.
  unfold north_wall, Extension.get_walls; simpl.
  by destruct (bool_decide ((x, y + 1) ∈ _)).
Qed.

Lemma get_walls_south m x y :
  south_wall (Extension.get_walls m x y)
  = bool_decide ((x, y) ∈ _horizontal_walls m) || bool_decide (y = 0).
Proof.
  unfold south_wall, Extension.get_walls; simpl.
  by destruct (bool_decide ((x, y) ∈ _)).
Qed.

Lemma get_walls_east m x y :
  east_wall (Extension.get_walls m x y)
  = bool_decide ((y, x + 1) ∈ _vertical_walls m) || bool_decide (x = width m - 1).
Proof.
  unfold east_wall, Extension.get_walls; simpl.
  by destruct (bool_decide ((y, x + 1) ∈ _)).
Qed.

Lemma get_walls_west m x y :
  west_wall (Extension.get_walls m x y)
  = bool_decide ((y, x) ∈ _vertical_walls m) || bool_decide (x = 0).
Proof.
  unfold west_wall, Extension.get_walls; simpl.
  by destruct (bool_decide ((y, x) ∈ _)).
Qed.

Lemma get_walls_eta m x y :
  Extension.get_walls m x y
  = (north_wall (Extension.get_walls m x y), east_wall (Extension.get_walls m x y),
     south_wall (Extension.get_walls m x y), west_wall (Extension.get_walls m x y)).
Proof. reflexivity. Qed.

(** The outward wall of a boundary cell is present whatever the
    internal walls are. *)
Lemma boundary_walls m x y :
  (y = height m - 1 → north_wall (Extension.get_walls m x y) = true) ∧
  (y = 0 → south_wall (Extension.get_walls m x y) = true) ∧
  (x = 0 → west_wall (Extension.get_walls m x y) = true) ∧
  (x = width m - 1 → east_wall (Extension.get_walls m x y) = true).
Proof.
  rewrite get_walls_north, get_walls_south, get_walls_west, get_walls_east.
  repeat split; intros ->; rewrite (bool_decide_eq_true_2 _ eq_refl);
    apply orb_true_r.
Qed.

(** C5: in a maze without internal walls, a cell strictly inside the
    grid has no wall on any side, and a cell on the boundary has its
    outward wall: north for [y = height - 1], south for [y = 0], west
    for [x = 0], east for [x = width - 1].  Both classes compute the
    same tuple. *)
Theorem get_walls_without_internal_walls (w h x y : Z) :
  let walls := Extension.get_walls (new_maze w h) x y in
  Basic.get_walls (new_maze w h) x y = walls ∧
  (0 < x < w - 1 → 0 < y < h - 1 → walls = (false, false, false, false)) ∧
  (y = h - 1 → north_wall walls = true) ∧
  (y = 0 → south_wall walls = true) ∧
  (x = 0 → west_wall walls = true) ∧
  (x = w - 1 → east_wall walls = true).
Proof.
  intros walls. split; [reflexivity|]. split.
  - intros Hx Hy. subst walls. unfold Extension.get_walls. simpl.
    rewrite !(bool_decide_eq_false_2 (_ ∈ ∅)) by apply not_elem_of_empty.
    rewrite !bool_decide_eq_false_2 by lia. reflexivity.
  - apply (boundary_walls (new_maze w h) x y).
Qed.

Lemma get_walls_without_internal_walls_witness :
  Extension.get_walls (new_maze 3 3) 1 1 = (false, false, false, false) ∧
  north_wall (Extension.get_walls (new_maze 3 3) 1 2) = true ∧
  south_wall (Extension.get_walls (new_maze 3 3) 1 0) = true ∧
  west_wall (Extension.get_walls (new_maze 3 3) 0 1) = true ∧
  east_wall (Extension.get_walls (new_maze 3 3) 2 1) = true.
Proof.
  split; [apply (get_walls_without_internal_walls 3 3 1 1); lia|].
  split; [apply (get_walls_without_internal_walls 3 3 1 2); lia|].
  split; [apply (get_walls_without_internal_walls 3 3 1 0); lia|].
  split; [apply (get_walls_without_internal_walls 3 3 0 1); lia|].
  apply (get_walls_without_internal_walls 3 3 2 1); lia.
Defined.

(** Membership in the unchecked enumeration, wall by wall. *)
Lemma elem_of_ext_neighbours m x y (c : Cell) :
  c ∈ Extension._get_neighbours m x y ↔
    (north_wall (Extension.get_walls m x y) = false ∧ c = (x, y + 1)) ∨
    (east_wall (Extension.get_walls m x y) = false ∧ c = (x + 1, y)) ∨
    (south_wall (Extension.get_walls m x y) = false ∧ c = (x, y - 1)) ∨
    (west_wall (Extension.get_walls m x y) = false ∧ c = (x - 1, y)).
Proof.
  unfold Extension._get_neighbours.
  rewrite (get_walls_eta m x y) at 1.
  destruct (north_wall _), (east_wall _), (south_wall _), (west_wall _); simpl;
    rewrite ?elem_of_cons, ?elem_of_nil; naive_solver.
Qed.

Lemma basic_ext_neighbours m x y :
  in_range m (x, y) →
  Basic._get_neighbours m x y = Extension._get_neighbours m x y.
Proof.
  intros [Hx Hy]; simpl in *.
  destruct (boundary_walls m x y) as (Hn & Hs & Hw & He).
  unfold Basic._get_neighbours, Extension._get_neighbours.
  rewrite basic_get_walls, (get_walls_eta m x y).
  destruct (north_wall _) eqn:En, (east_wall _) eqn:Ee,
    (south_wall _) eqn:Es, (west_wall _) eqn:Ew; simpl;
    repeat match goal with
      | |- context [bool_decide ?P] =>
          first [ rewrite (bool_decide_eq_true_2 P) by lia
                | rewrite (bool_decide_eq_false_2 P) by lia ]
      end; reflexivity.
Qed.

Lemma ext_neighbours_in_range m x y :
  in_range m (x, y) → Forall (in_range m) (Extension._get_neighbours m x y).
Proof.
  intros [Hx Hy]; simpl in *.
  destruct (boundary_walls m x y) as (Hn & Hs & Hw & He).
  apply Forall_forall. intros c Hc.
  apply elem_of_ext_neighbours in Hc. unfold in_range.
  destruct Hc as [[E ->]|[[E ->]|[[E ->]|[E ->]]]]; simpl;
    rewrite E in *; split; lia.
Qed.

(** C6: on an in-range cell the bound-checking enumeration of the
    basic module and the unchecked one of the extension module return
    the same neighbours (the same list, hence the same set), every
    neighbour is in range, and neither can fail (both are total
    functions). *)
Theorem get_neighbours_policies_agree (m : Maze) (x y : Z) :
  in_range m (x, y) →
  Basic._get_neighbours m x y = Extension._get_neighbours m x y ∧
  Forall (in_range m) (Extension._get_neighbours m x y).
Proof.
  intros Hc. split; [by apply basic_ext_neighbours|by apply ext_neighbours_in_range].
Qed.

Lemma get_neighbours_policies_agree_witness :
  Basic._get_neighbours (new_maze 3 3) 2 0 = Extension._get_neighbours (new_maze 3 3) 2 0 ∧
  Forall (in_range (new_maze 3 3)) (Extension._get_neighbours (new_maze 3 3) 2 0).
Proof.
  apply (get_neighbours_policies_agree (new_maze 3 3) 2 0).
  unfold in_range. simpl. lia.
Defined.

End WallGrid.

(** ** RunnerState transitions *)

Section RunnerTransitions.

Implicit Types (m : Maze) (r : Runner) (d : string).

(** The turn of the maze classes, direction by direction. *)
Lemma turn_left_ok r :
  Extension._turn r "Left"
  = Ok (create_runner (get_x r) (get_y r) (rotate_left (get_orientation r))).
Proof. by destruct r as [x y []]. Qed.

Lemma turn_right_ok r :
  Extension._turn r "Right"
  = Ok (create_runner (get_x r) (get_y r) (rotate_right (get_orientation r))).
Proof. by destruct r as [x y []]. Qed.

Lemma turn_invalid r d :
  d ≠ "Left"%string → d ≠ "Right"%string →
  Extension._turn r d = Raise InvalidArgument.
Proof.
  intros Hl Hr. destruct r as [x y o]. unfold Extension._turn.
  destruct o; simpl; by rewrite !bool_decide_eq_false_2.
Qed.

(** The turn of [runner.py] agrees with it on "Left" and "Right" ... *)
Lemma runner_turn_left r : turn r "Left" = Extension._turn r "Left".
Proof. by destruct r as [x y []]. Qed.

Lemma runner_turn_right r : turn r "Right" = Extension._turn r "Right".
Proof. by destruct r as [x y []]. Qed.

(** ... and hands the runner back unchanged on anything else. *)
Lemma runner_turn_invalid r d :
  d ≠ "Left"%string → d ≠ "Right"%string → turn r d = Ok r.
Proof.
  intros Hl Hr. destruct r as [x y o]. unfold turn.
  destruct o; simpl; by rewrite !bool_decide_eq_false_2.
Qed.

(** C3, at the failing input: asked to turn "Up", [turn] of
    [runner.py] returns the runner as it was instead of failing with
    InvalidArgument, while [_turn] of the maze class raises it. *)
Theorem runner_turn_accepts_invalid_direction :
  turn (create_runner 0 0 North) "Up" = Ok (create_runner 0 0 North) ∧
  Extension._turn (create_runner 0 0 North) "Up" = Raise InvalidArgument.
Proof. split; reflexivity. Qed.

(** What [forward] of [runner.py] computes. *)
Lemma forward_spec r :
  forward r =
  match get_orientation r with
  | North => create_runner (get_x r) (get_y r + 1) North
  | South => create_runner (get_x r) (get_y r - 1) South
  | East => create_runner (get_x r + 1) (get_y r) East
  | West => create_runner (get_x r - 1) (get_y r) West
  end.
Proof.
  destruct r as [x y []]; unfold forward; simpl; f_equal; lia.
Qed.

Lemma go_straight_blocked m r :
  front_of (Extension.sense_walls m r) = true →
  Extension.go_straight m r = Raise BlockedMove.
Proof.
  unfold Extension.go_straight, front_of.
  destruct (Extension.sense_walls m r) as [[l f] rt]; simpl. by intros ->.
Qed.

Lemma go_straight_open m r :
  front_of (Extension.sense_walls m r) = false →
  Extension.go_straight m r = Ok (forward r).
Proof.
  unfold Extension.go_straight, front_of.
  destruct (Extension.sense_walls m r) as [[l f] rt]; simpl. intros ->.
  rewrite forward_spec. by destruct r as [x y []].
Qed.

(** C7: the forward step of the maze class fails with BlockedMove
    exactly when the wall in front of the runner is present; otherwise
    it returns the runner moved one cell in the facing direction
    (N: y+1, S: y-1, E: x+1, W: x-1), orientation unchanged, which is
    the runner [forward] of [runner.py] builds. *)
Theorem go_straight_blocked_iff_front_wall (m : Maze) (r : Runner) :
  (Extension.go_straight m r = Raise BlockedMove
     ↔ front_of (Extension.sense_walls m r) = true) ∧
  ((∃ e, Extension.go_straight m r = Raise e)
     ↔ front_of (Extension.sense_walls m r) = true) ∧
  (front_of (Extension.sense_walls m r) = false →
     Extension.go_straight m r = Ok (forward r)) ∧
  forward r =
    match get_orientation r with
    | North => create_runner (get_x r) (get_y r + 1) North
    | South => create_runner (get_x r) (get_y r - 1) South
    | East => create_runner (get_x r + 1) (get_y r) East
    | West => create_runner (get_x r - 1) (get_y r) West
    end.
Proof.
  destruct (front_of (Extension.sense_walls m r)) eqn:Hf.
  - rewrite (go_straight_blocked m r Hf).
    repeat split; eauto using forward_spec; done.
  - rewrite (go_straight_open m r Hf).
    repeat split; try done; try apply forward_spec. by intros [e ?].
Qed.

Lemma go_straight_blocked_iff_front_wall_witness :
  Extension.go_straight (new_maze 3 3) (create_runner 0 0 North)
  = Ok (forward (create_runner 0 0 North)).
Proof.
  apply (go_straight_blocked_iff_front_wall (new_maze 3 3) (create_runner 0 0 North)).
  reflexivity.
Defined.

(** Turning left puts the old left wall in front, turning right the
    old right wall. *)
Lemma sense_after_left m r :
  front_of (Extension.sense_walls m
              (create_runner (get_x r) (get_y r) (rotate_left (get_orientation r))))
  = left_of (Extension.sense_walls m r).
Proof. by destruct r as [x y []]. Qed.

Lemma sense_after_right m r :
  front_of (Extension.sense_walls m
              (create_runner (get_x r) (get_y r) (rotate_right (get_orientation r))))
  = right_of (Extension.sense_walls m r).
Proof. by destruct r as [x y []]. Qed.

(** The outcome of [move], by the left-hand priority. *)
Definition move_spec (m : Maze) (r : Runner) : Runner * string :=
  let s := Extension.sense_walls m r in
  if negb (left_of s) then
    (forward (create_runner (get_x r) (get_y r) (rotate_left (get_orientation r))),
     "LF"%string)
  else if negb (front_of s) then (forward r, "F"%string)
  else if negb (right_of s) then
    (forward (create_runner (get_x r) (get_y r) (rotate_right (get_orientation r))),
     "RF"%string)
  else (backward r, "B"%string).

Lemma move_ok m r : Extension.move m r = Ok (move_spec m r).
Proof.
  unfold Extension.move, move_spec.
  pose proof (sense_after_left m r) as Hl.
  pose proof (sense_after_right m r) as Hr.
  pose proof (go_straight_open m r) as Hf.
  destruct (Extension.sense_walls m r) as [[l f] rt].
  unfold left_of, right_of in *; simpl in *.
  destruct l; simpl.
  - destruct f; simpl.
    + destruct rt; simpl.
      * unfold backward. destruct r as [x y []]; simpl; repeat f_equal; lia.
      * rewrite turn_right_ok. simpl. by rewrite (go_straight_open _ _ Hr).
    + by rewrite Hf.
  - rewrite turn_left_ok. simpl. by rewrite (go_straight_open _ _ Hl).
Qed.

End RunnerTransitions.

(** ** LocalExplorer *)

Section LocalExplorer.

Implicit Types (m : Maze) (r : Runner) (goal : Cell) (log : list LogEntry).

(** The log the loop was entered with stays in front of what the loop
    appends to it. *)
Lemma explore_while_prefix fuel m goal r log :
  while fuel (Extension.explore_cond goal) (Extension.explore_body m) (r, log)
  = st ← while fuel (Extension.explore_cond goal) (Extension.explore_body m) (r, []);
    Ok (st.1, log ++ st.2).
Proof.
  revert r log. induction fuel as [|fuel IH]; intros r log; simpl.
  - destruct (Extension.explore_cond goal (r, log)) eqn:Hc;
      unfold Extension.explore_cond in *; simpl in *; rewrite Hc; simpl;
      [done | by rewrite app_nil_r].
  - unfold Extension.explore_cond at 1 3; simpl.
    destruct (negb _); simpl; [|by rewrite app_nil_r].
    rewrite move_ok. destruct (move_spec m r) as [r' a]; simpl.
    rewrite (IH r' (log ++ _)), (IH r' [_]).
    destruct (while fuel _ _ (r', [])) as [[r'' l'']| |]; simpl; try done.
    by rewrite <- app_assoc.
Qed.

Lemma explore_at_goal fuel m r goal :
  (get_x r, get_y r) = goal → Extension.explore fuel m r (Some goal) = Ok [].
Proof.
  intros Hg. unfold Extension.explore.
  destruct fuel; simpl; unfold Extension.explore_cond; simpl;
    by rewrite (bool_decide_eq_true_2 _ Hg).
Qed.

Lemma explore_step fuel m r goal :
  (get_x r, get_y r) ≠ goal →
  Extension.explore (S fuel) m r (Some goal)
  = rest ← Extension.explore fuel m (move_spec m r).1 (Some goal);
    Ok ((get_x r, get_y r, (move_spec m r).2) :: rest).
Proof.
  intros Hg. unfold Extension.explore. simpl.
  unfold Extension.explore_cond at 1; simpl.
  rewrite (bool_decide_eq_false_2 _ Hg); simpl.
  rewrite move_ok. destruct (move_spec m r) as [r' a]; simpl.
  rewrite explore_while_prefix.
  by destruct (while fuel _ _ (r', [])) as [[r'' l'']| |].
Qed.

(** C4: one step of the explorer follows the left-hand priority: left
    open, turn left and step, "LF"; else front open, step, "F"; else
    right open, turn right and step, "RF"; else one cell backward with
    the orientation flipped, "B".  Away from the goal, the entry the
    step appends to the log is the position before the move and the
    action, and the exploration goes on from the moved runner. *)
Theorem move_left_hand_priority (m : Maze) (r : Runner) :
  let s := Extension.sense_walls m r in
  let turned_left :=
    create_runner (get_x r) (get_y r) (rotate_left (get_orientation r)) in
  let turned_right :=
    create_runner (get_x r) (get_y r) (rotate_right (get_orientation r)) in
  let outcome :=
    if negb (left_of s) then (forward turned_left, "LF"%string)
    else if negb (front_of s) then (forward r, "F"%string)
    else if negb (right_of s) then (forward turned_right, "RF"%string)
    else (backward r, "B"%string) in
  Extension.move m r = Ok outcome ∧
  (∀ log, Extension.explore_body m (r, log)
          = Ok (Continue (outcome.1, log ++ [(get_x r, get_y r, outcome.2)]))) ∧
  (∀ fuel goal, (get_x r, get_y r) ≠ goal →
     Extension.explore (S fuel) m r (Some goal)
     = rest ← Extension.explore fuel m outcome.1 (Some goal);
       Ok ((get_x r, get_y r, outcome.2) :: rest)).
Proof.
  intros s tl tr outcome.
  assert (outcome = move_spec m r) as -> by reflexivity.
  split; [apply move_ok|]. split.
  - intros log. unfold Extension.explore_body. rewrite move_ok.
    by destruct (move_spec m r).
  - intros fuel goal. apply explore_step.
Qed.

Lemma move_left_hand_priority_witness :
  Extension.explore 2 (new_maze 2 1) (create_runner 0 0 North) (Some (1, 0))
  = rest ← Extension.explore 1 (new_maze 2 1) (create_runner 1 0 East) (Some (1, 0));
    Ok ((0, 0, "RF"%string) :: rest).
Proof.
  apply (move_left_hand_priority (new_maze 2 1) (create_runner 0 0 North)).
  simpl. congruence.
Defined.

(** C10: [move] never raises, in either class.  A turn is asked only
    with "Left" or "Right" and succeeds; after it the wall sensed to be
    absent is the one in front, so the forward step is not blocked; and
    with three walls around the runner it steps backward whatever
    stands behind it. *)
Theorem move_never_raises (m : Maze) (r : Runner) :
  (∃ t, Extension._turn r "Left" = Ok t ∧
        front_of (Extension.sense_walls m t) = left_of (Extension.sense_walls m r)) ∧
  (∃ t, Extension._turn r "Right" = Ok t ∧
        front_of (Extension.sense_walls m t) = right_of (Extension.sense_walls m r)) ∧
  (∃ r' a, Extension.move m r = Ok (r', a) ∧ Basic.move m r = Ok (r', a)) ∧
  (Extension.sense_walls m r = (true, true, true) →
     Extension.move m r = Ok (backward r, "B"%string)).
Proof.
  split; [|split; [|split]].
  - eexists. split; [apply turn_left_ok|apply sense_after_left].
  - eexists. split; [apply turn_right_ok|apply sense_after_right].
  - exists (move_spec m r).1, (move_spec m r).2.
    change (Basic.move m r) with (Extension.move m r).
    rewrite move_ok. by destruct (move_spec m r).
  - intros Hs. rewrite move_ok. unfold move_spec. by rewrite Hs.
Qed.

(** A runner walled in on all four sides still steps backward. *)
Lemma move_never_raises_witness :
  Extension.move (new_maze 1 1) (create_runner 0 0 North)
  = Ok (backward (create_runner 0 0 North), "B"%string).
Proof.
  apply (move_never_raises (new_maze 1 1) (create_runner 0 0 North)).
  reflexivity.
Defined.

Lemma ahead_0 r : ahead r 0 = r.
Proof. destruct r as [x y []]; unfold ahead; simpl; f_equal; lia. Qed.

Lemma ahead_forward r k : ahead (forward r) k = ahead r (k + 1).
Proof. destruct r as [x y []]; unfold ahead, forward; simpl; f_equal; lia. Qed.

Lemma position_ahead_ne r k : k ≠ 0 → position (ahead r k) ≠ position r.
Proof.
  destruct r as [x y []]; unfold ahead, position; simpl; intros Hk [=]; lia.
Qed.

Lemma manhattan_ahead r k : 0 ≤ k → manhattan (position r) (position (ahead r k)) = k.
Proof.
  destruct r as [x y []]; unfold ahead, position, manhattan; simpl; lia.
Qed.

(** C9, as amended: when at each of the [n] cells from the start up to
    the goal the runner senses a wall on its left and on its right and
    none in front (the one open side is the one it faces), [explore]
    reaches the goal [n] cells ahead with a log of [n] entries, which
    is the Manhattan distance from start to goal, all of them "F". *)
Theorem explore_straight_corridor (m : Maze) (r : Runner) (n : nat) :
  (∀ k : nat, (k < n)%nat →
     Extension.sense_walls m (ahead r (Z.of_nat k)) = (true, false, true)) →
  ∀ fuel, (n ≤ fuel)%nat →
  ∃ log,
    Extension.explore fuel m r (Some (position (ahead r (Z.of_nat n)))) = Ok log ∧
    length log = n ∧
    Z.of_nat (length log) = manhattan (position r) (position (ahead r (Z.of_nat n))) ∧
    Forall (λ e : LogEntry, e.2 = "F"%string) log.
Proof.
  intros Hwalls fuel Hfuel.
  cut (∃ log,
    Extension.explore fuel m r (Some (position (ahead r (Z.of_nat n)))) = Ok log ∧
    length log = n ∧ Forall (λ e : LogEntry, e.2 = "F"%string) log).
  { intros (log & ? & Hlen & ?). exists log. rewrite Hlen at 2.
    rewrite manhattan_ahead by lia. by rewrite Hlen. }
  revert r fuel Hwalls Hfuel. induction n as [|n IH]; intros r fuel Hwalls Hfuel.
  - exists []. rewrite ahead_0. split; [by apply explore_at_goal|done].
  - destruct fuel as [|fuel]; [lia|].
    rewrite explore_step by (apply not_eq_sym, position_ahead_ne; lia).
    pose proof (Hwalls 0%nat ltac:(lia)) as H0. rewrite ahead_0 in H0.
    unfold move_spec. rewrite H0. simpl.
    destruct (IH (forward r) fuel) as (log & Hlog & Hlen & Hall).
    + intros k Hk. rewrite ahead_forward.
      replace (Z.of_nat k + 1) with (Z.of_nat (S k)) by lia.
      apply Hwalls. lia.
    + lia.
    + rewrite ahead_forward in Hlog.
      replace (Z.of_nat n + 1) with (Z.of_nat (S n)) in Hlog by lia.
      rewrite Hlog. simpl. eexists. split; [done|].
      split; [simpl; by rewrite Hlen|]. by constructor.
Qed.

(** A corridor of three cells walled on both sides along row 0. *)
Lemma explore_straight_corridor_witness :
  let m := add_horizontal_wall (add_horizontal_wall (new_maze 3 2) 0 1) 1 1 in
  ∃ log,
    Extension.explore 2 m (create_runner 0 0 East) (Some (2, 0)) = Ok log ∧
    length log = 2%nat ∧
    Z.of_nat (length log) = manhattan (0, 0) (2, 0) ∧
    Forall (λ e : LogEntry, e.2 = "F"%string) log.
Proof.
  intros m.
  apply (explore_straight_corridor m (create_runner 0 0 East) 2); [|lia].
  intros [|[|k]] Hk; [reflexivity|reflexivity|lia].
Defined.

(** C9, as stated, fails: in the 2 x 1 maze without internal walls each
    cell has exactly one open neighbour, and a runner at (0, 0) facing
    north senses exactly one open side; it reaches the goal (1, 0) in
    one step, the Manhattan distance, but the action logged is "RF". *)
Lemma explore_corridor_turns :
  let m := new_maze 2 1 in
  let r := create_runner 0 0 North in
  (∀ c, in_range m c → length (Extension._get_neighbours m c.1 c.2) = 1%nat) ∧
  Extension.sense_walls m r = (true, true, false) ∧
  Extension.explore 1 m r (Some (1, 0)) = Ok [(0, 0, "RF"%string)] ∧
  Z.of_nat (length [(0, 0, "RF"%string)]) = manhattan (0, 0) (1, 0) ∧
  ¬ Forall (λ e : LogEntry, e.2 = "F"%string) [(0, 0, "RF"%string)].
Proof.
  intros m r. split; [|split; [|split; [|split]]]; try reflexivity.
  - intros [x y] [Hx Hy]; simpl in *.
    assert (y = 0) as -> by lia.
    assert (x = 0 ∨ x = 1) as [-> | ->] by lia; reflexivity.
  - intros H. apply Forall_cons_1 in H as [H _]. discriminate H.
Qed.

End LocalExplorer.

(** ** Loop rules *)

Section LoopRules.

Context {St : Type}.

(** A [while] loop whose body keeps an invariant and decreases a
    non-negative measure ends, within any fuel above the measure, in a
    state where the postcondition holds. *)
Lemma while_rule (cond : St → bool) (body : St → result (ctl St))
    (Inv Post : St → Prop) (μ : St → Z) :
  (∀ s, Inv s → 0 ≤ μ s) →
  (∀ s, Inv s → cond s = true →
     match body s with
     | Ok (Continue s') => Inv s' ∧ μ s' < μ s
     | Ok (Break s') => Post s'
     | _ => False
     end) →
  (∀ s, Inv s → cond s = false → Post s) →
  ∀ (fuel : nat) s, Inv s → μ s < Z.of_nat fuel →
  ∃ s', while fuel cond body s = Ok s' ∧ Post s'.
Proof.
  intros Hpos Hbody Hexit fuel.
  induction fuel as [|fuel IH]; intros s HI Hμ.
  - specialize (Hpos s HI). lia.
  - simpl. destruct (cond s) eqn:Hc; [|eauto].
    specialize (Hbody s HI Hc).
    destruct (body s) as [[s'|s']| |]; try done; [|eauto].
    destruct Hbody as [HI' Hlt]. apply IH; [done|lia].
Qed.

(** A [for] loop: the invariant speaks of the items already handled. *)
Lemma for_in_rule {A : Type} (body : St → A → result St)
    (P : list A → St → Prop) (l : list A) (s : St) :
  P [] s →
  (∀ done a s, P done s → a ∈ l →
     ∃ s', body s a = Ok s' ∧ P (done ++ [a]) s') →
  ∃ s', for_in l body s = Ok s' ∧ P l s'.
Proof.
  intros H0 Hstep.
  cut (∀ rest done s, done ++ rest = l → P done s →
         ∃ s', for_in rest body s = Ok s' ∧ P l s').
  { intros H. by apply (H l []). }
  clear s H0. intros rest. induction rest as [|a rest IH]; intros done s Hl HP.
  - rewrite app_nil_r in Hl. subst done. simpl. eauto.
  - simpl. destruct (Hstep done a s HP) as (s' & -> & HP').
    { rewrite <- Hl. set_solver. }
    simpl. apply (IH (done ++ [a])); [|done]. by rewrite <- app_assoc.
Qed.

End LoopRules.

(** ** Paths in the grid *)

Section Paths.

Variable m : Maze.

Implicit Types (c v w : Cell) (p q : list Cell).

Lemma open_step_neighbours c w :
  open_step m c w = true ↔ w ∈ Extension._get_neighbours m c.1 c.2.
Proof.
  rewrite elem_of_ext_neighbours. unfold open_step. simpl.
  rewrite !orb_true_iff, !andb_true_iff, !negb_true_iff, !bool_decide_eq_true.
  tauto.
Qed.

Lemma open_step_in_range c w : in_range m c → open_step m c w = true → in_range m w.
Proof.
  intros Hc Hw. apply open_step_neighbours in Hw.
  destruct c as [x y].
  pose proof (ext_neighbours_in_range m x y Hc) as Hall.
  rewrite Forall_forall in Hall. by apply Hall.
Qed.

Lemma basic_neighbours c :
  in_range m c → Basic._get_neighbours m c.1 c.2 = Extension._get_neighbours m c.1 c.2.
Proof. destruct c as [x y]. intros Hc. by apply basic_ext_neighbours. Qed.

(** [reach s n c]: [c] is [n] open steps away from [s]. *)
Inductive reach (s : Cell) : nat → Cell → Prop :=
  | reach_0 : reach s 0 s
  | reach_S n c c' : reach s n c → open_step m c c' = true → reach s (S n) c'.

Lemma reach_cons s c n g :
  open_step m s c = true → reach c n g → reach s (S n) g.
Proof.
  intros Hs Hr. induction Hr as [|n c1 c2 _ IH Hstep].
  - by apply (reach_S s 0 s c); [constructor|].
  - by apply (reach_S s (S n) c1 c2).
Qed.

Lemma path_reach s g p : is_path m s g p → ∃ n, length p = S n ∧ reach s n g.
Proof.
  revert s. induction p as [|c p IH]; intros s (Hh & Hl & Hw); [done|].
  simpl in Hh. injection Hh as ->.
  destruct p as [|c' p'].
  - simpl in Hl. injection Hl as ->. exists 0%nat. split; [done|constructor].
  - simpl in Hw. apply andb_true_iff in Hw as [Hstep Hw].
    destruct (IH c') as (n & Hlen & Hr).
    { split; [done|]. split; [|done]. by rewrite last_cons_cons in Hl. }
    exists (S n). split; [simpl in *; lia|]. by apply reach_cons with c'.
Qed.

Lemma reach_in_range s n c : in_range m s → reach s n c → in_range m c.
Proof. intros Hs Hr. induction Hr; eauto using open_step_in_range. Qed.

Lemma is_walk_cons c c' p :
  is_walk m (c :: c' :: p) = open_step m c c' && is_walk m (c' :: p).
Proof. reflexivity. Qed.

End Paths.

(** ** Counting cells of the grid *)

Section Counting.

Implicit Types (V : gset Cell) (l : list Cell) (w : Cell).

(** How many items of [l] are in [V]. *)
Definition count_in V l : Z := Z.of_nat (length (filter (.∈ V) l)).

Lemma count_in_bounds V l : 0 ≤ count_in V l ≤ Z.of_nat (length l).
Proof. unfold count_in. pose proof (length_filter (.∈ V) l). lia. Qed.

Lemma count_in_mono V w l : count_in V l ≤ count_in ({[w]} ∪ V) l.
Proof.
  unfold count_in. induction l as [|a l IH]; [done|].
  rewrite !filter_cons.
  destruct (decide (a ∈ V)), (decide (a ∈ {[w]} ∪ V)); simpl; try lia.
  set_solver.
Qed.

Lemma count_in_insert V w l :
  w ∈ l → w ∉ V → count_in V l < count_in ({[w]} ∪ V) l.
Proof.
  intros Hin Hw. induction l as [|a l IH]; [by apply elem_of_nil in Hin|].
  pose proof (count_in_mono V w l) as Hmono.
  unfold count_in in *. rewrite !filter_cons.
  apply elem_of_cons in Hin as [<-|Hin].
  - rewrite decide_False by done. rewrite decide_True by set_solver.
    simpl. lia.
  - specialize (IH Hin).
    destruct (decide (a ∈ V)), (decide (a ∈ {[w]} ∪ V)); simpl; try lia.
    set_solver.
Qed.

Lemma elem_of_cells m c : c ∈ cells m ↔ in_range m c.
Proof.
  unfold cells, in_range. rewrite list_elem_of_bind. split.
  - intros (x & Hy & Hx). apply list_elem_of_bind in Hy as (y & Hc & Hy).
    apply list_elem_of_singleton in Hc as ->.
    apply elem_of_seqZ in Hx, Hy. simpl. lia.
  - destruct c as [x y]; simpl. intros [Hx Hy]. exists x. split.
    + apply list_elem_of_bind. exists y. split; [by apply list_elem_of_singleton|].
      apply elem_of_seqZ. lia.
    + apply elem_of_seqZ. lia.
Qed.

End Counting.

(** ** The parent map as a tree rooted at the start *)

Section ParentTree.

Variables (m : Maze) (start : Cell).

(** Every cell of [V] but the start has a parent in [V], one open step
    before it and of smaller rank [d]. *)
Record tree (V : gset Cell) (d : Cell → Z) (parent : gmap Cell Cell) : Prop := {
  tree_start : start ∈ V;
  tree_start_0 : d start = 0;
  tree_nonneg : ∀ v, v ∈ V → 0 ≤ d v;
  tree_parent : ∀ v, v ∈ V → v ≠ start →
    ∃ p, parent !! v = Some p ∧ p ∈ V ∧ open_step m p v = true ∧ d p + 1 ≤ d v;
}.

(** Walking the parents back from a cell of the tree ends at the
    start, and what it collects is a path no longer than the rank. *)
Lemma reconstruct_tree V d parent target fuel :
  tree V d parent → target ∈ V → d target < Z.of_nat fuel →
  ∃ path, reconstruct fuel parent start target = Ok path ∧
          is_path m start target path ∧
          Z.of_nat (length path) ≤ d target + 1.
Proof.
  intros Ht Htarget Hfuel.
  set (Inv := λ st : list Cell * Cell,
    st.2 ∈ V ∧ is_walk m (st.2 :: reverse st.1) = true ∧
    last (st.2 :: reverse st.1) = Some target ∧
    Z.of_nat (length st.1) + d st.2 ≤ d target).
  destruct (while_rule (reconstruct_cond start) (reconstruct_body parent)
              Inv (λ st, Inv st ∧ st.2 = start) (λ st, d st.2))
    with (fuel := fuel) (s := ([] : list Cell, target))
    as ([path node] & Hrun & (HV & Hwalk & Hlast & Hlen) & Hnode).
  - intros [path node] (HV & _). simpl in *. by apply (tree_nonneg _ _ _ Ht).
  - intros [path node] (HV & Hwalk & Hlast & Hlen) Hcond.
    cbn [fst snd] in HV, Hwalk, Hlast, Hlen.
    unfold reconstruct_cond in Hcond. cbn [fst snd] in Hcond.
    apply negb_true_iff, bool_decide_eq_false in Hcond.
    unfold reconstruct_body.
    destruct (tree_parent _ _ _ Ht node HV Hcond) as (p & -> & HpV & Hstep & Hd).
    split; [|simpl; lia]. unfold Inv; cbn [fst snd].
    rewrite reverse_snoc, is_walk_cons, Hstep, last_cons_cons, length_app.
    cbn [andb length]. repeat split; (done || lia).
  - intros [path node] HI Hcond. split; [done|].
    unfold reconstruct_cond in Hcond. simpl in *.
    by apply negb_false_iff, bool_decide_eq_true in Hcond.
  - unfold Inv; simpl. repeat split; (done || lia).
  - done.
  - simpl in *. subst node. unfold reconstruct. rewrite Hrun. simpl.
    eexists. split; [done|]. rewrite reverse_snoc.
    split; [done|]. simpl. pose proof (tree_start_0 _ _ _ Ht).
    rewrite length_reverse. lia.
Qed.

End ParentTree.

(** ** Lists sorted by a key *)

Section SortedBy.

Context {A : Type}.

Fixpoint sorted_by (f : A → Z) (l : list A) : Prop :=
  match l with
  | [] => True
  | a :: l' => (∀ b, b ∈ l' → f a ≤ f b) ∧ sorted_by f l'
  end.

Lemma sorted_by_snoc f l x :
  sorted_by f l → (∀ a, a ∈ l → f a ≤ f x) → sorted_by f (l ++ [x]).
Proof.
  induction l as [|a l IH]; simpl; intros Hs Hx.
  - split; [|done]. intros b Hb. by apply elem_of_nil in Hb.
  - destruct Hs as [Ha Hs]. split.
    + intros b Hb. apply elem_of_app in Hb as [Hb|Hb]; [by apply Ha|].
      apply list_elem_of_singleton in Hb as ->. apply Hx. left.
    + apply IH; [done|]. intros b Hb. apply Hx. by right.
Qed.

Lemma sorted_by_ext f f' l :
  (∀ a, a ∈ l → f a = f' a) → sorted_by f l → sorted_by f' l.
Proof.
  induction l as [|a l IH]; simpl; [done|]. intros Hext [Ha Hs]. split.
  - intros b Hb. rewrite <- !Hext; [by apply Ha|by right|left].
  - apply IH; [|done]. intros b Hb. apply Hext. by right.
Qed.

End SortedBy.

(** ** Breadth-first search *)

Section BFS.

Variables (m : Maze) (start target : Cell).
Hypothesis Hstart : in_range m start.

Implicit Types (st : Basic.bfs_state) (d : Cell → Z) (c v w : Cell).

(** All the open steps out of [v] lead into [V], one rank up at most. *)
Definition closed (V : gset Cell) d v : Prop :=
  ∀ w, open_step m v w = true → w ∈ V ∧ d w ≤ d v + 1.

Definition bfs_measure st : Z :=
  Z.of_nat (length (cells m)) - count_in (Basic.visited st) (cells m)
  + Z.of_nat (length (Basic.queue st)).

(** Between two iterations of the [while] loop; [d] is the depth of a
    cell in the parent tree. *)
Record bfs_inv st d : Prop := {
  bi_found : Basic.found st = false;
  bi_range : ∀ v, v ∈ Basic.visited st → in_range m v;
  bi_tree : tree m start (Basic.visited st) d (Basic.parent st);
  bi_queue : ∀ v, v ∈ Basic.queue st → v ∈ Basic.visited st;
  bi_closed : ∀ v, v ∈ Basic.visited st →
    v ∈ Basic.queue st ∨ (v ≠ target ∧ closed (Basic.visited st) d v);
  bi_sorted : sorted_by d (Basic.queue st);
  bi_high : ∀ c, head (Basic.queue st) = Some c →
    ∀ v, v ∈ Basic.visited st → d v ≤ d c + 1;
  bi_small : ∀ v, v ∈ Basic.visited st →
    d v < count_in (Basic.visited st) (cells m);
}.

(** Inside the [for] loop over the neighbours of [c], those in [done]
    handled. *)
Record visit_inv c (μ0 : Z) (done : list Cell) st d : Prop := {
  vi_found : Basic.found st = false;
  vi_range : ∀ v, v ∈ Basic.visited st → in_range m v;
  vi_tree : tree m start (Basic.visited st) d (Basic.parent st);
  vi_queue : ∀ v, v ∈ Basic.queue st → v ∈ Basic.visited st;
  vi_current : c ∈ Basic.visited st;
  vi_closed : ∀ v, v ∈ Basic.visited st →
    v ∈ Basic.queue st ∨ v = c ∨ (v ≠ target ∧ closed (Basic.visited st) d v);
  vi_done : ∀ w, w ∈ done → w ∈ Basic.visited st ∧ d w ≤ d c + 1;
  vi_sorted : sorted_by d (Basic.queue st);
  vi_low : ∀ v, v ∈ Basic.queue st → d c ≤ d v;
  vi_high : ∀ v, v ∈ Basic.visited st → d v ≤ d c + 1;
  vi_small : ∀ v, v ∈ Basic.visited st →
    d v < count_in (Basic.visited st) (cells m);
  vi_measure : bfs_measure st ≤ μ0;
}.

Lemma visit_step c μ0 done st d w :
  visit_inv c μ0 done st d → open_step m c w = true →
  ∃ st', Basic.visit c st w = Ok st' ∧ ∃ d', visit_inv c μ0 (done ++ [w]) st' d'.
Proof.
  intros [Hfound Hrange Htree Hq Hc Hclosed Hdone Hsorted Hlow Hhigh Hsmall Hμ] Hstep.
  unfold Basic.visit. destruct (decide (w ∈ Basic.visited st)) as [Hw|Hw].
  - rewrite (bool_decide_eq_true_2 _ Hw). simpl. eexists. split; [done|].
    exists d. split; try done.
    intros x Hx. apply elem_of_app in Hx as [Hx|Hx]; [by apply Hdone|].
    apply list_elem_of_singleton in Hx as ->. auto.
  - rewrite (bool_decide_eq_false_2 _ Hw). simpl. eexists. split; [done|].
    set (V := Basic.visited st) in *.
    set (d' := λ v, if decide (v = w) then d c + 1 else d v).
    assert (Hd' : ∀ v, v ∈ V → d' v = d v).
    { intros v Hv. unfold d'. rewrite decide_False; [done|]. by intros ->. }
    assert (Hd'w : d' w = d c + 1).
    { unfold d'. by rewrite decide_True. }
    assert (Hwr : in_range m w) by eauto using open_step_in_range.
    destruct Htree as [Hs Hs0 Hnn Hpar].
    exists d'. split; simpl.
    + done.
    + intros v [->%elem_of_singleton|Hv]%elem_of_union; auto.
    + split.
      * set_solver.
      * by rewrite Hd'.
      * intros v [->%elem_of_singleton|Hv]%elem_of_union.
        -- rewrite Hd'w. specialize (Hnn c Hc). lia.
        -- rewrite Hd' by done. auto.
      * intros v [->%elem_of_singleton|Hv]%elem_of_union Hne.
        -- exists c. rewrite lookup_insert_eq, Hd'w, (Hd' c Hc).
           repeat split; [set_solver|done|lia].
        -- destruct (Hpar v Hv Hne) as (p & Hp & HpV & Hpstep & Hpd).
           exists p. rewrite lookup_insert_ne by (by intros ->).
           rewrite !Hd' by done. repeat split; [done|set_solver|done|done].
    + intros v [Hv| ->%list_elem_of_singleton]%elem_of_app; set_solver.
    + set_solver.
    + intros v [->%elem_of_singleton|Hv]%elem_of_union.
      * left. set_solver.
      * destruct (Hclosed v Hv) as [?|[?|[Hne Hcl]]]; [left; set_solver|by right; left|].
        right; right. split; [done|]. intros x Hx.
        destruct (Hcl x Hx) as [HxV Hxd].
        rewrite !Hd' by done. split; [set_solver|done].
    + intros x [Hx| ->%list_elem_of_singleton]%elem_of_app.
      * destruct (Hdone x Hx) as [HxV Hxd]. rewrite !Hd' by done.
        split; [set_solver|done].
      * rewrite Hd'w, (Hd' c Hc). split; [set_solver|lia].
    + apply sorted_by_snoc.
      * apply (sorted_by_ext d); [|done]. intros a Ha. symmetry. auto.
      * intros a Ha. rewrite Hd'w, Hd' by auto. auto.
    + intros v [Hv| ->%list_elem_of_singleton]%elem_of_app.
      * rewrite !Hd' by auto. auto.
      * rewrite Hd'w, (Hd' c Hc). lia.
    + intros v [->%elem_of_singleton|Hv]%elem_of_union.
      * rewrite Hd'w, (Hd' c Hc). lia.
      * rewrite !Hd' by auto. auto.
    + assert (count_in V (cells m) < count_in ({[w]} ∪ V) (cells m)) as Hcount.
      { apply count_in_insert; [by apply elem_of_cells|done]. }
      intros v [->%elem_of_singleton|Hv]%elem_of_union.
      * rewrite Hd'w. specialize (Hsmall c Hc). lia.
      * rewrite Hd' by done. specialize (Hsmall v Hv). lia.
    + assert (count_in V (cells m) < count_in ({[w]} ∪ V) (cells m)) as Hcount.
      { apply count_in_insert; [by apply elem_of_cells|done]. }
      unfold bfs_measure in *. fold V in Hμ.
      cbn [Basic.visited Basic.queue]. rewrite length_app. cbn [length]. lia.
Qed.

Lemma bfs_body_step st d c q :
  bfs_inv st d → Basic.queue st = c :: q → c ≠ target →
  ∃ st', Basic.bfs_body m target st = Ok (Continue st') ∧
         (∃ d', bfs_inv st' d') ∧ bfs_measure st' < bfs_measure st.
Proof.
  intros [Hfound Hrange Htree Hq Hclosed Hsorted Hhigh Hsmall] Hqueue Hne.
  assert (HcV : c ∈ Basic.visited st) by (apply Hq; rewrite Hqueue; left).
  assert (Hcr : in_range m c) by auto.
  unfold Basic.bfs_body. rewrite Hqueue, (bool_decide_eq_false_2 _ Hne).
  cbn [Basic.queue Basic.visited Basic.parent Basic.found].
  rewrite Hqueue in Hsorted, Hclosed, Hhigh. destruct Hsorted as [Hc_min Hsorted].
  pose proof (basic_neighbours m c Hcr) as Hnb.
  destruct c as [cx cy]. cbn [fst snd] in Hnb.
  destruct (for_in_rule (Basic.visit (cx, cy))
              (λ done s, ∃ d', visit_inv (cx, cy) (bfs_measure st - 1) done s d')
              (Basic._get_neighbours m cx cy)
              (Basic.mkBfs q (Basic.visited st) (Basic.parent st) (Basic.found st)))
    as (st' & Hrun & d' & Hinv).
  - exists d. split; cbn [Basic.queue Basic.visited Basic.parent Basic.found];
      try done.
    + intros v Hv. apply Hq. rewrite Hqueue. by right.
    + intros v Hv. destruct (Hclosed v Hv) as [[->|?]%elem_of_cons|?]; auto.
    + intros w Hw. by apply elem_of_nil in Hw.
    + by apply Hhigh.
    + unfold bfs_measure. rewrite Hqueue. simpl. lia.
  - intros done a s [d1 Hinv1] Ha. eapply visit_step; [done|].
    apply open_step_neighbours. cbn [fst snd]. by rewrite <- Hnb.
  - rewrite Hrun. eexists. split; [done|].
    destruct Hinv as [Hfound' Hrange' Htree' Hq' Hc' Hclosed' Hdone' Hsorted'
                        Hlow' Hhigh' Hsmall' Hμ'].
    split; [|lia]. exists d'. split; try done.
    + intros v Hv. destruct (Hclosed' v Hv) as [?|[->|?]]; auto.
      right. split; [done|]. intros w Hw. apply Hdone'.
      rewrite Hnb. by apply open_step_neighbours in Hw.
    + intros c2 Hc2 v Hv. specialize (Hhigh' v Hv).
      assert (d' (cx, cy) ≤ d' c2); [|lia].
      apply Hlow'. destruct (Basic.queue st'); [done|].
      simpl in Hc2. injection Hc2 as ->. left.
Qed.

(** What is reachable in [n] steps is visited at depth [n] at most,
    or some cell still in the queue is less than [n] deep. *)
Lemma bfs_frontier st d n v :
  bfs_inv st d → reach m start n v →
  (v ∈ Basic.visited st ∧ d v ≤ Z.of_nat n) ∨
  (∃ u, u ∈ Basic.queue st ∧ d u < Z.of_nat n).
Proof.
  intros [Hfound Hrange Htree Hq Hclosed Hsorted Hhigh Hsmall] Hr.
  induction Hr as [|n c c' _ IH Hstep].
  - left. split; [apply Htree|]. by rewrite (tree_start_0 _ _ _ _ _ Htree).
  - destruct IH as [[HcV Hcd]|(u & Hu & Hud)].
    + destruct (Hclosed c HcV) as [Hcq|[_ Hcl]].
      * right. exists c. split; [done|lia].
      * left. destruct (Hcl c' Hstep). split; [done|lia].
    + right. exists u. split; [done|lia].
Qed.

(** The state the search loop ends in. *)
Definition bfs_post st : Prop :=
  if Basic.found st then
    ∃ d, tree m start (Basic.visited st) d (Basic.parent st) ∧
         target ∈ Basic.visited st ∧
         d target < Z.of_nat (length (cells m)) ∧
         ∀ n, reach m start n target → d target ≤ Z.of_nat n
  else ∀ n, ¬ reach m start n target.

Lemma bfs_search fuel :
  (length (cells m) < fuel)%nat →
  ∃ st, while fuel Basic.bfs_cond (Basic.bfs_body m target)
          (Basic.mkBfs [start] {[ start ]} ∅ false) = Ok st ∧ bfs_post st.
Proof.
  intros Hfuel.
  assert (Hcount : 0 < count_in {[start]} (cells m)).
  { pose proof (count_in_insert ∅ start (cells m)) as H.
    rewrite union_empty_r_L in H.
    pose proof (count_in_bounds ∅ (cells m)).
    specialize (H ltac:(by apply elem_of_cells) ltac:(set_solver)). lia. }
  apply (while_rule Basic.bfs_cond (Basic.bfs_body m target)
           (λ st, ∃ d, bfs_inv st d) bfs_post bfs_measure).
  - intros st _. unfold bfs_measure.
    pose proof (count_in_bounds (Basic.visited st) (cells m)). lia.
  - intros st [d Hinv] Hcond. unfold Basic.bfs_cond in Hcond.
    destruct (Basic.queue st) as [|c q] eqn:Hqueue; [done|].
    destruct (decide (c = target)) as [->|Hne].
    + unfold Basic.bfs_body. rewrite Hqueue, (bool_decide_eq_true_2 _ eq_refl).
      unfold bfs_post. cbn [Basic.queue Basic.visited Basic.parent Basic.found].
      pose proof Hinv as [Hfound Hrange Htree Hq Hclosed Hsorted Hhigh Hsmall].
      assert (target ∈ Basic.visited st) as HtV by (apply Hq; rewrite Hqueue; left).
      exists d. split; [done|]. split; [done|]. split.
      * specialize (Hsmall target HtV).
        pose proof (count_in_bounds (Basic.visited st) (cells m)). lia.
      * intros n Hr. destruct (bfs_frontier st d n target Hinv Hr)
          as [[_ ?]|(u & Hu & Hud)]; [done|].
        rewrite Hqueue in Hu, Hsorted. destruct Hsorted as [Hmin _].
        apply elem_of_cons in Hu as [->|Hu]; [lia|].
        specialize (Hmin u Hu). lia.
    + destruct (bfs_body_step st d c q Hinv Hqueue Hne) as (st' & -> & Hinv' & Hlt).
      done.
  - intros st [d Hinv] Hcond. unfold Basic.bfs_cond in Hcond.
    destruct (Basic.queue st) as [|c q] eqn:Hqueue; [|done].
    unfold bfs_post. rewrite (bi_found _ _ Hinv). intros n Hr.
    destruct (bfs_frontier st d n target Hinv Hr) as [[HtV _]|(u & Hu & _)].
    + destruct (bi_closed _ _ Hinv target HtV) as [Hin|[Hne _]]; [|done].
      rewrite Hqueue in Hin. by apply elem_of_nil in Hin.
    + rewrite Hqueue in Hu. by apply elem_of_nil in Hu.
  - exists (λ _, 0). split; simpl.
    + done.
    + by intros v ->%elem_of_singleton.
    + split; [by apply elem_of_singleton|done|done|].
      by intros v ->%elem_of_singleton.
    + intros v ->%list_elem_of_singleton. by apply elem_of_singleton.
    + intros v ->%elem_of_singleton. left. left.
    + split; [|done]. intros b Hb. by apply elem_of_nil in Hb.
    + intros c _ v _. lia.
    + by intros v _.
  - unfold bfs_measure. simpl. lia.
Qed.

(** The breadth-first [shortest_path] from an in-range start returns,
    within the fuel, a shortest path or the empty list when there is
    no path. *)
Lemma bfs_shortest_path fuel :
  (length (cells m) < fuel)%nat →
  ∃ p, Basic.shortest_path fuel m (Some start) (Some target) = Ok p ∧
       shortest_path_spec m start target p.
Proof.
  intros Hfuel. destruct (bfs_search fuel Hfuel) as (st & Hrun & Hpost).
  unfold Basic.shortest_path. rewrite Hrun. simpl.
  unfold bfs_post in Hpost. destruct (Basic.found st); simpl.
  - destruct Hpost as (d & Htree & HtV & Hsmall & Hmin).
    destruct (reconstruct_tree m start _ d _ target fuel Htree HtV)
      as (p & -> & Hpath & Hlen); [lia|].
    exists p. split; [done|]. left. split; [done|].
    intros q Hq. apply path_reach in Hq as (n & Hn & Hr).
    specialize (Hmin n Hr). lia.
  - exists []. split; [done|]. right. split; [done|].
    intros q Hq. apply path_reach in Hq as (n & Hn & Hr). by apply (Hpost n).
Qed.

End BFS.

(** ** The priority queue *)

Section Heap.

Implicit Types (a b x item : Z * Cell) (heap : list (Z * Cell)).

Lemma item_le_fst a b : item_le a b = true → a.1 ≤ b.1.
Proof.
  destruct a as [fa [xa ya]], b as [fb [xb yb]]. unfold item_le. simpl.
  repeat case_bool_decide; simpl; intros; (done || lia).
Qed.

Lemma item_le_trans a b x :
  item_le a b = true → item_le b x = true → item_le a x = true.
Proof.
  destruct a as [fa [xa ya]], b as [fb [xb yb]], x as [fx [xx yx]].
  unfold item_le. simpl.
  repeat case_bool_decide; simpl; intros; (done || lia).
Qed.

Lemma item_le_total a b : item_le a b = false → item_le b a = true.
Proof.
  destruct a as [fa [xa ya]], b as [fb [xb yb]]. unfold item_le. simpl.
  rewrite !orb_false_iff, !andb_false_iff, !orb_false_iff, !andb_false_iff,
    !bool_decide_eq_false.
  repeat case_bool_decide; simpl; intros; (done || lia).
Qed.

(** The least item is in front. *)
Fixpoint heap_ok heap : Prop :=
  match heap with
  | [] => True
  | a :: heap' => (∀ b, b ∈ heap' → item_le a b = true) ∧ heap_ok heap'
  end.

Lemma elem_of_heappush heap item x :
  x ∈ heappush heap item ↔ x = item ∨ x ∈ heap.
Proof.
  induction heap as [|b heap IH]; simpl.
  - rewrite list_elem_of_singleton, elem_of_nil. tauto.
  - destruct (item_le item b); rewrite !elem_of_cons; [tauto|].
    rewrite IH. tauto.
Qed.

Lemma length_heappush heap item : length (heappush heap item) = S (length heap).
Proof.
  induction heap as [|b heap IH]; simpl; [done|].
  destruct (item_le item b); simpl; by rewrite ?IH.
Qed.

Lemma heap_ok_heappush heap item : heap_ok heap → heap_ok (heappush heap item).
Proof.
  induction heap as [|b heap IH]; simpl.
  - intros _. split; [|done]. intros x Hx. by apply elem_of_nil in Hx.
  - intros [Hb Hok]. destruct (item_le item b) eqn:Hle; simpl.
    + split; [|done]. intros x [->|Hx]%elem_of_cons; [done|].
      eauto using item_le_trans.
    + split; [|auto]. intros x [->|Hx]%elem_of_heappush; [|auto].
      by apply item_le_total.
Qed.

End Heap.

(** ** Sums over the grid *)

Section Sums.

Fixpoint zsum (f : Cell → Z) (l : list Cell) : Z :=
  match l with
  | [] => 0
  | a :: l' => f a + zsum f l'
  end.

Lemma zsum_le f g l : (∀ a, a ∈ l → f a ≤ g a) → zsum f l ≤ zsum g l.
Proof.
  induction l as [|a l IH]; simpl; [done|]. intros H.
  pose proof (H a ltac:(left)). pose proof (IH (λ b Hb, H b ltac:(by right))).
  lia.
Qed.

Lemma zsum_lt f g l w :
  (∀ a, a ∈ l → f a ≤ g a) → w ∈ l → f w < g w → zsum f l < zsum g l.
Proof.
  induction l as [|a l IH]; simpl; intros H Hw Hlt; [by apply elem_of_nil in Hw|].
  pose proof (H a ltac:(left)).
  pose proof (zsum_le f g l (λ b Hb, H b ltac:(by right))).
  apply elem_of_cons in Hw as [->|Hw]; [lia|].
  pose proof (IH (λ b Hb, H b ltac:(by right)) Hw Hlt). lia.
Qed.

Lemma zsum_bounds f l B :
  (∀ a, a ∈ l → 0 ≤ f a ≤ B) → 0 ≤ zsum f l ≤ B * Z.of_nat (length l).
Proof.
  induction l as [|a l IH]; simpl length; simpl zsum; intros H; [lia|].
  pose proof (H a ltac:(left)). pose proof (IH (λ b Hb, H b ltac:(by right))).
  lia.
Qed.

End Sums.

(** ** A-star search *)

Section AStar.

Variables (m : Maze) (start target : Cell).
Hypothesis Hstart : in_range m start.

Implicit Types (st : Extension.astar_state) (g : gmap Cell Z) (c v w : Cell).

(** The Manhattan heuristic is non-negative, zero at the target and
    changes by one at most along an open step. *)
Lemma h_nonneg a b : 0 ≤ Extension.h a b.
Proof. unfold Extension.h. lia. Qed.

Lemma h_self a : Extension.h a a = 0.
Proof. unfold Extension.h. lia. Qed.

Lemma h_step c w :
  open_step m c w = true → Extension.h c target ≤ Extension.h w target + 1.
Proof.
  intros Hs. apply open_step_neighbours, elem_of_ext_neighbours in Hs.
  destruct c as [x y], target as [tx ty]. unfold Extension.h. simpl in *.
  destruct Hs as [[_ ->]|[[_ ->]|[[_ ->]|[_ ->]]]]; simpl; lia.
Qed.

(** The cost recorded for a cell; the potential of a cell is its cost,
    or the number of cells while it has none. *)
Definition gval g v : Z := default 0 (g !! v).

Definition phi g v : Z :=
  match g !! v with
  | Some x => x
  | None => Z.of_nat (length (cells m))
  end.

Definition astar_measure st : Z :=
  zsum (phi (Extension.g_cost st)) (cells m)
  + Z.of_nat (length (Extension.open_set st)).

(** [v] waits in the heap with a priority no larger than its present
    cost plus heuristic. *)
Definition pending st v : Prop :=
  ∃ f, (f, v) ∈ Extension.open_set st ∧
       f ≤ gval (Extension.g_cost st) v + Extension.h v target.

(** Between two iterations of the [while] loop. *)
Record astar_inv st : Prop := {
  ai_range : ∀ v, v ∈ dom (Extension.g_cost st) → in_range m v;
  ai_tree : tree m start (dom (Extension.g_cost st))
              (gval (Extension.g_cost st)) (Extension.parent st);
  ai_heap : ∀ f v, (f, v) ∈ Extension.open_set st →
    v ∈ dom (Extension.g_cost st) ∧
    (gval (Extension.g_cost st) v + Extension.h v target ≤ f ∨ v = start);
  ai_pending : ∀ v, v ∈ dom (Extension.g_cost st) →
    pending st v ∨
    closed m (dom (Extension.g_cost st)) (gval (Extension.g_cost st)) v;
  ai_sorted : heap_ok (Extension.open_set st);
  ai_small : ∀ v, v ∈ dom (Extension.g_cost st) →
    gval (Extension.g_cost st) v < count_in (dom (Extension.g_cost st)) (cells m);
}.

(** Inside the [for] loop over the neighbours of [c], those in [done]
    handled. *)
Record relax_inv c (μ0 : Z) (done : list Cell) st : Prop := {
  ri_range : ∀ v, v ∈ dom (Extension.g_cost st) → in_range m v;
  ri_tree : tree m start (dom (Extension.g_cost st))
              (gval (Extension.g_cost st)) (Extension.parent st);
  ri_heap : ∀ f v, (f, v) ∈ Extension.open_set st →
    v ∈ dom (Extension.g_cost st) ∧
    (gval (Extension.g_cost st) v + Extension.h v target ≤ f ∨ v = start);
  ri_current : c ∈ dom (Extension.g_cost st);
  ri_pending : ∀ v, v ∈ dom (Extension.g_cost st) →
    pending st v ∨ v = c ∨
    closed m (dom (Extension.g_cost st)) (gval (Extension.g_cost st)) v;
  ri_done : ∀ w, w ∈ done →
    w ∈ dom (Extension.g_cost st) ∧
    gval (Extension.g_cost st) w ≤ gval (Extension.g_cost st) c + 1;
  ri_sorted : heap_ok (Extension.open_set st);
  ri_small : ∀ v, v ∈ dom (Extension.g_cost st) →
    gval (Extension.g_cost st) v < count_in (dom (Extension.g_cost st)) (cells m);
  ri_measure : astar_measure st ≤ μ0;
}.

Lemma gval_lookup g v x : g !! v = Some x → gval g v = x.
Proof. unfold gval. by intros ->. Qed.

Lemma gval_insert g w x v :
  gval (<[w:=x]> g) v = if decide (v = w) then x else gval g v.
Proof.
  unfold gval. destruct (decide (v = w)) as [->|Hne].
  - by rewrite lookup_insert_eq.
  - by rewrite lookup_insert_ne.
Qed.

(** A neighbour gets a new, smaller cost. *)
Lemma relax_update c μ0 done st w gc :
  relax_inv c μ0 done st → open_step m c w = true →
  Extension.g_cost st !! c = Some gc →
  match Extension.g_cost st !! w with
  | Some gw => gc + 1 < gw
  | None => True
  end →
  relax_inv c μ0 (done ++ [w])
    (Extension.mkAstar
       (heappush (Extension.open_set st) (gc + 1 + Extension.h w target, w))
       (<[w := gc + 1]> (Extension.g_cost st))
       (<[w := c]> (Extension.parent st))).
Proof.
  intros [Hrange Htree Hheap Hc Hpend Hdone Hsorted Hsmall Hμ] Hstep Hgc Hgw.
  destruct Htree as [Hs Hs0 Hnn Hpar].
  set (g := Extension.g_cost st) in *.
  set (g' := <[w := gc + 1]> g).
  pose proof (gval_lookup g c gc Hgc) as Hgvc.
  assert (Hgc0 : 0 ≤ gc) by (rewrite <- Hgvc; auto).
  assert (Hwc : w ≠ c).
  { intros ->. rewrite Hgc in Hgw. lia. }
  assert (Hws : w ≠ start).
  { intros ->. apply elem_of_dom in Hs as [x Hx].
    rewrite (gval_lookup g start x Hx) in Hs0. subst x.
    rewrite Hx in Hgw. lia. }
  assert (Hdom : dom g' = {[w]} ∪ dom g) by apply dom_insert_L.
  assert (Hsub : ∀ v, v ∈ dom g → v ∈ dom g') by (rewrite Hdom; set_solver).
  assert (Hg'w : gval g' w = gc + 1).
  { unfold g'. rewrite gval_insert. by rewrite decide_True. }
  assert (Hg'ne : ∀ v, v ≠ w → gval g' v = gval g v).
  { intros v Hv. unfold g'. rewrite gval_insert. by rewrite decide_False. }
  assert (Hg'le : ∀ v, v ∈ dom g → gval g' v ≤ gval g v).
  { intros v Hv. destruct (decide (v = w)) as [->|Hne]; [|by rewrite Hg'ne].
    rewrite Hg'w. apply elem_of_dom in Hv as [x Hx].
    rewrite (gval_lookup g w x Hx). rewrite Hx in Hgw. lia. }
  assert (Hg'c : gval g' c = gc) by (rewrite Hg'ne; auto).
  assert (Hwr : in_range m w) by eauto using open_step_in_range.
  assert (Hcount : count_in (dom g) (cells m) ≤ count_in (dom g') (cells m)).
  { rewrite Hdom. apply count_in_mono. }
  assert (Hnew : gc + 1 < count_in (dom g') (cells m) ∧ gc + 1 < phi g w).
  { unfold phi. pose proof (Hsmall c Hc) as Hsc. rewrite Hgvc in Hsc.
    destruct (g !! w) as [gw|] eqn:Hw.
    - assert (w ∈ dom g) as HwV by (apply elem_of_dom; eauto).
      pose proof (Hsmall w HwV) as Hsw.
      rewrite (gval_lookup g w gw Hw) in Hsw. lia.
    - assert (w ∉ dom g) as HwV by (by apply not_elem_of_dom).
      pose proof (count_in_insert (dom g) w (cells m)
                    ltac:(by apply elem_of_cells) HwV) as Hlt.
      rewrite <- Hdom in Hlt.
      pose proof (count_in_bounds (dom g') (cells m)). lia. }
  destruct Hnew as [Hnew1 Hnew2].
  split; cbn [Extension.open_set Extension.g_cost Extension.parent]; fold g'.
  - intros v. rewrite Hdom. intros [->%elem_of_singleton|Hv]%elem_of_union; auto.
  - split.
    + auto.
    + rewrite Hg'ne; [done|]. by intros ->.
    + intros v. rewrite Hdom.
      intros [->%elem_of_singleton|Hv]%elem_of_union; [rewrite Hg'w; lia|].
      destruct (decide (v = w)) as [->|Hne]; [rewrite Hg'w; lia|].
      rewrite Hg'ne by done. auto.
    + intros v Hv Hne. destruct (decide (v = w)) as [->|Hvw].
      * exists c. rewrite lookup_insert_eq, Hg'w, Hg'c.
        repeat split; (done || auto || lia).
      * assert (v ∈ dom g) as HvV by (rewrite Hdom in Hv; set_solver).
        destruct (Hpar v HvV Hne) as (p & Hp & HpV & Hpstep & Hpd).
        exists p. rewrite lookup_insert_ne by done.
        rewrite (Hg'ne v) by done. specialize (Hg'le p HpV).
        repeat split; (done || auto || lia).
  - intros f v [[= -> ->]|Hin]%elem_of_heappush.
    + split; [rewrite Hdom; set_solver|]. left. rewrite Hg'w. lia.
    + destruct (Hheap f v Hin) as [HvV Hf]. split; [auto|].
      destruct Hf as [Hf| ->]; [|by right]. left.
      specialize (Hg'le v HvV). lia.
  - auto.
  - intros v Hv. destruct (decide (v = w)) as [->|Hvw].
    + left. exists (gc + 1 + Extension.h w target). split.
      * apply elem_of_heappush. by left.
      * cbn [Extension.g_cost]. fold g'. rewrite Hg'w. lia.
    + assert (v ∈ dom g) as HvV by (rewrite Hdom in Hv; set_solver).
      destruct (Hpend v HvV) as [(f & Hf & Hle)|[->|Hcl]].
      * left. exists f. split; [apply elem_of_heappush; by right|].
        cbn [Extension.g_cost]. fold g'. by rewrite Hg'ne.
      * by right; left.
      * right; right. intros x Hx. destruct (Hcl x Hx) as [HxV Hxd].
        split; [auto|]. specialize (Hg'le x HxV). rewrite (Hg'ne v) by done. lia.
  - intros x [Hx| ->%list_elem_of_singleton]%elem_of_app.
    + destruct (Hdone x Hx) as [HxV Hxd]. split; [auto|].
      specialize (Hg'le x HxV). rewrite Hg'c. lia.
    + split; [rewrite Hdom; set_solver|]. rewrite Hg'w, Hg'c. lia.
  - by apply heap_ok_heappush.
  - intros v Hv. destruct (decide (v = w)) as [->|Hvw]; [by rewrite Hg'w|].
    assert (v ∈ dom g) as HvV by (rewrite Hdom in Hv; set_solver).
    rewrite Hg'ne by done. specialize (Hsmall v HvV). lia.
  - unfold astar_measure in *.
    cbn [Extension.open_set Extension.g_cost]. fold g g'. fold g in Hμ.
    rewrite length_heappush.
    assert (zsum (phi g') (cells m) < zsum (phi g) (cells m)); [|lia].
    apply (zsum_lt _ _ _ w).
    + intros a _. unfold phi, g'. destruct (decide (a = w)) as [->|Hne].
      * rewrite lookup_insert_eq. fold (phi g w). lia.
      * by rewrite lookup_insert_ne.
    + by apply elem_of_cells.
    + unfold phi at 1. unfold g'. by rewrite lookup_insert_eq.
Qed.

Lemma relax_step c μ0 done st w :
  relax_inv c μ0 done st → open_step m c w = true →
  ∃ st', Extension.relax target c st w = Ok st' ∧
         relax_inv c μ0 (done ++ [w]) st'.
Proof.
  intros Hinv Hstep.
  pose proof (ri_current _ _ _ _ Hinv) as Hc.
  apply elem_of_dom in Hc as [gc Hgc].
  unfold Extension.relax. rewrite Hgc.
  destruct (Extension.g_cost st !! w) as [gw|] eqn:Hgw.
  - destruct (decide (gc + 1 < gw)) as [Hlt|Hge].
    + rewrite (bool_decide_eq_true_2 _ Hlt). eexists. split; [done|].
      apply relax_update; [done|done|done|]. by rewrite Hgw.
    + rewrite (bool_decide_eq_false_2 _ Hge). eexists. split; [done|].
      destruct Hinv as [Hrange Htree Hheap Hc Hpend Hdone Hsorted Hsmall Hμ].
      split; try done.
      intros x [Hx| ->%list_elem_of_singleton]%elem_of_app; [auto|].
      split; [apply elem_of_dom; eauto|].
      rewrite (gval_lookup _ _ _ Hgw), (gval_lookup _ _ _ Hgc). lia.
  - eexists. split; [done|].
    apply relax_update; [done|done|done|]. by rewrite Hgw.
Qed.

Lemma astar_measure_nonneg st : astar_inv st → 0 ≤ astar_measure st.
Proof.
  intros Hinv. unfold astar_measure.
  assert (0 ≤ zsum (phi (Extension.g_cost st)) (cells m)); [|lia].
  transitivity (zsum (λ _, 0) (cells m)).
  - clear. induction (cells m); simpl; lia.
  - apply zsum_le. intros a _. unfold phi.
    destruct (Extension.g_cost st !! a) as [x|] eqn:Hx; [|lia].
    rewrite <- (gval_lookup _ _ _ Hx).
    apply (tree_nonneg _ _ _ _ _ (ai_tree _ Hinv)). apply elem_of_dom. eauto.
Qed.

Lemma astar_body_step st f0 c rest :
  astar_inv st → Extension.open_set st = (f0, c) :: rest → c ≠ target →
  ∃ st', Extension.astar_body m target st = Ok (Continue st') ∧
         astar_inv st' ∧ astar_measure st' < astar_measure st.
Proof.
  intros [Hrange Htree Hheap Hpend Hsorted Hsmall] Hopen Hne.
  assert (HcV : c ∈ dom (Extension.g_cost st)).
  { apply (Hheap f0). rewrite Hopen. left. }
  assert (Hcr : in_range m c) by auto.
  unfold Extension.astar_body. rewrite Hopen. simpl.
  rewrite (bool_decide_eq_false_2 _ Hne).
  rewrite Hopen in Hsorted. destruct Hsorted as [_ Hsorted].
  destruct c as [cx cy].
  destruct (for_in_rule (Extension.relax target (cx, cy))
              (λ done s, relax_inv (cx, cy) (astar_measure st - 1) done s)
              (Extension._get_neighbours m cx cy)
              (Extension.mkAstar rest (Extension.g_cost st) (Extension.parent st)))
    as (st' & Hrun & Hinv).
  - split; cbn [Extension.open_set Extension.g_cost Extension.parent];
      try done.
    + intros f v Hin. apply Hheap. rewrite Hopen. by right.
    + intros v Hv. destruct (Hpend v Hv) as [(f & Hf & Hle)|Hcl]; [|auto].
      rewrite Hopen in Hf. apply elem_of_cons in Hf as [[= -> ->]|Hf]; [auto|].
      left. by exists f.
    + intros w Hw. by apply elem_of_nil in Hw.
    + unfold astar_measure. rewrite Hopen. simpl length.
      cbn [Extension.open_set Extension.g_cost]. lia.
  - intros done a s Hinv1 Ha. apply relax_step; [done|].
    by apply open_step_neighbours.
  - rewrite Hrun. simpl. eexists. split; [done|].
    destruct Hinv as [Hrange' Htree' Hheap' Hc' Hpend' Hdone' Hsorted' Hsmall' Hμ'].
    split; [|lia]. split; try done.
    intros v Hv. destruct (Hpend' v Hv) as [?|[->|?]]; auto.
    right. intros w Hw. apply Hdone'. by apply open_step_neighbours in Hw.
Qed.

(** What is reachable in [n] steps has a cost of [n] at most, or an
    item of the heap has a priority of at most [n] plus the
    heuristic. *)
Lemma astar_frontier st n v :
  astar_inv st → reach m start n v →
  (v ∈ dom (Extension.g_cost st) ∧ gval (Extension.g_cost st) v ≤ Z.of_nat n) ∨
  (∃ f u, (f, u) ∈ Extension.open_set st ∧
          f ≤ Z.of_nat n + Extension.h v target).
Proof.
  intros [Hrange Htree Hheap Hpend Hsorted Hsmall] Hr.
  induction Hr as [|n c c' _ IH Hstep].
  - left. split; [apply Htree|]. by rewrite (tree_start_0 _ _ _ _ _ Htree).
  - pose proof (h_step c c' Hstep) as Hh.
    destruct IH as [[HcV Hcd]|(f & u & Hu & Hf)].
    + destruct (Hpend c HcV) as [(f & Hf & Hle)|Hcl].
      * right. exists f, c. split; [done|lia].
      * left. destruct (Hcl c' Hstep). split; [done|lia].
    + right. exists f, u. split; [done|lia].
Qed.

(** The state the search loop ends in. *)
Definition astar_post st : Prop :=
  tree m start (dom (Extension.g_cost st)) (gval (Extension.g_cost st))
    (Extension.parent st) ∧
  (∀ v, v ∈ dom (Extension.g_cost st) →
     gval (Extension.g_cost st) v < Z.of_nat (length (cells m))) ∧
  ((target ∈ dom (Extension.g_cost st) ∧
    ∀ n, reach m start n target → gval (Extension.g_cost st) target ≤ Z.of_nat n)
   ∨ (¬ (target ∈ dom (Extension.g_cost st)) ∧ (∀ n, ¬ reach m start n target))).

Lemma astar_search fuel :
  (S (length (cells m) * length (cells m)) < fuel)%nat →
  ∃ st, while fuel Extension.astar_cond (Extension.astar_body m target)
          (Extension.mkAstar (heappush [] (0, start)) {[ start := 0 ]} ∅) = Ok st ∧
        astar_post st.
Proof.
  intros Hfuel.
  assert (Hcount : 0 < count_in {[start]} (cells m)).
  { pose proof (count_in_insert ∅ start (cells m)) as H.
    rewrite union_empty_r_L in H.
    pose proof (count_in_bounds ∅ (cells m)).
    specialize (H ltac:(by apply elem_of_cells) ltac:(apply not_elem_of_empty)).
    lia. }
  assert (Hsmall_N : ∀ st, astar_inv st → ∀ v, v ∈ dom (Extension.g_cost st) →
            gval (Extension.g_cost st) v < Z.of_nat (length (cells m))).
  { intros st Hinv v Hv. pose proof (ai_small _ Hinv v Hv).
    pose proof (count_in_bounds (dom (Extension.g_cost st)) (cells m)). lia. }
  apply (while_rule Extension.astar_cond (Extension.astar_body m target)
           astar_inv astar_post astar_measure).
  - apply astar_measure_nonneg.
  - intros st Hinv Hcond. unfold Extension.astar_cond in Hcond.
    destruct (Extension.open_set st) as [|[f0 c] rest] eqn:Hopen; [done|].
    destruct (decide (c = target)) as [->|Hne].
    + unfold Extension.astar_body. rewrite Hopen. simpl.
      rewrite (bool_decide_eq_true_2 _ eq_refl).
      pose proof Hinv as [Hrange Htree Hheap Hpend Hsorted Hsmall].
      destruct (Hheap f0 target) as [HtV Hf0]; [rewrite Hopen; left|].
      unfold astar_post. cbn [Extension.g_cost Extension.parent].
      split; [done|]. split; [by apply (Hsmall_N st)|]. left. split; [done|].
      intros n Hr. destruct (astar_frontier st n target Hinv Hr)
        as [[_ ?]|(f & u & Hu & Hf)]; [done|].
      rewrite h_self in Hf. rewrite h_self in Hf0.
      assert (f0 ≤ f).
      { rewrite Hopen in Hu, Hsorted. destruct Hsorted as [Hmin _].
        apply elem_of_cons in Hu as [[= -> ->]|Hu]; [lia|].
        apply (item_le_fst (f0, target) (f, u)). by apply Hmin. }
      destruct Hf0 as [Hf0| ->]; [lia|].
      rewrite (tree_start_0 _ _ _ _ _ Htree). lia.
    + destruct (astar_body_step st f0 c rest Hinv Hopen Hne) as (st' & -> & Hinv' & Hlt).
      done.
  - intros st Hinv Hcond. unfold Extension.astar_cond in Hcond.
    destruct (Extension.open_set st) as [|[f0 c] rest] eqn:Hopen; [|done].
    split; [apply Hinv|]. split; [by apply Hsmall_N|].
    assert (Hall : ∀ n v, reach m start n v →
              v ∈ dom (Extension.g_cost st) ∧
              gval (Extension.g_cost st) v ≤ Z.of_nat n).
    { intros n v Hr. destruct (astar_frontier st n v Hinv Hr)
        as [?|(f & u & Hu & _)]; [done|].
      rewrite Hopen in Hu. by apply elem_of_nil in Hu. }
    destruct (decide (target ∈ dom (Extension.g_cost st))) as [HtV|HtV].
    + left. split; [done|]. intros n Hr. by apply Hall.
    + right. split; [done|]. intros n Hr. by apply HtV, (Hall n).
  - split; cbn [Extension.open_set Extension.g_cost Extension.parent heappush].
    + intros v. rewrite dom_singleton_L. by intros ->%elem_of_singleton.
    + rewrite dom_singleton_L. split.
      * by apply elem_of_singleton.
      * unfold gval. by rewrite lookup_singleton_eq.
      * intros v ->%elem_of_singleton. unfold gval.
        by rewrite lookup_singleton_eq.
      * by intros v ->%elem_of_singleton.
    + intros f v [= -> ->]%list_elem_of_singleton.
      rewrite dom_singleton_L. split; [by apply elem_of_singleton|by right].
    + intros v. rewrite dom_singleton_L. intros ->%elem_of_singleton.
      left. exists 0. split; [by apply list_elem_of_singleton|].
      cbn [Extension.g_cost]. unfold gval. rewrite lookup_singleton_eq. simpl.
      pose proof (h_nonneg start target). lia.
    + split; [|done]. intros b Hb. by apply elem_of_nil in Hb.
    + intros v. rewrite dom_singleton_L. intros ->%elem_of_singleton.
      unfold gval. by rewrite lookup_singleton_eq.
  - unfold astar_measure.
    cbn [Extension.open_set Extension.g_cost heappush length].
    pose proof (zsum_bounds (phi {[start := 0]}) (cells m)
                  (Z.of_nat (length (cells m)))) as Hb.
    destruct Hb as [_ Hb].
    { intros a _. unfold phi. destruct (decide (a = start)) as [->|Hne].
      - rewrite lookup_singleton_eq. lia.
      - rewrite lookup_singleton_ne by done. lia. }
    lia.
Qed.

(** The A-star [shortest_path] from an in-range start returns, within
    the fuel, a shortest path or the empty list when there is no
    path. *)
Lemma astar_shortest_path fuel :
  (search_fuel m ≤ fuel)%nat →
  ∃ p, Extension.shortest_path fuel m (Some start) (Some target) = Ok p ∧
       shortest_path_spec m start target p.
Proof.
  unfold search_fuel. intros Hfuel.
  destruct (astar_search fuel ltac:(lia)) as (st & Hrun & Htree & Hsmall & Hpost).
  unfold Extension.shortest_path. rewrite Hrun. simpl.
  destruct Hpost as [[HtV Hmin]|[HtV Hno]].
  - rewrite (bool_decide_eq_true_2 _ HtV). simpl.
    destruct (reconstruct_tree m start _ _ _ target fuel Htree HtV)
      as (p & -> & Hpath & Hlen).
    { specialize (Hsmall target HtV). nia. }
    exists p. split; [done|]. left. split; [done|].
    intros q Hq. apply path_reach in Hq as (n & Hn & Hr).
    specialize (Hmin n Hr). lia.
  - rewrite (bool_decide_eq_false_2 _ HtV). simpl.
    exists []. split; [done|]. right. split; [done|].
    intros q Hq. apply path_reach in Hq as (n & Hn & Hr). by apply (Hno n).
Qed.

End AStar.

(** ** PathSearch: the two strategies *)

Section PathSearch.

Implicit Types (m : Maze) (start goal : Cell) (p q : list Cell).

Lemma is_path_nonempty m start goal p : is_path m start goal p → p ≠ [].
Proof. by intros [Hh _] ->. Qed.

(** C1: from an in-range start, when a path to the goal exists, both
    [shortest_path] methods (breadth-first in the basic module, A-star
    in the extension module) return a sequence that begins at the
    start, ends at the goal, has every consecutive pair wall-free
    adjacent, and is no longer than any other such path. *)
Theorem shortest_path_minimal (m : Maze) (start goal : Cell) (fuel : nat) :
  in_range m start →
  (∃ q, is_path m start goal q) →
  (search_fuel m ≤ fuel)%nat →
  ∃ pb pa,
    Basic.shortest_path fuel m (Some start) (Some goal) = Ok pb ∧
    Extension.shortest_path fuel m (Some start) (Some goal) = Ok pa ∧
    is_path m start goal pb ∧
    is_path m start goal pa ∧
    ∀ q, is_path m start goal q →
         (length pb ≤ length q)%nat ∧ (length pa ≤ length q)%nat.
Proof.
  intros Hstart [q0 Hq0] Hfuel.
  destruct (bfs_shortest_path m start goal Hstart fuel) as (pb & Hb & Sb).
  { unfold search_fuel in Hfuel. nia. }
  destruct (astar_shortest_path m start goal Hstart fuel Hfuel) as (pa & Ha & Sa).
  destruct Sb as [[Hpb Hminb]|[_ Hno]]; [|by destruct (Hno q0)].
  destruct Sa as [[Hpa Hmina]|[_ Hno]]; [|by destruct (Hno q0)].
  exists pb, pa. do 4 (split; [done|]).
  intros q Hq. split; auto.
Qed.

(** C2: from an in-range start, for every goal, the breadth-first and
    the A-star [shortest_path] return sequences of the same length,
    and one is empty exactly when the other is; each is a shortest
    path, or empty when there is no path. *)
Theorem bfs_astar_agree (m : Maze) (start goal : Cell) (fuel : nat) :
  in_range m start →
  (search_fuel m ≤ fuel)%nat →
  ∃ pb pa,
    Basic.shortest_path fuel m (Some start) (Some goal) = Ok pb ∧
    Extension.shortest_path fuel m (Some start) (Some goal) = Ok pa ∧
    length pb = length pa ∧
    (pb = [] ↔ pa = []) ∧
    shortest_path_spec m start goal pb ∧
    shortest_path_spec m start goal pa.
Proof.
  intros Hstart Hfuel.
  destruct (bfs_shortest_path m start goal Hstart fuel) as (pb & Hb & Sb).
  { unfold search_fuel in Hfuel. nia. }
  destruct (astar_shortest_path m start goal Hstart fuel Hfuel) as (pa & Ha & Sa).
  exists pb, pa. repeat split; try done.
  - destruct Sb as [[Hpb Hminb]|[-> Hnob]], Sa as [[Hpa Hmina]|[-> Hnoa]].
    + specialize (Hminb pa Hpa). specialize (Hmina pb Hpb). lia.
    + by destruct (Hnoa pb).
    + by destruct (Hnob pa).
    + done.
  - intros ->. destruct Sa as [[Hpa _]|[-> _]]; [|done].
    destruct Sb as [[Hpb _]|[_ Hnob]]; [|by destruct (Hnob pa)].
    by apply is_path_nonempty in Hpb.
  - intros ->. destruct Sb as [[Hpb _]|[-> _]]; [|done].
    destruct Sa as [[Hpa _]|[_ Hnoa]]; [|by destruct (Hnoa pb)].
    by apply is_path_nonempty in Hpa.
Qed.

(** C8: from an in-range start, when no path leads to the goal, both
    [shortest_path] methods return the empty sequence; nothing is
    raised. *)
Theorem shortest_path_unreachable (m : Maze) (start goal : Cell) (fuel : nat) :
  in_range m start →
  (∀ q, ¬ is_path m start goal q) →
  (search_fuel m ≤ fuel)%nat →
  Basic.shortest_path fuel m (Some start) (Some goal) = Ok [] ∧
  Extension.shortest_path fuel m (Some start) (Some goal) = Ok [].
Proof.
  intros Hstart Hno Hfuel.
  destruct (bfs_shortest_path m start goal Hstart fuel) as (pb & Hb & Sb).
  { unfold search_fuel in Hfuel. nia. }
  destruct (astar_shortest_path m start goal Hstart fuel Hfuel) as (pa & Ha & Sa).
  destruct Sb as [[Hpb _]|[-> _]]; [by destruct (Hno pb)|].
  destruct Sa as [[Hpa _]|[-> _]]; [by destruct (Hno pa)|].
  done.
Qed.

(** *** The scenarios of the specification *)

(** The 3 x 3 grid without internal walls. *)
Definition open_grid : Maze := new_maze 3 3.

(** The same grid with a vertical wall between column 0 and column 1
    in every row. *)
Definition split_grid : Maze :=
  add_vertical_wall (add_vertical_wall (add_vertical_wall (new_maze 3 3) 0 1) 1 1) 2 1.

Example open_grid_bfs :
  Basic.shortest_path 83 open_grid (Some (0, 0)) (Some (2, 2))
  = Ok [(0, 0); (0, 1); (0, 2); (1, 2); (2, 2)].
Proof. vm_compute. reflexivity. Qed.

Example open_grid_astar :
  Extension.shortest_path 83 open_grid (Some (0, 0)) (Some (2, 2))
  = Ok [(0, 0); (0, 1); (0, 2); (1, 2); (2, 2)].
Proof. vm_compute. reflexivity. Qed.

Example open_grid_defaults :
  Basic.shortest_path 83 open_grid None None
  = Basic.shortest_path 83 open_grid (Some (0, 0)) (Some (2, 2)) ∧
  Extension.shortest_path 83 open_grid None None
  = Extension.shortest_path 83 open_grid (Some (0, 0)) (Some (2, 2)).
Proof. split; reflexivity. Qed.

Lemma open_grid_path :
  is_path open_grid (0, 0) (2, 2) [(0, 0); (1, 0); (2, 0); (2, 1); (2, 2)].
Proof. repeat split. Defined.

(** Nothing leaves column 0 of the split grid. *)
Lemma split_grid_column n c : reach split_grid (0, 0) n c → c.1 = 0.
Proof.
  intros Hr.
  assert (in_range split_grid c ∧ c.1 = 0) as [_ ?]; [|done].
  induction Hr as [|n c c' _ [Hc Hx] Hstep].
  - split; [|done]. unfold in_range. simpl. lia.
  - split; [by apply (open_step_in_range split_grid c)|].
    destruct c as [x y], Hc as [_ Hy]. simpl in *. subst x.
    apply open_step_neighbours in Hstep. simpl in Hstep.
    assert (y = 0 ∨ y = 1 ∨ y = 2) as [-> |[-> | ->]] by lia;
      vm_compute in Hstep;
      repeat (apply elem_of_cons in Hstep as [->|Hstep]; [done|]);
      by apply elem_of_nil in Hstep.
Qed.

Lemma split_grid_unreachable q : ¬ is_path split_grid (0, 0) (2, 2) q.
Proof.
  intros Hq. apply path_reach in Hq as (n & _ & Hr).
  by apply split_grid_column in Hr.
Defined.

Lemma shortest_path_minimal_witness :
  ∃ pb pa,
    Basic.shortest_path 83 open_grid (Some (0, 0)) (Some (2, 2)) = Ok pb ∧
    Extension.shortest_path 83 open_grid (Some (0, 0)) (Some (2, 2)) = Ok pa ∧
    is_path open_grid (0, 0) (2, 2) pb ∧
    is_path open_grid (0, 0) (2, 2) pa ∧
    ∀ q, is_path open_grid (0, 0) (2, 2) q →
         (length pb ≤ length q)%nat ∧ (length pa ≤ length q)%nat.
Proof.
  apply (shortest_path_minimal open_grid (0, 0) (2, 2) 83).
  - unfold in_range. simpl. lia.
  - exists [(0, 0); (1, 0); (2, 0); (2, 1); (2, 2)]. exact open_grid_path.
  - vm_compute. lia.
Defined.

Lemma bfs_astar_agree_witness :
  ∃ pb pa,
    Basic.shortest_path 83 split_grid (Some (0, 0)) (Some (0, 2)) = Ok pb ∧
    Extension.shortest_path 83 split_grid (Some (0, 0)) (Some (0, 2)) = Ok pa ∧
    length pb = length pa ∧
    (pb = [] ↔ pa = []) ∧
    shortest_path_spec split_grid (0, 0) (0, 2) pb ∧
    shortest_path_spec split_grid (0, 0) (0, 2) pa.
Proof.
  apply (bfs_astar_agree split_grid (0, 0) (0, 2) 83).
  - unfold in_range. simpl. lia.
  - vm_compute. lia.
Defined.

Lemma shortest_path_unreachable_witness :
  Basic.shortest_path 83 split_grid (Some (0, 0)) (Some (2, 2)) = Ok [] ∧
  Extension.shortest_path 83 split_grid (Some (0, 0)) (Some (2, 2)) = Ok [].
Proof.
  apply (shortest_path_unreachable split_grid (0, 0) (2, 2) 83).
  - unfold in_range. simpl. lia.
  - exact split_grid_unreachable.
  - vm_compute. lia.
Defined.

End PathSearch.

(** ** Searches started outside the grid *)

Section Fuel.

Context {St : Type}.

Implicit Types (cond : St → bool) (body : St → result (ctl St)).

(** A loop that has ended is not changed by more fuel. *)
Lemma while_fuel_mono cond body (fuel fuel' : nat) s s' :
  while fuel cond body s = Ok s' → (fuel ≤ fuel')%nat →
  while fuel' cond body s = Ok s'.
Proof.
  revert fuel' s. induction fuel as [|fuel IH]; intros fuel' s H Hle.
  - destruct fuel'; simpl in *; by destruct (cond s).
  - destruct fuel' as [|fuel']; [lia|]. simpl in *.
    destruct (cond s); [|done].
    destruct (body s) as [[s1|s1]| |]; try done. apply IH; [done|lia].
Qed.

(** A loop whose body keeps an invariant under which the condition
    holds, and never breaks, ends with no amount of fuel. *)
Lemma while_diverges (Inv : St → Prop) cond body :
  (∀ s, Inv s → cond s = true ∧ ∃ s', body s = Ok (Continue s') ∧ Inv s') →
  ∀ (fuel : nat) s, Inv s → while fuel cond body s = OutOfFuel.
Proof.
  intros Hstep fuel. induction fuel as [|fuel IH]; intros s Hs;
    destruct (Hstep s Hs) as (Hc & s' & Hb & Hs'); simpl; rewrite Hc; [done|].
  rewrite Hb. by apply IH.
Qed.

End Fuel.

Lemma reconstruct_fuel_mono (fuel fuel' : nat) par (start target : Cell) p :
  reconstruct fuel par start target = Ok p → (fuel ≤ fuel')%nat →
  reconstruct fuel' par start target = Ok p.
Proof.
  unfold reconstruct. intros H Hle.
  destruct (while fuel _ _ _) as [st| |] eqn:Hw; try done.
  by rewrite (while_fuel_mono _ _ _ _ _ _ Hw Hle).
Qed.

(** Once a search has returned, more fuel gives the same result. *)
Lemma basic_shortest_path_fuel_mono (fuel fuel' : nat) m starting goal p :
  Basic.shortest_path fuel m starting goal = Ok p → (fuel ≤ fuel')%nat →
  Basic.shortest_path fuel' m starting goal = Ok p.
Proof.
  unfold Basic.shortest_path. intros H Hle.
  destruct (while fuel _ _ _) as [st| |] eqn:Hw; try done.
  rewrite (while_fuel_mono _ _ _ _ _ _ Hw Hle). simpl in *.
  destruct (negb (Basic.found st)); [done|].
  by apply (reconstruct_fuel_mono fuel).
Qed.

Lemma extension_shortest_path_fuel_mono (fuel fuel' : nat) m starting goal p :
  Extension.shortest_path fuel m starting goal = Ok p → (fuel ≤ fuel')%nat →
  Extension.shortest_path fuel' m starting goal = Ok p.
Proof.
  unfold Extension.shortest_path. intros H Hle.
  destruct (while fuel _ _ _) as [st| |] eqn:Hw; try done.
  rewrite (while_fuel_mono _ _ _ _ _ _ Hw Hle). simpl in *.
  destruct (negb _); [done|].
  by apply (reconstruct_fuel_mono fuel).
Qed.

(** C2, as stated for every start, fails: in the 3 x 3 grid without
    internal walls, from (-2, 0) to (-3, 0), both outside the grid,
    the two cells are wall-free adjacent, the A-star search (unchecked
    neighbours) returns the two-cell path and the breadth-first search
    (bound-checked neighbours) returns the empty sequence. *)
Lemma bfs_astar_disagree_outside_grid :
  is_path open_grid (-2, 0) (-3, 0) [(-2, 0); (-3, 0)] ∧
  ∀ fuel : nat, (search_fuel open_grid ≤ fuel)%nat →
    Basic.shortest_path fuel open_grid (Some (-2, 0)) (Some (-3, 0)) = Ok [] ∧
    Extension.shortest_path fuel open_grid (Some (-2, 0)) (Some (-3, 0))
    = Ok [(-2, 0); (-3, 0)].
Proof.
  split; [done|]. intros fuel Hfuel.
  assert (83 ≤ fuel)%nat as Hle by (vm_compute in Hfuel; lia).
  split.
  - apply (basic_shortest_path_fuel_mono 83); [vm_compute; reflexivity|done].
  - apply (extension_shortest_path_fuel_mono 83); [vm_compute; reflexivity|done].
Qed.

Section OutsideGrid.

Implicit Types (st : Extension.astar_state) (c n current : Cell).

(** In the grid without internal walls a step keeps the row between
    the bottom and the top wall, wherever the column is. *)
Lemma open_grid_band c (c' : Cell) :
  open_step open_grid c c' = true → 0 ≤ c.2 ≤ 2 → 0 ≤ c'.2 ≤ 2.
Proof.
  intros Hs Hb. apply open_step_neighbours, elem_of_ext_neighbours in Hs.
  rewrite get_walls_north, get_walls_south in Hs.
  destruct Hs as [[E ->]|[[_ ->]|[[E ->]|[_ ->]]]]; cbn [fst snd]; try lia;
    apply orb_false_iff in E as [_ E]; apply bool_decide_eq_false in E;
    cbn in E; lia.
Qed.

Lemma open_grid_band_neighbours c n :
  n ∈ Extension._get_neighbours open_grid c.1 c.2 → 0 ≤ c.2 ≤ 2 → 0 ≤ n.2 ≤ 2.
Proof. intros Hn. apply open_grid_band. by apply open_step_neighbours. Qed.

(** West of the grid nothing stops a step further west. *)
Lemma open_grid_west c :
  c.1 ≤ -1 → (c.1 - 1, c.2) ∈ Extension._get_neighbours open_grid c.1 c.2.
Proof.
  intros Hc. apply elem_of_ext_neighbours. do 3 right. split; [|done].
  rewrite get_walls_west. apply orb_false_iff.
  split; apply bool_decide_eq_false; [set_solver|lia].
Qed.

Lemma open_grid_band_reach (s : Cell) (k : nat) c :
  reach open_grid s k c → 0 ≤ s.2 ≤ 2 → 0 ≤ c.2 ≤ 2.
Proof. induction 1; eauto using open_grid_band. Qed.

(** Every item of the heap is a cell with a cost, in the band. *)
Definition heap_in st : Prop :=
  ∀ f c, (f, c) ∈ Extension.open_set st →
         c ∈ dom (Extension.g_cost st) ∧ 0 ≤ c.2 ≤ 2.

(** No cell with a cost lies further west than [c], itself west of
    the grid. *)
Definition leftmost (g : gmap Cell Z) c : Prop :=
  c.1 ≤ -1 ∧ ∀ c', c' ∈ dom g → c.1 ≤ c'.1.

Definition frontier st : Prop :=
  ∃ f c, (f, c) ∈ Extension.open_set st ∧ leftmost (Extension.g_cost st) c.

Lemma dom_insert_cases (g : gmap Cell Z) (a : Cell) (v : Z) (c' : Cell) :
  c' ∈ dom (<[a := v]> g) → c' = a ∨ c' ∈ dom g.
Proof. rewrite dom_insert_L, elem_of_union, elem_of_singleton. tauto. Qed.

Lemma relax_loop target current (l : list Cell) :
  ∀ st,
    heap_in st → current ∈ dom (Extension.g_cost st) →
    (∀ n, n ∈ l → 0 ≤ n.2 ≤ 2) →
    frontier st ∨
      (leftmost (Extension.g_cost st) current ∧ (current.1 - 1, current.2) ∈ l) →
    ∃ st', for_in l (Extension.relax target current) st = Ok st' ∧
           heap_in st' ∧ frontier st'.
Proof.
  induction l as [|a l IH]; intros st Hh Hc Hb Hf.
  - simpl. destruct Hf as [Hf|[_ Hw]]; [eauto|by apply elem_of_nil in Hw].
  - cbn [for_in].
    pose proof Hc as Hc'. apply elem_of_dom in Hc' as [gc Hgc].
    assert (∀ n, n ∈ l → 0 ≤ n.2 ≤ 2) as Hbl.
    { intros n Hn. apply Hb. by right. }
    assert (Extension.relax target current st a
            = if match Extension.g_cost st !! a with
                 | Some g_neighbour => bool_decide (gc + 1 < g_neighbour)
                 | None => true
                 end
              then Ok (Extension.mkAstar
                         (heappush (Extension.open_set st)
                                   (gc + 1 + Extension.h a target, a))
                         (<[a := gc + 1]> (Extension.g_cost st))
                         (<[a := current]> (Extension.parent st)))
              else Ok st) as ->.
    { unfold Extension.relax. by rewrite Hgc. }
    destruct (match Extension.g_cost st !! a with
              | Some g_neighbour => bool_decide (gc + 1 < g_neighbour)
              | None => true
              end) eqn:Hupd; cbn [mbind result_bind].
    + apply IH; unfold heap_in, frontier, leftmost;
        cbn [Extension.open_set Extension.g_cost]; [| |done|].
      * intros f c [[= -> ->]|Hin]%elem_of_heappush.
        -- split; [set_solver|]. apply Hb. by left.
        -- destruct (Hh f c Hin). split; [set_solver|done].
      * set_solver.
      * destruct Hf as [(f & c & Hin & Hc1 & Hmin)|[[Hc1 Hmin] Hw]].
        -- left. destruct (decide (a.1 < c.1)) as [Hlt|Hge].
           ++ exists (gc + 1 + Extension.h a target), a. split.
              { apply elem_of_heappush. by left. }
              split; [lia|]. intros c' [->|Hd]%dom_insert_cases;
                [lia|]. specialize (Hmin c' Hd). lia.
           ++ exists f, c. split.
              { apply elem_of_heappush. by right. }
              split; [done|]. intros c' [->|Hd]%dom_insert_cases;
                [lia|]. by apply Hmin.
        -- destruct (decide (a.1 < current.1)) as [Hlt|Hge].
           ++ left. exists (gc + 1 + Extension.h a target), a. split.
              { apply elem_of_heappush. by left. }
              split; [lia|]. intros c' [->|Hd]%dom_insert_cases;
                [lia|]. specialize (Hmin c' Hd). lia.
           ++ right. split.
              { split; [done|].
                intros c' [->|Hd]%dom_insert_cases;
                  [lia|]. by apply Hmin. }
              apply elem_of_cons in Hw as [Hw|Hw]; [|done].
              subst a. cbn [fst] in Hge. lia.
    + apply IH; [done|done|done|].
      destruct Hf as [Hf|[[Hc1 Hmin] Hw]]; [by left|]. right. split; [done|].
      apply elem_of_cons in Hw as [Hw|Hw]; [|done].
      destruct (Extension.g_cost st !! a) as [ga|] eqn:Hga; [|done].
      assert (a ∈ dom (Extension.g_cost st)) as Hd by (apply elem_of_dom; eauto).
      specialize (Hmin a Hd). subst a. cbn [fst] in Hmin. lia.
Qed.

(** One iteration of the A-star loop towards a goal outside the band:
    the heap is not empty before and not empty after. *)
Lemma astar_keeps_running target st :
  ¬ (0 ≤ target.2 ≤ 2) →
  heap_in st ∧ frontier st →
  Extension.astar_cond st = true ∧
  ∃ st', Extension.astar_body open_grid target st = Ok (Continue st') ∧
         heap_in st' ∧ frontier st'.
Proof.
  intros Ht [Hh (f & c & Hin & Hleft)].
  destruct st as [heap g par]. cbn [Extension.open_set Extension.g_cost] in *.
  destruct heap as [|[f0 current] heap]; [by apply elem_of_nil in Hin|].
  split; [done|]. unfold Extension.astar_body. cbn [Extension.open_set heappop].
  cbn [mbind result_bind Extension.g_cost Extension.parent].
  destruct (Hh f0 current ltac:(by left)) as [Hd Hb].
  rewrite bool_decide_eq_false_2 by (by intros ->).
  destruct current as [cx cy].
  destruct (relax_loop target (cx, cy) (Extension._get_neighbours open_grid cx cy)
              (Extension.mkAstar heap g par)) as (st' & Hst' & Hh' & Hf').
  - intros f1 c1 Hin1. apply (Hh f1 c1). by right.
  - done.
  - intros n Hn. by apply (open_grid_band_neighbours (cx, cy)).
  - apply elem_of_cons in Hin as [[= -> ->]|Hin].
    + right. split; [done|]. apply (open_grid_west (cx, cy)). by destruct Hleft.
    + left. by exists f, c.
  - rewrite Hst'. eauto.
Qed.

End OutsideGrid.

(** C8, as stated for every start, fails: in the 3 x 3 grid without
    internal walls no path leads from (-1, 0), west of the grid, to
    (5, 5); the breadth-first search returns the empty sequence, but
    the A-star search keeps stepping west and never returns: whatever
    the number of iterations allowed, its loop has not ended. *)
Lemma astar_runs_forever_outside_grid :
  (∀ q, ¬ is_path open_grid (-1, 0) (5, 5) q) ∧
  (∀ fuel : nat, (search_fuel open_grid ≤ fuel)%nat →
     Basic.shortest_path fuel open_grid (Some (-1, 0)) (Some (5, 5)) = Ok []) ∧
  (∀ fuel : nat,
     Extension.shortest_path fuel open_grid (Some (-1, 0)) (Some (5, 5)) = OutOfFuel).
Proof.
  split; [|split].
  - intros q (n & _ & Hr)%path_reach.
    apply open_grid_band_reach in Hr; cbn [snd] in *; lia.
  - intros fuel Hfuel.
    apply (basic_shortest_path_fuel_mono 83); [vm_compute; reflexivity|].
    vm_compute in Hfuel. lia.
  - intros fuel. unfold Extension.shortest_path.
    rewrite (while_diverges (λ st, heap_in st ∧ frontier st)); [done| |].
    + intros st. apply astar_keeps_running. cbn [snd]. lia.
    + split.
      * intros f c Hin. cbn [Extension.open_set heappush] in Hin.
        apply list_elem_of_singleton in Hin. injection Hin as -> ->.
        cbn [Extension.g_cost snd]. rewrite dom_singleton_L.
        split; [by apply elem_of_singleton|lia].
      * exists 0, (-1, 0). split; [by left|]. split; [done|].
        cbn [Extension.g_cost]. rewrite dom_singleton_L.
        by intros c' ->%elem_of_singleton.
Qed.

(** ** More on the wall grid *)

Section WallGridMore.

Implicit Types (m : Maze) (x y line : Z) (c : Cell).

(** X1: a wall added with [add_horizontal_wall x line] is the north
    wall of [(x, line - 1)] and the south wall of [(x, line)]. *)
Theorem add_horizontal_wall_both_sides m x line :
  north_wall (Extension.get_walls (add_horizontal_wall m x line) x (line - 1)) = true ∧
  south_wall (Extension.get_walls (add_horizontal_wall m x line) x line) = true.
Proof.
  rewrite get_walls_north, get_walls_south. simpl.
  replace (line - 1 + 1) with line by lia.
  rewrite (bool_decide_eq_true_2 ((x, line) ∈ _)) by set_solver. done.
Qed.

(** X2: a wall added with [add_vertical_wall y line] is the east wall
    of [(line - 1, y)] and the west wall of [(line, y)]. *)
Theorem add_vertical_wall_both_sides m y line :
  east_wall (Extension.get_walls (add_vertical_wall m y line) (line - 1) y) = true ∧
  west_wall (Extension.get_walls (add_vertical_wall m y line) line y) = true.
Proof.
  rewrite get_walls_east, get_walls_west. simpl.
  replace (line - 1 + 1) with line by lia.
  rewrite (bool_decide_eq_true_2 ((y, line) ∈ _)) by set_solver. done.
Qed.

(** X3: adding a horizontal wall changes nothing but the north wall of
    the cell below the line and the south wall of the cell above it:
    east and west walls are the same everywhere, and the north and
    south walls of every other cell are the same. *)
Theorem add_horizontal_wall_frame m x line x' y' :
  let m' := add_horizontal_wall m x line in
  east_wall (Extension.get_walls m' x' y') = east_wall (Extension.get_walls m x' y') ∧
  west_wall (Extension.get_walls m' x' y') = west_wall (Extension.get_walls m x' y') ∧
  ((x', y') ≠ (x, line - 1) →
     north_wall (Extension.get_walls m' x' y') = north_wall (Extension.get_walls m x' y')) ∧
  ((x', y') ≠ (x, line) →
     south_wall (Extension.get_walls m' x' y') = south_wall (Extension.get_walls m x' y')).
Proof.
  intros m'. rewrite !get_walls_east, !get_walls_west, !get_walls_north,
    !get_walls_south. simpl.
  split; [done|]. split; [done|]. split; intros Hne; f_equal;
    apply bool_decide_ext; rewrite elem_of_union, elem_of_singleton;
    split; auto; intros [[= -> ?]|?]; auto; exfalso; apply Hne; f_equal; lia.
Qed.

Lemma add_horizontal_wall_frame_witness :
  north_wall (Extension.get_walls (add_horizontal_wall (new_maze 3 3) 1 1) 0 0)
  = north_wall (Extension.get_walls (new_maze 3 3) 0 0).
Proof.
  apply (add_horizontal_wall_frame (new_maze 3 3) 1 1 0 0). done.
Defined.

(** X4: a wall that is there stays there when another is added,
    whichever kind is added. *)
Theorem add_wall_monotone m a b x y i :
  walls_get (Extension.get_walls m x y) i = true →
  walls_get (Extension.get_walls (add_horizontal_wall m a b) x y) i = true ∧
  walls_get (Extension.get_walls (add_vertical_wall m a b) x y) i = true.
Proof.
  unfold walls_get, Extension.get_walls. simpl. intros H.
  split; repeat case_bool_decide; try done; set_solver.
Qed.

Lemma add_wall_monotone_witness :
  walls_get (Extension.get_walls (add_horizontal_wall (new_maze 3 3) 1 1) 0 0) 2 = true ∧
  walls_get (Extension.get_walls (add_vertical_wall (new_maze 3 3) 1 1) 0 0) 2 = true.
Proof.
  apply (add_wall_monotone (new_maze 3 3) 1 1 0 0 2). reflexivity.
Defined.

(** X5: adding the same wall twice is adding it once, and walls can be
    added in any order. *)
Theorem add_wall_idempotent_commutative m a b a' b' :
  add_horizontal_wall (add_horizontal_wall m a b) a b = add_horizontal_wall m a b ∧
  add_vertical_wall (add_vertical_wall m a b) a b = add_vertical_wall m a b ∧
  add_horizontal_wall (add_horizontal_wall m a b) a' b'
  = add_horizontal_wall (add_horizontal_wall m a' b') a b ∧
  add_vertical_wall (add_vertical_wall m a b) a' b'
  = add_vertical_wall (add_vertical_wall m a' b') a b ∧
  add_vertical_wall (add_horizontal_wall m a b) a' b'
  = add_horizontal_wall (add_vertical_wall m a' b') a b.
Proof.
  unfold add_horizontal_wall, add_vertical_wall. simpl.
  repeat split; f_equal; set_solver.
Qed.

End WallGridMore.

(** ** Adjacency *)

Section Adjacency.

Implicit Types (m : Maze) (c : Cell).

Lemma open_step_sym m c (c' : Cell) :
  in_range m c → open_step m c c' = true → open_step m c' c = true.
Proof.
  destruct c as [x y]. intros [Hx Hy] Hstep. cbn [fst snd] in Hx, Hy.
  apply open_step_neighbours, elem_of_ext_neighbours in Hstep.
  apply open_step_neighbours, elem_of_ext_neighbours.
  cbn [fst snd] in Hstep.
  rewrite get_walls_north, get_walls_east, get_walls_south, get_walls_west in Hstep.
  destruct Hstep as [[E ->]|[[E ->]|[[E ->]|[E ->]]]]; cbn [fst snd];
    apply orb_false_iff in E as [E1 E2];
    apply bool_decide_eq_false in E1, E2.
  - right; right; left. rewrite get_walls_south.
    replace (y + 1 - 1) with y by lia. split; [|done].
    apply orb_false_iff. split; apply bool_decide_eq_false; [done|lia].
  - right; right; right. rewrite get_walls_west.
    replace (x + 1 - 1) with x by lia. split; [|done].
    apply orb_false_iff. split; apply bool_decide_eq_false; [done|lia].
  - left. rewrite get_walls_north.
    replace (y - 1 + 1) with y by lia. split; [|done].
    apply orb_false_iff. split; apply bool_decide_eq_false; [done|lia].
  - right; left. rewrite get_walls_east.
    replace (x - 1 + 1) with x by lia. split; [|done].
    apply orb_false_iff. split; apply bool_decide_eq_false; [done|lia].
Qed.

(** X6: walls are undirected: if one can step from a cell of the grid
    to a neighbour, the neighbour is a cell of the grid too and one
    can step back. *)
Theorem open_step_symmetric m c (c' : Cell) :
  in_range m c → open_step m c c' = true →
  in_range m c' ∧ open_step m c' c = true.
Proof.
  intros Hc Hs. split; [by apply (open_step_in_range m c)|by apply open_step_sym].
Qed.

Lemma open_step_symmetric_witness :
  in_range (new_maze 3 3) (0, 1) ∧ open_step (new_maze 3 3) (0, 1) (0, 0) = true.
Proof.
  apply (open_step_symmetric (new_maze 3 3) (0, 0) (0, 1)).
  - unfold in_range. simpl. lia.
  - reflexivity.
Defined.

Lemma neighbours_manhattan m x y (c' : Cell) :
  c' ∈ Extension._get_neighbours m x y → manhattan (x, y) c' = 1.
Proof.
  intros H. apply elem_of_ext_neighbours in H.
  destruct H as [[_ ->]|[[_ ->]|[[_ ->]|[_ ->]]]]; unfold manhattan; simpl; lia.
Qed.

(** X7: the neighbours listed for a cell are pairwise distinct, at
    most four, each exactly one cell away, and never the cell itself;
    this holds for both enumerations and for any cell, in range or
    not. *)
Theorem get_neighbours_distinct m x y :
  NoDup (Extension._get_neighbours m x y) ∧
  (length (Extension._get_neighbours m x y) ≤ 4)%nat ∧
  Forall (λ c, manhattan (x, y) c = 1) (Extension._get_neighbours m x y) ∧
  NoDup (Basic._get_neighbours m x y) ∧
  Basic._get_neighbours m x y ⊆ Extension._get_neighbours m x y.
Proof.
  unfold Basic._get_neighbours, Extension._get_neighbours.
  change (Basic.get_walls m x y) with (Extension.get_walls m x y).
  destruct (Extension.get_walls m x y) as [[[n e] s] w].
  split; [|split; [|split; [|split]]].
  - destruct n, e, s, w; simpl;
      repeat first
        [ apply NoDup_nil_2
        | apply NoDup_cons; split;
          [ rewrite ?elem_of_cons, ?elem_of_nil; intros HH;
            intuition (try congruence; simplify_eq; lia) | ] ].
  - destruct n, e, s, w; simpl; lia.
  - destruct n, e, s, w; simpl;
      repeat first
        [ apply Forall_nil_2
        | apply Forall_cons; split; [unfold manhattan; simpl; lia|] ].
  - destruct n, e, s, w; simpl; repeat case_bool_decide; simpl;
      repeat first
        [ apply NoDup_nil_2
        | apply NoDup_cons; split;
          [ rewrite ?elem_of_cons, ?elem_of_nil; intros HH;
            intuition (try congruence; simplify_eq; lia) | ] ].
  - destruct n, e, s, w; simpl; repeat case_bool_decide; simpl;
      intros c; rewrite ?elem_of_cons, ?elem_of_nil; tauto.
Qed.

End Adjacency.

(** ** More on the runner *)

(** The runner where it stands, facing the other way. *)
Definition flip (r : Runner) : Runner :=
  create_runner (get_x r) (get_y r) (opposite (get_orientation r)).

(** The wall behind the runner: the one in front of it once flipped. *)
Definition back_wall (m : Maze) (r : Runner) : bool :=
  front_of (Extension.sense_walls m (flip r)).

(** The positions recorded in an exploration log. *)
Definition log_cells (log : list LogEntry) : list Cell :=
  map (λ e : LogEntry, (e.1.1, e.1.2)) log.

Section RunnerMore.

Implicit Types (m : Maze) (r t : Runner).

(** X8: a left turn undoes a right turn and a right turn a left one,
    and four turns the same way bring the runner back; this holds for
    [_turn] of the maze classes and for [turn] of [runner.py]. *)
Theorem turn_round_trips r :
  (t ← Extension._turn r "Left"; Extension._turn t "Right") = Ok r ∧
  (t ← Extension._turn r "Right"; Extension._turn t "Left") = Ok r ∧
  (a ← Extension._turn r "Left"; b ← Extension._turn a "Left";
   c ← Extension._turn b "Left"; Extension._turn c "Left") = Ok r ∧
  (a ← Extension._turn r "Right"; b ← Extension._turn a "Right";
   c ← Extension._turn b "Right"; Extension._turn c "Right") = Ok r ∧
  (t ← turn r "Left"; turn t "Right") = Ok r ∧
  (t ← turn r "Right"; turn t "Left") = Ok r ∧
  (a ← turn r "Left"; b ← turn a "Left"; c ← turn b "Left"; turn c "Left") = Ok r ∧
  (a ← turn r "Right"; b ← turn a "Right"; c ← turn b "Right"; turn c "Right") = Ok r.
Proof. destruct r as [x y []]; repeat split; reflexivity. Qed.

(** X9: what the runner senses after a turn is what it sensed before,
    shifted: after a left turn the front is the old left and the right
    is the old front, after a right turn the front is the old right
    and the left is the old front; two turns swap left and right and
    put the wall behind in front. *)
Theorem sense_walls_after_turn m r :
  let s := Extension.sense_walls m r in
  (∀ t, Extension._turn r "Left" = Ok t →
     front_of (Extension.sense_walls m t) = left_of s ∧
     right_of (Extension.sense_walls m t) = front_of s ∧
     left_of (Extension.sense_walls m t) = back_wall m r) ∧
  (∀ t, Extension._turn r "Right" = Ok t →
     front_of (Extension.sense_walls m t) = right_of s ∧
     left_of (Extension.sense_walls m t) = front_of s ∧
     right_of (Extension.sense_walls m t) = back_wall m r) ∧
  (∀ t, (a ← Extension._turn r "Left"; Extension._turn a "Left") = Ok t →
     t = flip r ∧
     left_of (Extension.sense_walls m t) = right_of s ∧
     right_of (Extension.sense_walls m t) = left_of s ∧
     front_of (Extension.sense_walls m t) = back_wall m r).
Proof.
  intros s. subst s. split; [|split]; intros t Ht.
  - rewrite turn_left_ok in Ht. injection Ht as <-.
    by destruct r as [x y []].
  - rewrite turn_right_ok in Ht. injection Ht as <-.
    by destruct r as [x y []].
  - rewrite turn_left_ok in Ht. simpl in Ht. rewrite turn_left_ok in Ht.
    injection Ht as <-. by destruct r as [x y []].
Qed.

Lemma sense_walls_after_turn_witness :
  front_of (Extension.sense_walls (new_maze 3 3) (create_runner 0 0 West))
  = left_of (Extension.sense_walls (new_maze 3 3) (create_runner 0 0 North)).
Proof.
  destruct (sense_walls_after_turn (new_maze 3 3) (create_runner 0 0 North))
    as [Hleft _].
  apply (Hleft (create_runner 0 0 West)). reflexivity.
Defined.

(** No wall in front means an open step to the cell ahead. *)
Lemma front_open_step m t :
  front_of (Extension.sense_walls m t) = false →
  open_step m (position t) (position (forward t)) = true.
Proof.
  intros Hf. apply open_step_neighbours, elem_of_ext_neighbours.
  destruct t as [x y o]. unfold position, forward. cbn [fst snd get_x get_y].
  destruct o; simpl in Hf |- *.
  - left. split; [done|]. f_equal; lia.
  - right; left. split; [done|]. f_equal; lia.
  - right; right; left. split; [done|]. f_equal; lia.
  - right; right; right. split; [done|]. f_equal; lia.
Qed.

Lemma open_step_front m t :
  open_step m (position t) (position (forward t)) = true →
  front_of (Extension.sense_walls m t) = false.
Proof.
  intros Hs. apply open_step_neighbours, elem_of_ext_neighbours in Hs.
  destruct t as [x y o]. unfold position, forward in Hs.
  cbn [fst snd get_x get_y] in Hs.
  destruct o; simpl in Hs |- *;
    destruct Hs as [[E H]|[[E H]|[[E H]|[E H]]]]; try done;
    injection H; lia.
Qed.

Lemma flip_forward_back t : forward (flip (forward t)) = flip t.
Proof. destruct t as [x y []]; unfold forward, flip; simpl; f_equal; lia. Qed.

Lemma backward_flip r : backward r = forward (flip r).
Proof. destruct r as [x y []]; unfold backward, forward, flip; simpl; f_equal; lia. Qed.

(** Stepping ahead through an absent wall from a cell of the grid:
    the cell reached is in the grid and the way back is open. *)
Lemma forward_through_open m t :
  in_range m (position t) → front_of (Extension.sense_walls m t) = false →
  open_step m (position t) (position (forward t)) = true ∧
  in_range m (position (forward t)) ∧
  back_wall m (forward t) = false.
Proof.
  intros Hr Hf. pose proof (front_open_step m t Hf) as Hs.
  split; [done|]. split; [by apply (open_step_in_range m (position t))|].
  unfold back_wall. apply open_step_front. rewrite flip_forward_back.
  apply (open_step_sym m (position t)); [done|].
  by destruct t.
Qed.

(** X10: a forward step that succeeds from a cell of the grid ends on
    a cell of the grid, wall-free adjacent to the one left, with no
    wall behind the runner. *)
Theorem go_straight_stays_in_grid m r r' :
  in_range m (position r) →
  Extension.go_straight m r = Ok r' →
  open_step m (position r) (position r') = true ∧
  in_range m (position r') ∧
  get_orientation r' = get_orientation r ∧
  back_wall m r' = false.
Proof.
  intros Hr Hgo.
  destruct (front_of (Extension.sense_walls m r)) eqn:Hf.
  - by rewrite (go_straight_blocked m r Hf) in Hgo.
  - rewrite (go_straight_open m r Hf) in Hgo. injection Hgo as <-.
    destruct (forward_through_open m r Hr Hf) as (? & ? & ?).
    do 2 (split; [done|]). split; [|done]. by destruct r as [x y []].
Qed.

Lemma go_straight_stays_in_grid_witness :
  open_step (new_maze 3 3) (0, 0) (0, 1) = true ∧
  in_range (new_maze 3 3) (0, 1) ∧
  North = North ∧
  back_wall (new_maze 3 3) (create_runner 0 1 North) = false.
Proof.
  apply (go_straight_stays_in_grid (new_maze 3 3) (create_runner 0 0 North)
           (create_runner 0 1 North)).
  - unfold in_range. simpl. lia.
  - reflexivity.
Defined.

End RunnerMore.

(** ** More on the explorer *)

Section ExplorerMore.

Implicit Types (m : Maze) (r t : Runner) (goal : Cell) (log : list LogEntry).

(** The runner can leave its cell without crossing a wall. *)
Definition can_move m r : Prop :=
  Extension.sense_walls m r ≠ (true, true, true) ∨ back_wall m r = false.

(** Whatever [move] does, it is a forward step of a runner standing on
    the same cell: the runner turned left, as it is, turned right, or
    flipped; flipped only when walled in on three sides. *)
Lemma move_is_forward m r :
  ∃ t, position t = position r ∧ (move_spec m r).1 = forward t ∧
       (front_of (Extension.sense_walls m t) = false
        ∨ (Extension.sense_walls m r = (true, true, true) ∧ t = flip r ∧
           (move_spec m r).2 = "B"%string)) ∧
       (Extension.sense_walls m r ≠ (true, true, true) →
        (move_spec m r).2 ≠ "B"%string).
Proof.
  unfold move_spec.
  pose proof (sense_after_left m r) as Hl.
  pose proof (sense_after_right m r) as Hr.
  pose proof (eq_refl (front_of (Extension.sense_walls m r))) as Hf.
  destruct (Extension.sense_walls m r) as [[l f] rt] eqn:Hs.
  unfold left_of, right_of in Hl, Hr. unfold front_of at 1 in Hf.
  cbn [fst snd] in Hl, Hr, Hf.
  destruct l, f, rt; simpl.
  - exists (flip r). rewrite backward_flip.
    split; [done|]. split; [done|]. split; [by right|by intros ?].
  - exists (create_runner (get_x r) (get_y r) (rotate_right (get_orientation r))).
    split; [done|]. split; [done|]. split; [by left|done].
  - exists r. split; [done|]. split; [done|]. split; [left; by rewrite Hs|done].
  - exists r. split; [done|]. split; [done|]. split; [left; by rewrite Hs|done].
  - exists (create_runner (get_x r) (get_y r) (rotate_left (get_orientation r))).
    split; [done|]. split; [done|]. split; [by left|done].
  - exists (create_runner (get_x r) (get_y r) (rotate_left (get_orientation r))).
    split; [done|]. split; [done|]. split; [by left|done].
  - exists (create_runner (get_x r) (get_y r) (rotate_left (get_orientation r))).
    split; [done|]. split; [done|]. split; [by left|done].
  - exists (create_runner (get_x r) (get_y r) (rotate_left (get_orientation r))).
    split; [done|]. split; [done|]. split; [by left|done].
Qed.

Lemma move_open m r :
  in_range m (position r) → can_move m r →
  open_step m (position r) (position (move_spec m r).1) = true ∧
  in_range m (position (move_spec m r).1) ∧
  back_wall m (move_spec m r).1 = false.
Proof.
  intros Hr Hcan.
  destruct (move_is_forward m r) as (t & Ht & -> & Hopen & _).
  rewrite <- Ht in Hr |- *. apply forward_through_open; [done|].
  destruct Hopen as [?|(Hs & -> & _)]; [done|].
  destruct Hcan as [?|?]; done.
Qed.

(** X11: with an open side to its left, front or right, a runner on a
    cell of the grid is moved by [move] to a wall-free adjacent cell of
    the grid, never backward, and no wall stands behind it there. *)
Theorem move_through_open_side m r :
  in_range m (position r) →
  Extension.sense_walls m r ≠ (true, true, true) →
  ∃ r' a, Extension.move m r = Ok (r', a) ∧
          a ≠ "B"%string ∧
          open_step m (position r) (position r') = true ∧
          in_range m (position r') ∧
          back_wall m r' = false.
Proof.
  intros Hr Hs. exists (move_spec m r).1, (move_spec m r).2.
  rewrite move_ok. split; [by destruct (move_spec m r)|].
  split.
  { destruct (move_is_forward m r) as (t & _ & _ & _ & Hb). by apply Hb. }
  apply move_open; [done|by left].
Qed.

Lemma move_through_open_side_witness :
  ∃ r' a, Extension.move (new_maze 2 1) (create_runner 0 0 North) = Ok (r', a) ∧
          a ≠ "B"%string ∧
          open_step (new_maze 2 1) (0, 0) (position r') = true ∧
          in_range (new_maze 2 1) (position r') ∧
          back_wall (new_maze 2 1) r' = false.
Proof.
  apply (move_through_open_side (new_maze 2 1) (create_runner 0 0 North)).
  - unfold in_range. simpl. lia.
  - vm_compute. congruence.
Defined.

(** X12: a runner that stepped forward into a dead end is brought
    back by the next [move] to the cell it came from, facing the other
    way. *)
Theorem dead_end_bounce m r r1 :
  Extension.go_straight m r = Ok r1 →
  Extension.sense_walls m r1 = (true, true, true) →
  Extension.move m r1 = Ok (flip r, "B"%string).
Proof.
  intros Hgo Hs.
  destruct (front_of (Extension.sense_walls m r)) eqn:Hf.
  - by rewrite (go_straight_blocked m r Hf) in Hgo.
  - rewrite (go_straight_open m r Hf) in Hgo. injection Hgo as <-.
    rewrite move_ok. unfold move_spec. rewrite Hs. simpl.
    by rewrite backward_flip, flip_forward_back.
Qed.

Lemma dead_end_bounce_witness :
  Extension.move (new_maze 1 2) (create_runner 0 1 North)
  = Ok (flip (create_runner 0 0 North), "B"%string).
Proof.
  apply (dead_end_bounce (new_maze 1 2) (create_runner 0 0 North)
           (create_runner 0 1 North)); reflexivity.
Defined.

(** X13: [explore] never raises, whatever the maze, the runner and the
    goal: it returns a log or is still running when the fuel is
    spent; the two classes run the same exploration. *)
Theorem explore_never_raises fuel m r (goal : option Cell) :
  (Extension.explore fuel m r goal = OutOfFuel ∨
   ∃ log, Extension.explore fuel m r goal = Ok log) ∧
  Basic.explore fuel m r goal = Extension.explore fuel m r goal.
Proof.
  split; [|reflexivity].
  set (g := match goal with None => (width m - 1, height m - 1) | Some g => g end).
  assert (Extension.explore fuel m r goal = Extension.explore fuel m r (Some g))
    as -> by (by destruct goal).
  revert r. induction fuel as [|fuel IH]; intros r.
  - destruct (decide ((get_x r, get_y r) = g)) as [Hg|Hg].
    + right. exists []. by apply explore_at_goal.
    + left. unfold Extension.explore. simpl.
      unfold Extension.explore_cond. simpl.
      by rewrite (bool_decide_eq_false_2 _ Hg).
  - destruct (decide ((get_x r, get_y r) = g)) as [Hg|Hg].
    + right. exists []. by apply explore_at_goal.
    + rewrite (explore_step fuel m r g Hg).
      destruct (IH (move_spec m r).1) as [->|[log ->]]; simpl; eauto.
Qed.

Lemma manhattan_forward t : manhattan (position t) (position (forward t)) = 1.
Proof. destruct t as [x y []]; unfold manhattan, position, forward; simpl; lia. Qed.

Lemma manhattan_triangle (a b c : Cell) :
  manhattan a c ≤ manhattan a b + manhattan b c.
Proof. unfold manhattan. lia. Qed.

(** X14: the log [explore] returns is empty exactly when the runner
    starts on the goal; it has at most as many entries as iterations
    were allowed and at least as many as the Manhattan distance from
    start to goal; and its first entry, if any, is the start. *)
Theorem explore_log_bounds fuel m r goal log :
  Extension.explore fuel m r (Some goal) = Ok log →
  (log = [] ↔ position r = goal) ∧
  (length log ≤ fuel)%nat ∧
  manhattan (position r) goal ≤ Z.of_nat (length log) ∧
  head (log_cells log ++ [goal]) = Some (position r).
Proof.
  revert r log. induction fuel as [|fuel IH]; intros r log Hlog.
  - destruct (decide ((get_x r, get_y r) = goal)) as [Hg|Hg].
    + rewrite (explore_at_goal _ _ _ _ Hg) in Hlog. injection Hlog as <-.
      unfold position. rewrite Hg. simpl. unfold manhattan.
      repeat split; (done || lia).
    + unfold Extension.explore in Hlog. simpl in Hlog.
      unfold Extension.explore_cond in Hlog. simpl in Hlog.
      by rewrite (bool_decide_eq_false_2 _ Hg) in Hlog.
  - destruct (decide ((get_x r, get_y r) = goal)) as [Hg|Hg].
    + rewrite (explore_at_goal _ _ _ _ Hg) in Hlog. injection Hlog as <-.
      unfold position. rewrite Hg. simpl. unfold manhattan.
      repeat split; (done || lia).
    + rewrite (explore_step fuel m r goal Hg) in Hlog.
      destruct (Extension.explore fuel m (move_spec m r).1 (Some goal))
        as [rest| |] eqn:Hrest; try done.
      simpl in Hlog. injection Hlog as <-.
      destruct (IH _ _ Hrest) as (_ & Hlen & Hman & _).
      destruct (move_is_forward m r) as (t & Ht & Hfw & _).
      rewrite Hfw in Hman.
      pose proof (manhattan_forward t) as H1. rewrite Ht in H1.
      pose proof (manhattan_triangle (position r) (position (forward t)) goal).
      split; [split; [done|by intros ?]|].
      split; [simpl; lia|]. split; [simpl length; lia|done].
Qed.

Lemma explore_log_bounds_witness :
  ([(0, 0, "RF"%string)] = [] ↔ position (create_runner 0 0 North) = (1, 0)) ∧
  (length [(0, 0, "RF"%string)] ≤ 5)%nat ∧
  manhattan (position (create_runner 0 0 North)) (1, 0)
  ≤ Z.of_nat (length [(0, 0, "RF"%string)]) ∧
  head (log_cells [(0, 0, "RF"%string)] ++ [(1, 0)])
  = Some (position (create_runner 0 0 North)).
Proof.
  apply (explore_log_bounds 5 (new_maze 2 1) (create_runner 0 0 North) (1, 0)).
  reflexivity.
Defined.

End ExplorerMore.

(** ** The explorer and the searches together *)

(** The cell has at least one side without a wall. *)
Definition cell_open (m : Maze) (c : Cell) : Prop :=
  ∃ c' : Cell, open_step m c c' = true.

Section ExplorerPaths.

Implicit Types (m : Maze) (r t : Runner) (goal : Cell) (log : list LogEntry).

Lemma cell_open_can_move m r : cell_open m (position r) → can_move m r.
Proof.
  intros [c' Hs]. apply open_step_neighbours, elem_of_ext_neighbours in Hs.
  destruct r as [x y o]. unfold position in Hs. cbn [fst snd get_x get_y] in Hs.
  unfold can_move, back_wall, flip, front_of, Extension.sense_walls.
  cbn [get_x get_y get_orientation].
  unfold north_wall, east_wall, south_wall, west_wall in Hs.
  destruct Hs as [[E _]|[[E _]|[[E _]|[E _]]]];
    destruct o; cbn [side_map opposite fst snd]; rewrite ?E;
    first [ by right | left; intros [=]; congruence ].
Qed.

(** From a cell of the grid that is not walled in on all four sides,
    every move of the exploration is an open step. *)
Lemma explore_walk fuel m r goal log :
  in_range m (position r) → can_move m r →
  Extension.explore fuel m r (Some goal) = Ok log →
  is_path m (position r) goal (log_cells log ++ [goal]).
Proof.
  revert r log. induction fuel as [|fuel IH]; intros r log Hr Hcan Hlog.
  - destruct (decide ((get_x r, get_y r) = goal)) as [Hg|Hg].
    + rewrite (explore_at_goal _ _ _ _ Hg) in Hlog. injection Hlog as <-.
      unfold position. rewrite Hg. by repeat split.
    + unfold Extension.explore in Hlog. simpl in Hlog.
      unfold Extension.explore_cond in Hlog. simpl in Hlog.
      by rewrite (bool_decide_eq_false_2 _ Hg) in Hlog.
  - destruct (decide ((get_x r, get_y r) = goal)) as [Hg|Hg].
    + rewrite (explore_at_goal _ _ _ _ Hg) in Hlog. injection Hlog as <-.
      unfold position. rewrite Hg. by repeat split.
    + rewrite (explore_step fuel m r goal Hg) in Hlog.
      destruct (Extension.explore fuel m (move_spec m r).1 (Some goal))
        as [rest| |] eqn:Hrest; try done.
      simpl in Hlog. injection Hlog as <-.
      destruct (move_open m r Hr Hcan) as (Hstep & Hr' & Hback).
      destruct (IH _ _ Hr' ltac:(by right) Hrest) as (Hh & Hl & Hw).
      cbn [log_cells map fst snd app]. fold (log_cells rest).
      destruct (log_cells rest ++ [goal]) as [|c tl] eqn:Htl; [done|].
      simpl in Hh. injection Hh as ->.
      split; [done|]. split; [by rewrite last_cons_cons|].
      rewrite is_walk_cons. apply andb_true_iff. split; [exact Hstep|done].
Qed.

(** X15: starting on a cell of the grid with at least one open side,
    the explorer never walks through a wall and never leaves the grid:
    the cells of the log followed by the goal are a path from the
    start to the goal. *)
Theorem explore_follows_open_steps fuel m r goal log :
  in_range m (position r) →
  cell_open m (position r) →
  Extension.explore fuel m r (Some goal) = Ok log →
  is_path m (position r) goal (log_cells log ++ [goal]) ∧
  Forall (in_range m) (log_cells log ++ [goal]).
Proof.
  intros Hr Hopen Hlog.
  pose proof (explore_walk fuel m r goal log Hr
                (cell_open_can_move m r Hopen) Hlog) as Hpath.
  split; [done|].
  destruct Hpath as (Hh & _ & Hw). revert Hh Hw Hr.
  generalize (position r). generalize (log_cells log ++ [goal]).
  intros p. induction p as [|a p IH]; intros c Hh Hw Hc; [constructor|].
  simpl in Hh. injection Hh as ->. constructor; [done|].
  destruct p as [|b p]; [constructor|].
  rewrite is_walk_cons in Hw. apply andb_true_iff in Hw as [Hs Hw].
  apply (IH b); [done|done|]. by apply (open_step_in_range m c).
Qed.

Lemma explore_follows_open_steps_witness :
  is_path (new_maze 2 1) (0, 0) (1, 0) (log_cells [(0, 0, "RF"%string)] ++ [(1, 0)]) ∧
  Forall (in_range (new_maze 2 1)) (log_cells [(0, 0, "RF"%string)] ++ [(1, 0)]).
Proof.
  apply (explore_follows_open_steps 1 (new_maze 2 1) (create_runner 0 0 North)
           (1, 0) [(0, 0, "RF"%string)]).
  - unfold in_range. simpl. lia.
  - exists (1, 0). reflexivity.
  - reflexivity.
Defined.

(** X16: under the same conditions, when the exploration reached the
    goal, both searches find a path, and it has no more cells than the
    explored route. *)
Theorem shortest_path_within_explored fuel m r goal log fuel' :
  in_range m (position r) →
  cell_open m (position r) →
  Extension.explore fuel m r (Some goal) = Ok log →
  (search_fuel m ≤ fuel')%nat →
  ∃ pb pa,
    Basic.shortest_path fuel' m (Some (position r)) (Some goal) = Ok pb ∧
    Extension.shortest_path fuel' m (Some (position r)) (Some goal) = Ok pa ∧
    is_path m (position r) goal pb ∧
    is_path m (position r) goal pa ∧
    (length pb ≤ S (length log))%nat ∧
    (length pa ≤ S (length log))%nat.
Proof.
  intros Hr Hopen Hlog Hfuel.
  pose proof (explore_walk fuel m r goal log Hr
                (cell_open_can_move m r Hopen) Hlog) as Hpath.
  assert (length (log_cells log ++ [goal]) = S (length log)) as Hlen.
  { unfold log_cells. rewrite length_app, length_map. simpl. lia. }
  destruct (bfs_shortest_path m (position r) goal Hr fuel') as (pb & Hb & Sb).
  { unfold search_fuel in Hfuel. nia. }
  destruct (astar_shortest_path m (position r) goal Hr fuel' Hfuel) as (pa & Ha & Sa).
  destruct Sb as [[Hpb Hminb]|[_ Hno]]; [|by destruct (Hno _ Hpath)].
  destruct Sa as [[Hpa Hmina]|[_ Hno]]; [|by destruct (Hno _ Hpath)].
  exists pb, pa. do 4 (split; [done|]).
  rewrite <- Hlen. split; auto.
Qed.

Lemma shortest_path_within_explored_witness :
  ∃ pb pa,
    Basic.shortest_path 6 (new_maze 2 1) (Some (0, 0)) (Some (1, 0)) = Ok pb ∧
    Extension.shortest_path 6 (new_maze 2 1) (Some (0, 0)) (Some (1, 0)) = Ok pa ∧
    is_path (new_maze 2 1) (0, 0) (1, 0) pb ∧
    is_path (new_maze 2 1) (0, 0) (1, 0) pa ∧
    (length pb ≤ 2)%nat ∧
    (length pa ≤ 2)%nat.
Proof.
  apply (shortest_path_within_explored 1 (new_maze 2 1) (create_runner 0 0 North)
           (1, 0) [(0, 0, "RF"%string)] 6).
  - unfold in_range. simpl. lia.
  - exists (1, 0). reflexivity.
  - reflexivity.
  - vm_compute. lia.
Defined.

End ExplorerPaths.

(** ** More on paths *)

Section Walks.

Variable m : Maze.

Implicit Types (c a b : Cell) (p q l : list Cell).

Lemma is_walk_tail c l : is_walk m (c :: l) = true → is_walk m l = true.
Proof.
  destruct l as [|b l]; [done|]. rewrite is_walk_cons.
  by intros [_ ?]%andb_true_iff.
Qed.

Lemma is_walk_suffix l q : is_walk m (l ++ q) = true → is_walk m q = true.
Proof. induction l as [|a l IH]; [done|]. intros H. by apply IH, (is_walk_tail a). Qed.

(** Two walks put end to end over an open step. *)
Lemma is_walk_app l q :
  is_walk m l = true → is_walk m q = true →
  (∀ a b, last l = Some a → head q = Some b → open_step m a b = true) →
  is_walk m (l ++ q) = true.
Proof.
  induction l as [|a l IH]; intros Hl Hq Hj; [done|].
  destruct l as [|b l].
  - destruct q as [|b q]; [done|]. simpl app. rewrite is_walk_cons.
    rewrite (Hj a b) by done. done.
  - rewrite is_walk_cons in Hl. apply andb_true_iff in Hl as [Hab Hl].
    change ((a :: b :: l) ++ q) with (a :: b :: (l ++ q)).
    rewrite is_walk_cons, Hab. apply IH; [done|done|].
    intros x y Hx Hy. apply Hj; [by rewrite last_cons_cons|done].
Qed.

(** Cutting out the stretch between two visits of the same cell. *)
Lemma is_walk_cut l c l2 l3 :
  is_walk m (l ++ c :: l2 ++ c :: l3) = true → is_walk m (l ++ c :: l3) = true.
Proof.
  induction l as [|a l IH]; intros H.
  - change (is_walk m ((c :: l2) ++ c :: l3) = true) in H.
    apply is_walk_suffix in H. exact H.
  - destruct l as [|b l].
    + change (is_walk m (a :: c :: l2 ++ c :: l3) = true) in H.
      rewrite is_walk_cons in H. apply andb_true_iff in H as [Hac H].
      change (is_walk m (a :: c :: l3) = true).
      rewrite is_walk_cons, Hac. by apply (IH H).
    + change (is_walk m (a :: b :: (l ++ c :: l2 ++ c :: l3)) = true) in H.
      rewrite is_walk_cons in H. apply andb_true_iff in H as [Hab H].
      change (is_walk m (a :: b :: (l ++ c :: l3)) = true).
      rewrite is_walk_cons, Hab. by apply (IH H).
Qed.

Lemma repeated_cell l : ¬ NoDup l → ∃ l1 c l2 l3, l = l1 ++ c :: l2 ++ c :: l3.
Proof.
  induction l as [|a l IH]; intros Hnd; [destruct Hnd; constructor|].
  destruct (decide (a ∈ l)) as [Hin|Hin].
  - apply list_elem_of_split in Hin as (l2 & l3 & ->).
    by exists [], a, l2, l3.
  - destruct IH as (l1 & c & l2 & l3 & ->).
    { intros Hl. apply Hnd. by constructor. }
    by exists (a :: l1), c, l2, l3.
Qed.

(** A path that no other path undercuts visits no cell twice. *)
Lemma shortest_NoDup s g p :
  is_path m s g p → (∀ q, is_path m s g q → (length p ≤ length q)%nat) → NoDup p.
Proof.
  intros (Hh & Hl & Hw) Hmin.
  destruct (decide (NoDup p)) as [|Hnd]; [done|exfalso].
  apply repeated_cell in Hnd as (l1 & c & l2 & l3 & ->).
  specialize (Hmin (l1 ++ c :: l3)).
  rewrite !length_app in Hmin. simpl in Hmin. rewrite length_app in Hmin.
  simpl in Hmin.
  enough (is_path m s g (l1 ++ c :: l3)) as Hq by (specialize (Hmin Hq); lia).
  split; [|split].
  - by destruct l1.
  - rewrite last_app_cons in Hl |- *.
    change (c :: l2 ++ c :: l3) with ((c :: l2) ++ c :: l3) in Hl.
    by rewrite last_app_cons in Hl.
  - by apply is_walk_cut in Hw.
Qed.

Lemma walk_in_range s p :
  in_range m s → head p = Some s → is_walk m p = true → Forall (in_range m) p.
Proof.
  revert s. induction p as [|a p IH]; intros s Hs Hh Hw; [constructor|].
  simpl in Hh. injection Hh as ->. constructor; [done|].
  destruct p as [|b p]; [constructor|].
  rewrite is_walk_cons in Hw. apply andb_true_iff in Hw as [Hab Hw].
  apply (IH b); [|done|done]. by apply (open_step_in_range m s).
Qed.

(** A walk through cells of the grid can be walked backward. *)
Lemma is_walk_reverse p :
  Forall (in_range m) p → is_walk m p = true → is_walk m (reverse p) = true.
Proof.
  induction p as [|a p IH]; intros Hr Hw; [done|].
  apply Forall_cons in Hr as [Ha Hr]. rewrite reverse_cons.
  apply is_walk_app; [apply IH; [done|by apply (is_walk_tail a)]|done|].
  intros x y Hx [= <-]. rewrite last_reverse in Hx.
  destruct p as [|b p]; [done|]. simpl in Hx. injection Hx as <-.
  rewrite is_walk_cons in Hw. apply andb_true_iff in Hw as [Hab _].
  by apply open_step_sym.
Qed.

Lemma is_path_reverse s g p :
  in_range m s → is_path m s g p → is_path m g s (reverse p).
Proof.
  intros Hs (Hh & Hl & Hw). split; [|split].
  - by rewrite head_reverse.
  - by rewrite last_reverse.
  - apply is_walk_reverse; [|done]. by apply (walk_in_range s).
Qed.

Lemma reach_manhattan s n c : reach m s n c → manhattan s c ≤ Z.of_nat n.
Proof.
  induction 1 as [|n c c' _ IH Hstep]; [unfold manhattan; lia|].
  apply open_step_neighbours in Hstep.
  pose proof (neighbours_manhattan m c.1 c.2 c' Hstep) as Hone.
  destruct c as [x y]. simpl in Hone.
  pose proof (manhattan_triangle s (x, y) c'). lia.
Qed.

Lemma reach_trans s n c k c' :
  reach m s n c → reach m c k c' → reach m s (n + k) c'.
Proof.
  intros Hs Hc. induction Hc as [|k c1 c2 _ IH Hstep].
  - by rewrite Nat.add_0_r.
  - rewrite Nat.add_succ_r. by apply reach_S with c1.
Qed.

Lemma reach_path s n g : reach m s n g → ∃ q, is_path m s g q ∧ length q = S n.
Proof.
  induction 1 as [|n c c' _ (q & (Hh & Hl & Hw) & Hlen) Hstep].
  - exists [s]. by repeat split.
  - exists (q ++ [c']). split; [split; [|split]|].
    + destruct q; [done|]. done.
    + by rewrite last_snoc.
    + apply is_walk_app; [done|done|]. intros a b Ha [= <-].
      rewrite Hl in Ha. by injection Ha as <-.
    + rewrite length_app. simpl. lia.
Qed.

End Walks.

(** ** More on the searches *)

Section SearchMore.

Implicit Types (m : Maze) (start goal c : Cell) (p q : list Cell).

(** Both searches on the same query, each result a shortest path or
    empty. *)
Lemma both_searches m start goal fuel :
  in_range m start → (search_fuel m ≤ fuel)%nat →
  ∃ pb pa,
    Basic.shortest_path fuel m (Some start) (Some goal) = Ok pb ∧
    Extension.shortest_path fuel m (Some start) (Some goal) = Ok pa ∧
    shortest_path_spec m start goal pb ∧
    shortest_path_spec m start goal pa.
Proof.
  intros Hstart Hfuel.
  destruct (bfs_shortest_path m start goal Hstart fuel) as (pb & Hb & Sb).
  { unfold search_fuel in Hfuel. nia. }
  destruct (astar_shortest_path m start goal Hstart fuel Hfuel) as (pa & Ha & Sa).
  by exists pb, pa.
Qed.

Lemma while_break {St : Type} fuel (cond : St → bool) body (s s' : St) :
  cond s = true → body s = Ok (Break s') → while (S fuel) cond body s = Ok s'.
Proof. simpl. by intros -> ->. Qed.

Lemma while_skip {St : Type} fuel (cond : St → bool) body (s : St) :
  cond s = false → while fuel cond body s = Ok s.
Proof. destruct fuel; simpl; by intros ->. Qed.

Lemma reconstruct_at_start fuel parent c : reconstruct fuel parent c c = Ok [c].
Proof.
  unfold reconstruct. rewrite while_skip; [done|].
  unfold reconstruct_cond. cbn [snd]. by rewrite bool_decide_eq_true_2.
Qed.

(** X17: asked for the path from a cell to itself, both searches
    answer with that single cell, for any maze and any cell, inside
    the grid or not. *)
Theorem shortest_path_to_itself m c fuel :
  (1 ≤ fuel)%nat →
  Basic.shortest_path fuel m (Some c) (Some c) = Ok [c] ∧
  Extension.shortest_path fuel m (Some c) (Some c) = Ok [c].
Proof.
  intros Hfuel. destruct fuel as [|fuel]; [lia|]. split.
  - unfold Basic.shortest_path.
    rewrite (while_break fuel _ _ _ (Basic.mkBfs [] {[c]} ∅ true)); [|done|].
    + cbn [mbind result_bind Basic.found negb Basic.parent].
      apply reconstruct_at_start.
    + unfold Basic.bfs_body. cbn [Basic.queue Basic.visited Basic.parent Basic.found].
      by rewrite bool_decide_eq_true_2.
  - unfold Extension.shortest_path. cbn [heappush].
    rewrite (while_break fuel _ _ _ (Extension.mkAstar [] {[c := 0]} ∅)); [|done|].
    + cbn [mbind result_bind Extension.g_cost Extension.parent].
      rewrite (bool_decide_eq_true_2 (c ∈ dom _)).
      2:{ rewrite dom_singleton_L. by apply elem_of_singleton. }
      apply reconstruct_at_start.
    + unfold Extension.astar_body.
      cbn [Extension.open_set Extension.g_cost Extension.parent heappop
           mbind result_bind].
      by rewrite bool_decide_eq_true_2.
Qed.

Lemma shortest_path_to_itself_witness :
  Basic.shortest_path 1 (new_maze 3 3) (Some (-4, 7)) (Some (-4, 7)) = Ok [(-4, 7)] ∧
  Extension.shortest_path 1 (new_maze 3 3) (Some (-4, 7)) (Some (-4, 7)) = Ok [(-4, 7)].
Proof. apply (shortest_path_to_itself (new_maze 3 3) (-4, 7) 1). lia. Defined.

Lemma length_cells m :
  Z.of_nat (length (cells m)) = Z.max 0 (width m) * Z.max 0 (height m).
Proof.
  unfold cells.
  assert (∀ l : list Z,
            length (l ≫= λ x, seqZ 0 (height m) ≫= λ y, [(x, y)])
            = (length l * Z.to_nat (height m))%nat) as Hl.
  { intros l. induction l as [|x l IH]; [done|].
    rewrite bind_cons, length_app, IH. simpl. f_equal.
    generalize (seqZ 0 (height m)) (length_seqZ 0 (height m)).
    intros k <-. clear. induction k as [|y k IH]; [done|].
    rewrite bind_cons, length_app, IH. done. }
  rewrite Hl, length_seqZ. lia.
Qed.

Lemma spec_simple m start goal p :
  in_range m start → shortest_path_spec m start goal p →
  NoDup p ∧ Forall (in_range m) p ∧
  Z.of_nat (length p) ≤ width m * height m.
Proof.
  intros Hs [[Hp Hmin]|[-> _]].
  - pose proof (shortest_NoDup m start goal p Hp Hmin) as Hnd.
    destruct Hp as (Hh & Hl & Hw).
    pose proof (walk_in_range m start p Hs Hh Hw) as Hr.
    split; [done|]. split; [done|].
    assert (length p ≤ length (cells m))%nat as Hlen.
    { apply submseteq_length, NoDup_submseteq; [done|].
      intros x Hx. apply elem_of_cells. rewrite Forall_forall in Hr. auto. }
    pose proof (length_cells m). destruct Hs. simpl in *. lia.
  - split; [constructor|]. split; [constructor|]. destruct Hs. simpl in *. nia.
Qed.

(** X18: from an in-range start, the sequence either search returns
    visits no cell twice, stays inside the grid, and has at most
    width times height cells. *)
Theorem shortest_path_simple m start goal fuel :
  in_range m start → (search_fuel m ≤ fuel)%nat →
  ∃ pb pa,
    Basic.shortest_path fuel m (Some start) (Some goal) = Ok pb ∧
    Extension.shortest_path fuel m (Some start) (Some goal) = Ok pa ∧
    NoDup pb ∧ NoDup pa ∧
    Forall (in_range m) pb ∧ Forall (in_range m) pa ∧
    Z.of_nat (length pb) ≤ width m * height m ∧
    Z.of_nat (length pa) ≤ width m * height m.
Proof.
  intros Hs Hfuel.
  destruct (both_searches m start goal fuel Hs Hfuel) as (pb & pa & Hb & Ha & Sb & Sa).
  destruct (spec_simple m start goal pb Hs Sb) as (? & ? & ?).
  destruct (spec_simple m start goal pa Hs Sa) as (? & ? & ?).
  by exists pb, pa.
Qed.

Lemma shortest_path_simple_witness :
  ∃ pb pa,
    Basic.shortest_path 83 open_grid (Some (0, 0)) (Some (2, 2)) = Ok pb ∧
    Extension.shortest_path 83 open_grid (Some (0, 0)) (Some (2, 2)) = Ok pa ∧
    NoDup pb ∧ NoDup pa ∧
    Forall (in_range open_grid) pb ∧ Forall (in_range open_grid) pa ∧
    Z.of_nat (length pb) ≤ width open_grid * height open_grid ∧
    Z.of_nat (length pa) ≤ width open_grid * height open_grid.
Proof.
  apply (shortest_path_simple open_grid (0, 0) (2, 2) 83).
  - unfold in_range. simpl. lia.
  - vm_compute. lia.
Defined.

(** X19: the heuristic [h] of the A-star search never overestimates:
    a path between two cells has more cells than their Manhattan
    distance, so [h] is at most the number of steps of any path. *)
Theorem heuristic_admissible m c goal q :
  is_path m c goal q → Extension.h c goal + 1 ≤ Z.of_nat (length q).
Proof.
  intros Hq. apply path_reach in Hq as (n & -> & Hr).
  apply reach_manhattan in Hr. unfold manhattan in Hr. unfold Extension.h. lia.
Qed.

Lemma heuristic_admissible_witness :
  Extension.h (0, 0) (2, 2) + 1
  ≤ Z.of_nat (length [(0, 0); (1, 0); (2, 0); (2, 1); (2, 2)]).
Proof.
  apply (heuristic_admissible open_grid (0, 0) (2, 2)). exact open_grid_path.
Defined.

Lemma spec_symmetric m a b p q :
  in_range m a → in_range m b →
  shortest_path_spec m a b p → shortest_path_spec m b a q → length p = length q.
Proof.
  intros Ha Hb [[Hp Hpmin]|[-> Hpno]] [[Hq Hqmin]|[-> Hqno]].
  - pose proof (Hpmin _ (is_path_reverse m b a q Hb Hq)) as H1.
    pose proof (Hqmin _ (is_path_reverse m a b p Ha Hp)) as H2.
    rewrite length_reverse in H1, H2. lia.
  - destruct (Hqno _ (is_path_reverse m a b p Ha Hp)).
  - destruct (Hpno _ (is_path_reverse m b a q Hb Hq)).
  - done.
Qed.

(** X20: between two cells of the grid the way there and the way back
    have the same length, with either search; one is empty exactly
    when the other is. *)
Theorem shortest_path_symmetric m a b fuel :
  in_range m a → in_range m b → (search_fuel m ≤ fuel)%nat →
  ∃ p q p' q',
    Basic.shortest_path fuel m (Some a) (Some b) = Ok p ∧
    Basic.shortest_path fuel m (Some b) (Some a) = Ok q ∧
    Extension.shortest_path fuel m (Some a) (Some b) = Ok p' ∧
    Extension.shortest_path fuel m (Some b) (Some a) = Ok q' ∧
    length p = length q ∧ length p' = length q'.
Proof.
  intros Ha Hb Hfuel.
  destruct (both_searches m a b fuel Ha Hfuel) as (p & p' & Hp & Hp' & Sp & Sp').
  destruct (both_searches m b a fuel Hb Hfuel) as (q & q' & Hq & Hq' & Sq & Sq').
  exists p, q, p', q'. do 4 (split; [done|]).
  split; by apply (spec_symmetric m a b).
Qed.

Lemma shortest_path_symmetric_witness :
  ∃ p q p' q',
    Basic.shortest_path 83 open_grid (Some (0, 0)) (Some (2, 1)) = Ok p ∧
    Basic.shortest_path 83 open_grid (Some (2, 1)) (Some (0, 0)) = Ok q ∧
    Extension.shortest_path 83 open_grid (Some (0, 0)) (Some (2, 1)) = Ok p' ∧
    Extension.shortest_path 83 open_grid (Some (2, 1)) (Some (0, 0)) = Ok q' ∧
    length p = length q ∧ length p' = length q'.
Proof.
  apply (shortest_path_symmetric open_grid (0, 0) (2, 1) 83).
  - unfold in_range. simpl. lia.
  - unfold in_range. simpl. lia.
  - vm_compute. lia.
Defined.

(** X21: a goal outside the grid is unreachable from a start inside
    it: both searches return the empty sequence. *)
Theorem shortest_path_goal_outside m start goal fuel :
  in_range m start → ¬ in_range m goal → (search_fuel m ≤ fuel)%nat →
  Basic.shortest_path fuel m (Some start) (Some goal) = Ok [] ∧
  Extension.shortest_path fuel m (Some start) (Some goal) = Ok [].
Proof.
  intros Hs Hg Hfuel.
  assert (∀ q, ¬ is_path m start goal q) as Hno.
  { intros q Hq. apply path_reach in Hq as (n & _ & Hr).
    by apply Hg, (reach_in_range m start n). }
  destruct (both_searches m start goal fuel Hs Hfuel) as (pb & pa & -> & -> & Sb & Sa).
  destruct Sb as [[Hpb _]|[-> _]]; [by destruct (Hno pb)|].
  destruct Sa as [[Hpa _]|[-> _]]; [by destruct (Hno pa)|].
  done.
Qed.

Lemma shortest_path_goal_outside_witness :
  Basic.shortest_path 83 open_grid (Some (0, 0)) (Some (3, 0)) = Ok [] ∧
  Extension.shortest_path 83 open_grid (Some (0, 0)) (Some (3, 0)) = Ok [].
Proof.
  apply (shortest_path_goal_outside open_grid (0, 0) (3, 0) 83).
  - unfold in_range. simpl. lia.
  - unfold in_range. simpl. lia.
  - vm_compute. lia.
Defined.

End SearchMore.

(** ** The grid without internal walls *)

Section OpenGrid.

Variables (w h : Z).

Implicit Types (x y : Z) (k : nat).

Lemma open_grid_steps x y :
  (x ≠ w - 1 → open_step (new_maze w h) (x, y) (x + 1, y) = true) ∧
  (x ≠ 0 → open_step (new_maze w h) (x, y) (x - 1, y) = true) ∧
  (y ≠ h - 1 → open_step (new_maze w h) (x, y) (x, y + 1) = true) ∧
  (y ≠ 0 → open_step (new_maze w h) (x, y) (x, y - 1) = true).
Proof.
  repeat split; intros Hne; apply open_step_neighbours, elem_of_ext_neighbours;
    cbn [fst snd].
  - right; left. split; [|done]. rewrite get_walls_east. simpl.
    by rewrite (bool_decide_eq_false_2 _ Hne).
  - right; right; right. split; [|done]. rewrite get_walls_west. simpl.
    by rewrite (bool_decide_eq_false_2 _ Hne).
  - left. split; [|done]. rewrite get_walls_north. simpl.
    by rewrite (bool_decide_eq_false_2 _ Hne).
  - right; right; left. split; [|done]. rewrite get_walls_south. simpl.
    by rewrite (bool_decide_eq_false_2 _ Hne).
Qed.

Lemma open_grid_row k x x' y :
  0 ≤ x < w → 0 ≤ x' < w → Z.abs (x' - x) = Z.of_nat k →
  reach (new_maze w h) (x, y) k (x', y).
Proof.
  revert x'. induction k as [|k IH]; intros x' Hx Hx' Hk.
  - assert (x' = x) as -> by lia. constructor.
  - destruct (decide (x < x')).
    + apply reach_S with (x' - 1, y); [apply IH; lia|].
      replace x' with (x' - 1 + 1) at 2 by lia.
      apply open_grid_steps. lia.
    + apply reach_S with (x' + 1, y); [apply IH; lia|].
      replace x' with (x' + 1 - 1) at 2 by lia.
      apply open_grid_steps. lia.
Qed.

Lemma open_grid_column k x y y' :
  0 ≤ y < h → 0 ≤ y' < h → Z.abs (y' - y) = Z.of_nat k →
  reach (new_maze w h) (x, y) k (x, y').
Proof.
  revert y'. induction k as [|k IH]; intros y' Hy Hy' Hk.
  - assert (y' = y) as -> by lia. constructor.
  - destruct (decide (y < y')).
    + apply reach_S with (x, y' - 1); [apply IH; lia|].
      replace y' with (y' - 1 + 1) at 2 by lia.
      apply open_grid_steps. lia.
    + apply reach_S with (x, y' + 1); [apply IH; lia|].
      replace y' with (y' + 1 - 1) at 2 by lia.
      apply open_grid_steps. lia.
Qed.

Lemma open_grid_reach (a b : Cell) :
  in_range (new_maze w h) a → in_range (new_maze w h) b →
  reach (new_maze w h) a (Z.to_nat (manhattan a b)) b.
Proof.
  destruct a as [x y], b as [x' y']. intros [Hx Hy] [Hx' Hy']. simpl in *.
  unfold manhattan. simpl.
  replace (Z.to_nat (Z.abs (x' - x) + Z.abs (y' - y)))
    with (Z.to_nat (Z.abs (x' - x)) + Z.to_nat (Z.abs (y' - y)))%nat by lia.
  apply reach_trans with (x', y).
  - apply open_grid_row; lia.
  - apply open_grid_column; lia.
Qed.

(** X22: in a maze without internal walls, between any two cells of
    the grid both searches return a path with exactly the Manhattan
    distance plus one cells. *)
Theorem open_maze_shortest_path (start goal : Cell) (fuel : nat) :
  in_range (new_maze w h) start → in_range (new_maze w h) goal →
  (search_fuel (new_maze w h) ≤ fuel)%nat →
  ∃ pb pa,
    Basic.shortest_path fuel (new_maze w h) (Some start) (Some goal) = Ok pb ∧
    Extension.shortest_path fuel (new_maze w h) (Some start) (Some goal) = Ok pa ∧
    Z.of_nat (length pb) = manhattan start goal + 1 ∧
    Z.of_nat (length pa) = manhattan start goal + 1.
Proof.
  intros Hs Hg Hfuel.
  destruct (reach_path _ _ _ _ (open_grid_reach start goal Hs Hg)) as (q & Hq & Hlen).
  assert (0 ≤ manhattan start goal) by (unfold manhattan; lia).
  assert (∀ p, shortest_path_spec (new_maze w h) start goal p →
               Z.of_nat (length p) = manhattan start goal + 1) as Hexact.
  { intros p [[Hp Hmin]|[_ Hno]]; [|by destruct (Hno q)].
    specialize (Hmin q Hq).
    apply path_reach in Hp as (n & Hn & Hr). apply reach_manhattan in Hr. lia. }
  destruct (both_searches _ start goal fuel Hs Hfuel) as (pb & pa & Hb & Ha & Sb & Sa).
  exists pb, pa. auto.
Qed.

End OpenGrid.

Lemma open_maze_shortest_path_witness :
  ∃ pb pa,
    Basic.shortest_path 83 (new_maze 3 3) (Some (0, 0)) (Some (2, 2)) = Ok pb ∧
    Extension.shortest_path 83 (new_maze 3 3) (Some (0, 0)) (Some (2, 2)) = Ok pa ∧
    Z.of_nat (length pb) = manhattan (0, 0) (2, 2) + 1 ∧
    Z.of_nat (length pa) = manhattan (0, 0) (2, 2) + 1.
Proof.
  apply (open_maze_shortest_path 3 3 (0, 0) (2, 2) 83).
  - unfold in_range. simpl. lia.
  - unfold in_range. simpl. lia.
  - vm_compute. lia.
Defined.

(** ** The maze reader *)

Section MazeReader.

Implicit Types (rows : list (list ascii)) (row : list ascii) (m maze : Maze).

Lemma list_get_ok {A : Type} (l : list A) (i : Z) :
  0 ≤ i < Z.of_nat (length l) →
  ∃ a, l !! Z.to_nat i = Some a ∧ list_get l i = Ok a.
Proof.
  intros Hi. destruct (lookup_lt_is_Some_2 l (Z.to_nat i)) as [a Ha]; [lia|].
  exists a. split; [done|]. unfold list_get.
  rewrite (bool_decide_eq_false_2 (i < 0)) by lia.
  rewrite (bool_decide_eq_true_2 (0 ≤ i)) by lia. by rewrite Ha.
Qed.

Lemma list_get_last {A : Type} (l : list A) :
  l ≠ [] → ∃ a, last l = Some a ∧ list_get l (-1) = Ok a.
Proof.
  intros Hl. destruct (last l) as [a|] eqn:Ha; [|by apply last_None in Ha].
  exists a. split; [done|]. unfold list_get.
  assert (0 < length l)%nat by (destruct l; simpl; [done|lia]).
  rewrite (bool_decide_eq_true_2 (-1 < 0)) by lia.
  rewrite (bool_decide_eq_true_2 (0 ≤ _)) by lia.
  rewrite last_lookup in Ha.
  replace (Z.to_nat (-1 + Z.of_nat (length l))) with (pred (length l)) by lia.
  by rewrite Ha.
Qed.

(** In a text whose rows all have [W] characters, reading a character
    inside the text succeeds. *)
Lemma get_char rows (W i j : Z) :
  (∀ row, row ∈ rows → Z.of_nat (length row) = W) →
  0 ≤ i < Z.of_nat (length rows) → 0 ≤ j < W →
  ∀ {B : Type} (k : ascii → result B),
    (row ← list_get rows i; ch ← list_get row j; k ch) = k (char_at rows i j).
Proof.
  intros Hw Hi Hj B k. destruct (list_get_ok rows i Hi) as (row & Hrow & ->).
  simpl. assert (row ∈ rows) as Hin by (by eapply list_elem_of_lookup_2).
  destruct (list_get_ok row j) as (c & Hc & ->); [rewrite (Hw row Hin); lia|].
  unfold char_at. by rewrite Hrow, Hc.
Qed.

(** A checking loop either passes every item or stops at the error
    of an item that fails. *)
Lemma for_in_check {A : Type} (l : list A) (body : unit → A → result unit) :
  (∀ a, a ∈ l → body tt a = Ok tt ∨ ∃ e, body tt a = Raise e) →
  (for_in l body tt = Ok tt ∧ ∀ a, a ∈ l → body tt a = Ok tt)
  ∨ ∃ e a, a ∈ l ∧ body tt a = Raise e ∧ for_in l body tt = Raise e.
Proof.
  induction l as [|a l IH]; intros Hb.
  - left. split; [done|]. intros a Ha. by apply elem_of_nil in Ha.
  - simpl. destruct (Hb a ltac:(left)) as [Ha|(e & Ha)].
    + rewrite Ha. simpl.
      destruct IH as [[Hl Hall]|(e & b & Hin & Hbb & Hl)].
      * intros b Hb'. apply Hb. by right.
      * left. split; [done|]. intros b [->|Hb']%elem_of_cons; auto.
      * right. exists e, b. split; [by right|done].
    + right. exists e, a. rewrite Ha. split; [left|done].
Qed.

(** *** The two loops over the cells *)

Section ReaderLoops.

Variables (rows : list (list ascii)) (w h : Z).
Hypothesis Hrows : Z.of_nat (length rows) = 2 * h + 1.
Hypothesis Hcols : ∀ row, row ∈ rows → Z.of_nat (length row) = 2 * w + 1.

(** The text shows a wall east of cell [(x, y)], north of it. *)
Definition vertical_at (y x : Z) : Prop :=
  x < w - 1 ∧ char_at rows (2 * (h - 1 - y) + 1) (2 * x + 1 + 1) = "#"%char.

Definition horizontal_at (y x : Z) : Prop :=
  y < h - 1 ∧ char_at rows (2 * (h - 1 - y) + 1 - 1) (2 * x + 1) = "#"%char.

(** The walls recorded are those the text shows around the cells
    [(x, y)] handled so far, [P y x]. *)
Record read_inv (P : Z → Z → Prop) maze : Prop := {
  rv_width : width maze = w;
  rv_height : height maze = h;
  rv_vertical : ∀ a b, (a, b) ∈ _vertical_walls maze ↔
    ∃ x, b = x + 1 ∧ P a x ∧ vertical_at a x;
  rv_horizontal : ∀ a b, (a, b) ∈ _horizontal_walls maze ↔
    ∃ y, b = y + 1 ∧ P y a ∧ horizontal_at y a;
}.

Lemma read_inv_ext (P Q : Z → Z → Prop) maze :
  (∀ y x, P y x ↔ Q y x) → read_inv P maze → read_inv Q maze.
Proof.
  intros HPQ [Hw Hh Hv Hz]. split; [done|done| |].
  - intros a b. rewrite Hv. by setoid_rewrite HPQ.
  - intros a b. rewrite Hz. by setoid_rewrite HPQ.
Qed.

Lemma read_cell_step (P : Z → Z → Prop) maze y x :
  0 ≤ y < h → 0 ≤ x < w → read_inv P maze →
  ∃ maze', read_cell rows w h y maze x = Ok maze' ∧
           read_inv (λ y' x', P y' x' ∨ (y' = y ∧ x' = x)) maze'.
Proof.
  intros Hy Hx [Hw Hh Hv Hz]. unfold read_cell.
  set (m1 := if bool_decide (x < w - 1) && bool_decide
                 (char_at rows (2 * (h - 1 - y) + 1) (2 * x + 1 + 1) = "#"%char)
             then add_vertical_wall maze y (x + 1) else maze).
  assert ((if bool_decide (x < w - 1)
           then row ← list_get rows (2 * (h - 1 - y) + 1);
                ch ← list_get row (2 * x + 1 + 1);
                Ok (if bool_decide (ch = "#"%char)
                    then add_vertical_wall maze y (x + 1) else maze)
           else Ok maze) = Ok m1) as ->.
  { subst m1. case_bool_decide; [|done].
    rewrite (get_char rows (2 * w + 1)); [done|done|lia|lia]. }
  cbn [mbind result_bind].
  set (m2 := if bool_decide (y < h - 1) && bool_decide
                 (char_at rows (2 * (h - 1 - y) + 1 - 1) (2 * x + 1) = "#"%char)
             then add_horizontal_wall m1 x (y + 1) else m1).
  assert ((if bool_decide (y < h - 1)
           then row ← list_get rows (2 * (h - 1 - y) + 1 - 1);
                ch ← list_get row (2 * x + 1);
                Ok (if bool_decide (ch = "#"%char)
                    then add_horizontal_wall m1 x (y + 1) else m1)
           else Ok m1) = Ok m2) as ->.
  { subst m2. case_bool_decide; [|done].
    rewrite (get_char rows (2 * w + 1)); [done|done|lia|lia]. }
  exists m2. split; [done|].
  set (c1 := bool_decide (x < w - 1) && bool_decide
                 (char_at rows (2 * (h - 1 - y) + 1) (2 * x + 1 + 1) = "#"%char)) in *.
  set (c2 := bool_decide (y < h - 1) && bool_decide
                 (char_at rows (2 * (h - 1 - y) + 1 - 1) (2 * x + 1) = "#"%char)) in *.
  assert (Hc1 : c1 = true ↔ vertical_at y x).
  { unfold c1, vertical_at. by rewrite andb_true_iff, !bool_decide_eq_true. }
  assert (Hc2 : c2 = true ↔ horizontal_at y x).
  { unfold c2, horizontal_at. by rewrite andb_true_iff, !bool_decide_eq_true. }
  assert (width m2 = w ∧ height m2 = h) as [Hw2 Hh2].
  { subst m2 m1. by destruct c1, c2. }
  assert (_vertical_walls m2
          = if c1 then {[ (y, x + 1) ]} ∪ _vertical_walls maze
            else _vertical_walls maze) as Hv2.
  { subst m2 m1. by destruct c1, c2. }
  assert (_horizontal_walls m2
          = if c2 then {[ (x, y + 1) ]} ∪ _horizontal_walls maze
            else _horizontal_walls maze) as Hz2.
  { subst m2 m1. by destruct c1, c2. }
  clearbody m1 m2 c1 c2.
  split; [done|done| |].
  - intros a b. rewrite Hv2. destruct c1.
    + assert (vertical_at y x) as Hyx by (by apply Hc1).
      rewrite elem_of_union, elem_of_singleton, Hv. split.
      * intros [[= -> ->]|(x0 & -> & HP & Hva)].
        -- exists x. split; [done|]. split; [by right|done].
        -- exists x0. split; [done|]. split; [by left|done].
      * intros (x0 & -> & [HP|[-> ->]] & Hva); [right|by left].
        exists x0. by split.
    + assert (¬ vertical_at y x) as Hyx by (by rewrite <- Hc1).
      rewrite Hv. split.
      * intros (x0 & -> & HP & Hva). exists x0. split; [done|]. split; [by left|done].
      * intros (x0 & -> & [HP|[-> ->]] & Hva); [by exists x0|done].
  - intros a b. rewrite Hz2. destruct c2.
    + assert (horizontal_at y x) as Hyx by (by apply Hc2).
      rewrite elem_of_union, elem_of_singleton, Hz. split.
      * intros [[= -> ->]|(y0 & -> & HP & Hha)].
        -- exists y. split; [done|]. split; [by right|done].
        -- exists y0. split; [done|]. split; [by left|done].
      * intros (y0 & -> & [HP|[-> ->]] & Hha); [right|by left].
        exists y0. by split.
    + assert (¬ horizontal_at y x) as Hyx by (by rewrite <- Hc2).
      rewrite Hz. split.
      * intros (y0 & -> & HP & Hha). exists y0. split; [done|]. split; [by left|done].
      * intros (y0 & -> & [HP|[-> ->]] & Hha); [by exists y0|done].
Qed.

Lemma read_loops :
  ∃ m, for_in (seqZ 0 h)
         (λ maze y, for_in (seqZ 0 w) (read_cell rows w h y) maze)
         (new_maze w h) = Ok m ∧
       read_inv (λ y x, 0 ≤ y < h ∧ 0 ≤ x < w) m.
Proof.
  destruct (for_in_rule
              (λ maze y, for_in (seqZ 0 w) (read_cell rows w h y) maze)
              (λ done maze, read_inv (λ y x, y ∈ done ∧ 0 ≤ x < w) maze)
              (seqZ 0 h) (new_maze w h)) as (m & Hm & Hinv).
  - split; [done|done| |]; intros a b; simpl; split.
    + by intros ?%not_elem_of_empty.
    + by intros (x & _ & [?%elem_of_nil _] & _).
    + by intros ?%not_elem_of_empty.
    + by intros (y & _ & [?%elem_of_nil _] & _).
  - intros done y maze Hinv Hy. apply elem_of_seqZ in Hy.
    destruct (for_in_rule (read_cell rows w h y)
                (λ xs maze', read_inv
                   (λ y' x', (y' ∈ done ∧ 0 ≤ x' < w) ∨ (y' = y ∧ x' ∈ xs)) maze')
                (seqZ 0 w) maze) as (maze' & Hrun & Hinv').
    + eapply read_inv_ext; [|done]. intros y' x'. split; [by left|].
      by intros [?|[_ ?%elem_of_nil]].
    + intros xs x maze1 Hinv1 Hx. apply elem_of_seqZ in Hx.
      destruct (read_cell_step _ maze1 y x ltac:(lia) ltac:(lia) Hinv1)
        as (maze2 & Hstep & Hinv2).
      exists maze2. split; [done|]. eapply read_inv_ext; [|done].
      intros y' x'. cbn beta. rewrite elem_of_app, list_elem_of_singleton. tauto.
    + exists maze'. split; [done|]. eapply read_inv_ext; [|done].
      intros y' x'. cbn beta.
      rewrite elem_of_app, list_elem_of_singleton, elem_of_seqZ. split.
      * intros [[? ?]|[-> ?]]; [tauto|]. split; [by right|lia].
      * intros [[?| ->] ?]; [by left|]. right. split; [done|lia].
  - exists m. split; [done|]. eapply read_inv_ext; [|done].
    intros y x. cbn beta. rewrite elem_of_seqZ. lia.
Qed.

End ReaderLoops.
(** What holds of a text [maze_reader] accepted and of the maze it
    built. *)
Record accepted rows m : Prop := {
  ac_rows : Z.of_nat (length rows) = 2 * height m + 1;
  ac_cols : ∀ row, row ∈ rows → Z.of_nat (length row) = 2 * width m + 1;
  ac_nonneg : 0 ≤ width m ∧ 0 ≤ height m;
  ac_top : ∀ row, head rows = Some row → all_hash row = true;
  ac_bottom : ∀ row, last rows = Some row → all_hash row = true;
  ac_sides : ∀ row, row ∈ rows →
    head row = Some "#"%char ∧ last row = Some "#"%char;
  ac_vertical : ∀ y b, (y, b) ∈ _vertical_walls m ↔
    0 ≤ y < height m ∧ 1 ≤ b < width m ∧
    char_at rows (2 * (height m - 1 - y) + 1) (2 * b) = "#"%char;
  ac_horizontal : ∀ x b, (x, b) ∈ _horizontal_walls m ↔
    0 ≤ x < width m ∧ 1 ≤ b < height m ∧
    char_at rows (2 * (height m - b)) (2 * x + 1) = "#"%char;
}.

(** The texts [maze_reader] takes: an odd number of rows of one odd
    width, the first and the last all '#', each beginning and ending
    with '#'. *)
Definition bordered rows : Prop :=
  ∃ w h : Z,
    Z.of_nat (length rows) = 2 * h + 1 ∧
    (∀ row, row ∈ rows → Z.of_nat (length row) = 2 * w + 1) ∧
    (∀ row, head rows = Some row → all_hash row = true) ∧
    (∀ row, last rows = Some row → all_hash row = true) ∧
    (∀ row, row ∈ rows → head row = Some "#"%char ∧ last row = Some "#"%char).

Lemma maze_reader_cases lines :
  match maze_reader lines with
  | Ok m => accepted (rows_of lines) m
  | Raise (ValueError _) => ¬ bordered (rows_of lines)
  | _ => False
  end.
Proof.
  unfold maze_reader. cbv zeta. fold (rows_of lines).
  destruct (rows_of lines) as [|row0 rest] eqn:Erows.
  { intros (w & h & Hlen & _). simpl in Hlen. lia. }
  set (rows := row0 :: rest).
  assert (Hrow0 : row0 ∈ rows) by left.
  set (W := Z.of_nat (length row0)). set (H := Z.of_nat (length rows)).
  (* rows of one width *)
  destruct (for_in_check rows (check_width W))
    as [[-> Hall]|(e & line & Hline & Hbody & ->)].
  { intros line _. unfold check_width. case_bool_decide; simpl; eauto. }
  2:{ unfold check_width in Hbody. case_bool_decide as Hlen; [done|].
      injection Hbody as <-. cbn [mbind result_bind].
      intros (w & h & _ & Hc & _). apply Hlen.
      rewrite (Hc line Hline). unfold W. by rewrite (Hc row0 Hrow0). }
  assert (Hcols : ∀ row, row ∈ rows → Z.of_nat (length row) = W).
  { intros row Hrow. specialize (Hall row Hrow). unfold check_width in Hall.
    by case_bool_decide. }
  clear Hall. cbn [mbind result_bind].
  (* odd sizes *)
  destruct (decide ((H - 1) `mod` 2 = 0)) as [HH|HH];
    [rewrite (bool_decide_eq_true_2 _ HH)|rewrite (bool_decide_eq_false_2 _ HH)].
  2:{ cbn [negb orb]. intros (w & h & Hlen & _). apply HH.
      fold H in Hlen. replace (H - 1) with (h * 2) by lia. apply Z.mod_mul. lia. }
  destruct (decide ((W - 1) `mod` 2 = 0)) as [HW|HW];
    [rewrite (bool_decide_eq_true_2 _ HW)|rewrite (bool_decide_eq_false_2 _ HW)].
  2:{ cbn [negb orb]. intros (w & h & _ & Hc & _). apply HW.
      specialize (Hc row0 Hrow0). fold W in Hc.
      replace (W - 1) with (w * 2) by lia. apply Z.mod_mul. lia. }
  cbn [negb orb].
  set (h := (H - 1) `div` 2). set (w := (W - 1) `div` 2).
  assert (H = 2 * h + 1 ∧ 0 ≤ h) as [HHh Hh0].
  { pose proof (Z.div_mod (H - 1) 2 ltac:(lia)). subst h. unfold H, rows in *.
    simpl length in *. lia. }
  assert (W = 2 * w + 1 ∧ 0 ≤ w) as [HWw Hw0].
  { pose proof (Z.div_mod (W - 1) 2 ltac:(lia)). subst w. unfold W in *. lia. }
  (* borders *)
  destruct (all_hash row0) eqn:Htop; cbn [negb].
  2:{ intros (_ & _ & _ & _ & Ht & _). specialize (Ht row0 eq_refl). congruence. }
  destruct (list_get_last rows) as (lr & Hlast & ->); [done|].
  cbn [mbind result_bind].
  destruct (all_hash lr) eqn:Hbot; cbn [negb].
  2:{ intros (_ & _ & _ & _ & _ & Hb & _). specialize (Hb lr Hlast). congruence. }
  destruct (for_in_check rows check_sides)
    as [[-> Hall]|(e & r & Hr & Hbody & ->)].
  { intros r Hr. unfold check_sides.
    destruct (list_get_ok r 0) as (c0 & _ & ->); [rewrite (Hcols r Hr); lia|].
    cbn [mbind result_bind]. case_bool_decide; cbn [negb]; [|eauto].
    destruct (list_get_last r) as (cl & _ & ->).
    { intros ->. specialize (Hcols [] Hr). simpl in Hcols. lia. }
    cbn [mbind result_bind]. case_bool_decide; cbn [negb]; eauto. }
  2:{ unfold check_sides in Hbody.
      destruct (list_get_ok r 0) as (c0 & Hc0 & E0); [rewrite (Hcols r Hr); lia|].
      rewrite E0 in Hbody. cbn [mbind result_bind] in Hbody.
      destruct (list_get_last r) as (cl & Hcl & El).
      { intros ->. specialize (Hcols [] Hr). simpl in Hcols. lia. }
      case_bool_decide as Hf; cbn [negb] in Hbody.
      - rewrite El in Hbody. cbn [mbind result_bind] in Hbody.
        case_bool_decide as Hl; cbn [negb] in Hbody; [done|].
        injection Hbody as <-. cbn [mbind result_bind].
        intros (_ & _ & _ & _ & _ & _ & Hs). destruct (Hs r Hr) as [_ Hs2].
        rewrite Hcl in Hs2. by injection Hs2.
      - injection Hbody as <-. cbn [mbind result_bind].
        intros (_ & _ & _ & _ & _ & _ & Hs). destruct (Hs r Hr) as [Hs1 _].
        rewrite head_lookup in Hs1. change (Z.to_nat 0) with 0%nat in Hc0.
        rewrite Hc0 in Hs1. by injection Hs1. }
  assert (Hsides : ∀ row, row ∈ rows →
            head row = Some "#"%char ∧ last row = Some "#"%char).
  { intros r Hr. specialize (Hall r Hr). unfold check_sides in Hall.
    destruct (list_get_ok r 0) as (c0 & Hc0 & E0); [rewrite (Hcols r Hr); lia|].
    rewrite E0 in Hall. cbn [mbind result_bind] in Hall.
    destruct (list_get_last r) as (cl & Hcl & El).
    { intros ->. specialize (Hcols [] Hr). simpl in Hcols. lia. }
    case_bool_decide; cbn [negb] in Hall; [|done].
    rewrite El in Hall. cbn [mbind result_bind] in Hall.
    case_bool_decide; cbn [negb] in Hall; [|done]. subst c0 cl.
    split; [|done]. by rewrite head_lookup. }
  clear Hall. cbn [mbind result_bind].
  (* the cells *)
  destruct (read_loops rows w h) as (m & -> & [Hmw Hmh Hv Hz]).
  { by rewrite <- HHh. }
  { intros row Hrow. rewrite (Hcols row Hrow). done. }
  split; rewrite ?Hmw, ?Hmh.
  - by rewrite <- HHh.
  - intros row Hrow. by rewrite (Hcols row Hrow).
  - done.
  - by intros row [= <-].
  - intros row Hrow. rewrite Hlast in Hrow. by injection Hrow as <-.
  - done.
  - intros y b. rewrite Hv. unfold vertical_at. split.
    + intros (x & -> & [? ?] & ? & Hc).
      replace (2 * (x + 1)) with (2 * x + 1 + 1) by lia. repeat split; (done || lia).
    + intros (? & ? & Hc). exists (b - 1).
      replace (2 * (b - 1) + 1 + 1) with (2 * b) by lia.
      repeat split; (done || lia).
  - intros x b. rewrite Hz. unfold horizontal_at. split.
    + intros (y & -> & [? ?] & ? & Hc).
      replace (2 * (h - (y + 1))) with (2 * (h - 1 - y) + 1 - 1) by lia.
      repeat split; (done || lia).
    + intros (? & ? & Hc). exists (b - 1).
      replace (2 * (h - 1 - (b - 1)) + 1 - 1) with (2 * (h - b)) by lia.
      repeat split; (done || lia).
Qed.

Lemma accepted_bordered rows m : accepted rows m → bordered rows.
Proof. intros [? ? ? ? ? ? ? ?]. by exists (width m), (height m). Qed.

(** X23: whatever the text, [maze_reader] returns a maze or fails
    with a ValueError: no index it uses is ever out of range. *)
Theorem maze_reader_only_value_errors (lines : list string) :
  (∃ m, maze_reader lines = Ok m) ∨
  (∃ msg, maze_reader lines = Raise (ValueError msg)).
Proof.
  pose proof (maze_reader_cases lines) as H.
  destruct (maze_reader lines) as [m|[msg| |]|]; try done; eauto.
Qed.

(** X24: [maze_reader] accepts exactly the bordered texts: an odd
    number of rows of one odd width, first and last row all '#', every
    row beginning and ending with '#'. *)
Theorem maze_reader_accepts_bordered (lines : list string) :
  (∃ m, maze_reader lines = Ok m) ↔ bordered (rows_of lines).
Proof.
  pose proof (maze_reader_cases lines) as H. split.
  - intros [m Hm]. rewrite Hm in H. by apply accepted_bordered in H.
  - intros Hb. destruct (maze_reader lines) as [m|[msg| |]|]; try done; eauto.
Qed.

(** X25: the maze [maze_reader] builds from [2h + 1] rows of
    [2w + 1] characters has width [w] and height [h], and its walls
    are the '#' characters between cells: a vertical wall [(y, b)] for
    a '#' right of cell [(b - 1, y)], a horizontal wall [(x, b)] for a
    '#' above cell [(x, b - 1)], rows counted from the bottom. *)
Theorem maze_reader_walls (lines : list string) (m : Maze) :
  maze_reader lines = Ok m →
  let rows := rows_of lines in
  Z.of_nat (length rows) = 2 * height m + 1 ∧
  (∀ row, row ∈ rows → Z.of_nat (length row) = 2 * width m + 1) ∧
  0 ≤ width m ∧ 0 ≤ height m ∧
  (∀ y b, (y, b) ∈ _vertical_walls m ↔
     0 ≤ y < height m ∧ 1 ≤ b < width m ∧
     char_at rows (2 * (height m - 1 - y) + 1) (2 * b) = "#"%char) ∧
  (∀ x b, (x, b) ∈ _horizontal_walls m ↔
     0 ≤ x < width m ∧ 1 ≤ b < height m ∧
     char_at rows (2 * (height m - b)) (2 * x + 1) = "#"%char).
Proof.
  intros Hm rows. pose proof (maze_reader_cases lines) as H. rewrite Hm in H.
  destruct H as [? ? [? ?] ? ? ? ? ?]. do 5 (split; [done|]). done.
Qed.

(** X26: in the maze read from a text, two cells of the grid side by
    side are joined by an open step exactly when the character
    between them is not '#', and likewise for a cell and the one above
    it. *)
Theorem maze_reader_adjacency (lines : list string) (m : Maze) (x y : Z) :
  maze_reader lines = Ok m →
  let rows := rows_of lines in
  (0 ≤ y < height m → 0 ≤ x → x + 1 < width m →
     (open_step m (x, y) (x + 1, y) = true ↔
      char_at rows (2 * (height m - 1 - y) + 1) (2 * (x + 1)) ≠ "#"%char)) ∧
  (0 ≤ x < width m → 0 ≤ y → y + 1 < height m →
     (open_step m (x, y) (x, y + 1) = true ↔
      char_at rows (2 * (height m - (y + 1))) (2 * x + 1) ≠ "#"%char)).
Proof.
  intros Hm rows. pose proof (maze_reader_cases lines) as H. rewrite Hm in H.
  destruct H as [_ _ _ _ _ _ Hv Hz]. fold rows in Hv, Hz. split.
  - intros Hy Hx0 Hx1.
    rewrite open_step_neighbours, elem_of_ext_neighbours. cbn [fst snd].
    rewrite get_walls_east, orb_false_iff, !bool_decide_eq_false, Hv. split.
    + intros [[_ [= ?]]|[[[Hw _] _]|[[_ [= ? ?]]|[_ [= ?]]]]]; try lia.
      intros Hc. apply Hw. repeat split; (done || lia).
    + intros Hc. right; left. split; [|done]. split; [|lia].
      by intros (_ & _ & ?).
  - intros Hx Hy0 Hy1.
    rewrite open_step_neighbours, elem_of_ext_neighbours. cbn [fst snd].
    rewrite get_walls_north, orb_false_iff, !bool_decide_eq_false, Hz. split.
    + intros [[[Hw _] _]|[[_ [= ?]]|[[_ [= ?]]|[_ [= ? ?]]]]]; try lia.
      intros Hc. apply Hw. repeat split; (done || lia).
    + intros Hc. left. split; [|done]. split; [|lia].
      by intros (_ & _ & ?).
Qed.

(** The text of a two by two maze with one wall, between the cells
    (0, 0) and (0, 1). *)
Lemma example_maze_read :
  ∃ m, maze_reader example_maze = Ok m ∧ width m = 2 ∧ height m = 2.
Proof. eexists. split; [vm_compute; reflexivity|done]. Defined.

Lemma maze_reader_walls_witness :
  ∃ m, maze_reader example_maze = Ok m ∧
       ((0, 1) ∈ _horizontal_walls m ↔
        0 ≤ 0 < width m ∧ 1 ≤ 1 < height m ∧
        char_at (rows_of example_maze) (2 * (height m - 1)) (2 * 0 + 1) = "#"%char).
Proof.
  destruct example_maze_read as (m & Hm & Hw & Hh). exists m. split; [done|].
  destruct (maze_reader_walls example_maze m Hm) as (_ & _ & _ & _ & _ & Hz).
  exact (Hz 0 1).
Defined.

Lemma maze_reader_adjacency_witness :
  ∃ m, maze_reader example_maze = Ok m ∧
       (open_step m (0, 0) (1, 0) = true ↔
        char_at (rows_of example_maze) (2 * (height m - 1 - 0) + 1) (2 * (0 + 1))
        ≠ "#"%char).
Proof.
  destruct example_maze_read as (m & Hm & Hw & Hh). exists m. split; [done|].
  apply (maze_reader_adjacency example_maze m 0 0 Hm); lia.
Defined.

(** A single row of '#' is accepted and gives a maze without cells. *)
Example maze_reader_single_row :
  maze_reader ["###"%string] = Ok (new_maze 1 0).
Proof. reflexivity. Qed.

End MazeReader.
